(** * Tree: the dependency-resolution container of src/Tree.ts

    A shallow embedding of the class [Tree] (registry, resolver, destroyer)
    and the properties of its public operations.

    Modelling conventions.
    - [_registry] and [_resolved] are JavaScript objects used as maps.  A read
      [obj[key]] goes through [Object.prototype]: for a key without own
      property it yields the inherited member when [key] is one of the member
      names of [Object.prototype] ([prototype_member]), and [undefined]
      otherwise; [hasOwnProperty], assignment and [delete] act on own
      properties.  The key order of the registry is observed through
      [Object.keys], which lists array indices first, in ascending order, and
      then the other keys in the order of their creation; the registry is an
      association list kept in that order.  [_resolved] is only ever read,
      written and deleted by key; it is a [gmap].
    - Strings are byte strings in UTF-8.
    - Every operation threads the container explicitly and may throw; a thrown
      exception keeps the mutations made before it.
    - Factories are user code.  A factory is described by what the container
      can observe of it: the parameter text [_findDependencies] extracts,
      whether the context of a call answers [emit] and [removeAllListeners]
      (through the prototype of the factory or because the call installs
      them), and what a call evaluates to.  Factories do not call back into
      the container and do not throw.
    - Object identity is a counter; [history] is a ghost record of the calls
      into user code and of cache evictions, in program order.  The plain
      object [{}] that [_resolve] creates on entry gets an identity only where
      it can be observed, on a cache miss.
    - The recursive methods [_resolve] and [_destroy] take a recursion budget;
      [OutOfFuel] stands for exhausting it.  [resolve] never does
      ([resolve_total]).
    - [_log] only builds a message that nothing reads (its emitter call is
      commented out) and is left out.  Of [register], the form with a string
      key is modelled; the form with an object key registers each of its
      pairs through the string form. *)

From Stdlib Require Import String Ascii List ZArith Bool Lia.
From stdpp Require Import base gmap strings list fin_maps.
Import ListNotations.

Local Open Scope nat_scope.

(** ** JavaScript values *)

Record Obj := mkObj {
  obj_id : nat;
  obj_emit : bool;
  obj_removeAllListeners : bool
}.

Inductive prim :=
| PNull
| PBool (b : bool)
| PNum (n : Z)
| PStr (s : string).

(** What a call [value.apply(context, resolvedDeps)] evaluates to. *)
Inductive FnReturn :=
| ReturnsNothing
| ReturnsThis
| ReturnsArg (i : nat)
| ReturnsFresh
| ReturnsPrim (p : prim)
| ReturnsObj (o : Obj).

Record JsFunction := mkFn {
  (* argDecl[1] of _findDependencies: the text between the parentheses (or
     before the arrow) of fn.toString() once comments are stripped; None when
     neither ARROW_ARG nor FN_ARGS matches *)
  fn_argDecl : option string;
  (* whether an object created from fn.prototype || {} has the method *)
  fn_emit : bool;
  fn_removeAllListeners : bool;
  fn_return : FnReturn
}.

#[local] Set Warnings "-register-all".
Inductive value :=
| VUndefined
| VPrim (p : prim)
| VObj (o : Obj)
| VFun (f : JsFunction)
| VArr (l : list value).

Definition isUndefined (v : value) : bool :=
  match v with VUndefined => true | _ => false end.

(** JavaScript truthiness, as used by [||], [!] and [if]. *)
Definition truthy (v : value) : bool :=
  match v with
  | VUndefined => false
  | VPrim PNull => false
  | VPrim (PBool b) => b
  | VPrim (PNum n) => negb (Z.eqb n 0)
  | VPrim (PStr s) => negb (String.eqb s "")
  | VObj _ | VFun _ | VArr _ => true
  end.

Definition is_callable (v : value) : bool :=
  match v with VFun _ => true | _ => false end.

Definition truthy_key (k : string) : bool := negb (String.eqb k "").

(** ** Container state *)

Record Config := mkConfig {
  dependencies : list string;
  isConstant : bool;      (* truthiness of opts.constant || false *)
  isSingleton : bool;     (* truthiness of opts.singleton || false *)
  value_of : value
}.

Record Resolved := mkResolved {
  context : Obj;
  r_value : value
}.

Inductive event :=
| EvApply (key : string) (f : JsFunction) (this : Obj) (args : list value)
| EvEmit (this : Obj)
| EvRemoveAllListeners (this : Obj)
| EvDelete (key : string).

Record Tree := mkTree {
  _registry : list (string * Config);
  _resolved : gmap string Resolved;
  next_obj : nat;
  history : list event
}.

Definition empty_tree : Tree := mkTree [] ∅ 0 [].

(** The own property [key] of the registry: [registry.hasOwnProperty(key)]
    and its record. *)
Fixpoint reg_lookup (key : string) (r : list (string * Config)) : option Config :=
  match r with
  | [] => None
  | (k, c) :: r' => if String.eqb k key then Some c else reg_lookup key r'
  end.

(** The member names of [Object.prototype].  A read [obj[key]] of a plain
    object without own property [key] yields a function for each of them
    (the prototype object itself for [__proto__]): a truthy value that is not
    [undefined] and has none of the fields of a record. *)
Definition prototype_member (key : string) : bool :=
  existsb (String.eqb key)
    ["constructor"; "hasOwnProperty"; "isPrototypeOf"; "propertyIsEnumerable";
     "toLocaleString"; "toString"; "valueOf"; "__proto__";
     "__defineGetter__"; "__defineSetter__"; "__lookupGetter__"; "__lookupSetter__"].

(** Array indices: the canonical decimal numerals of the integers below
    [2^32 - 1].  [Object.keys] lists them first, in ascending order. *)
Definition digit_of (c : ascii) : option N :=
  let n := N_of_ascii c in
  if ((48 <=? n) && (n <=? 57))%N then Some (n - 48)%N else None.

Fixpoint numeral (s : string) (acc : N) : option N :=
  match s with
  | EmptyString => Some acc
  | String c s' =>
      match digit_of c with
      | Some d => numeral s' (10 * acc + d)%N
      | None => None
      end
  end.

Definition array_index (key : string) : option N :=
  match key with
  | EmptyString => None
  | String c rest =>
      if Ascii.eqb c "0"%char && negb (String.eqb rest "") then None
      else match numeral key 0 with
           | Some n => if (n <? 4294967295)%N then Some n else None
           | None => None
           end
  end.

(** [registry[key] = c] on an own property: it keeps its place. *)
Fixpoint reg_replace (key : string) (c : Config) (r : list (string * Config))
  : list (string * Config) :=
  match r with
  | [] => []
  | (k, c') :: r' =>
      if String.eqb k key then (k, c) :: r' else (k, c') :: reg_replace key c r'
  end.

(** A new array index goes before the first key that is a larger index or no
    index at all. *)
Fixpoint reg_insert_index (n : N) (key : string) (c : Config)
    (r : list (string * Config)) : list (string * Config) :=
  match r with
  | [] => [(key, c)]
  | (k, c') :: r' =>
      match array_index k with
      | Some m =>
          if (m <? n)%N then (k, c') :: reg_insert_index n key c r'
          else (key, c) :: (k, c') :: r'
      | None => (key, c) :: (k, c') :: r'
      end
  end.

(** [registry[key] = c]: an existing property keeps its place; a new array
    index goes to its place among the indices, any other new key goes last. *)
Definition reg_set (key : string) (c : Config) (r : list (string * Config))
  : list (string * Config) :=
  match reg_lookup key r with
  | Some _ => reg_replace key c r
  | None =>
      match array_index key with
      | Some n => reg_insert_index n key c r
      | None => r ++ [(key, c)]
      end
  end.

(** [Object.keys(registry)] *)
Definition Object_keys (r : list (string * Config)) : list string := map fst r.

(** ** Exceptions and the state-and-exception monad *)

Inductive exn :=
| JsError (msg : string)      (* throw new Error(msg) *)
| TypeError (what : string).  (* raised by the engine; the text names the
                                 offending expression *)

Inductive result (A : Type) :=
| Ok (a : A) (t : Tree)
| Throw (e : exn) (t : Tree)
| OutOfFuel.
Arguments Ok {A} a t.
Arguments Throw {A} e t.
Arguments OutOfFuel {A}.

Definition bind {A B : Type} (m : result A) (f : A -> Tree -> result B) : result B :=
  match m with
  | Ok a t => f a t
  | Throw e t => Throw e t
  | OutOfFuel => OutOfFuel
  end.

Notation "m >>= f" := (bind m f) (at level 58, left associativity).

(** [xs.forEach(x => { acc.push(f(x)); })] *)
Fixpoint mapM {A B : Type} (f : A -> Tree -> result B) (xs : list A) (t : Tree)
  : result (list B) :=
  match xs with
  | [] => Ok [] t
  | x :: xs' =>
      f x t >>= fun y t1 =>
      mapM f xs' t1 >>= fun ys t2 => Ok (y :: ys) t2
  end.

(** [xs.forEach(x => { f(x); })] *)
Fixpoint forEach {A : Type} (f : A -> Tree -> result unit) (xs : list A) (t : Tree)
  : result unit :=
  match xs with
  | [] => Ok tt t
  | x :: xs' => f x t >>= fun _ t1 => forEach f xs' t1
  end.

(** ** Helpers of Tree.ts *)

Definition newline : string := String (ascii_of_nat 10) "".

Fixpoint join_arrow (index : nat) (path : list string) : string :=
  match path with
  | [] => ""
  | item :: rest =>
      (if Nat.eqb index 0 then "" else " -> ") +:+ item +:+ join_arrow (S index) rest
  end.

Definition buildPathErrorMsg (msg : string) (path : list string) : string :=
  msg +:+ newline +:+ "    " +:+ join_arrow 0 path.

(** [countBy(collection)[key]] for a key that occurs in the collection. *)
Definition countBy (collection : list string) (key : string) : nat :=
  count_occ string_dec collection key.

(** [contains(collection, target)] on an array of strings. *)
Definition contains (collection : list string) (target : string) : bool :=
  existsb (String.eqb target) collection.

(** The white space that [String.prototype.trim] removes, in UTF-8: the
    code points TAB, LF, VT, FF, CR and SPACE (one byte), U+00A0 (two bytes),
    and U+1680, U+2000 to U+200A, U+2028, U+2029, U+202F, U+205F, U+3000 and
    U+FEFF (three bytes). *)
Definition is_space (c : ascii) : bool :=
  match nat_of_ascii c with
  | 9 | 10 | 11 | 12 | 13 | 32 => true
  | _ => false
  end.

Definition is_space2 (c1 c2 : ascii) : bool :=
  Nat.eqb (nat_of_ascii c1) 194 && Nat.eqb (nat_of_ascii c2) 160.

Definition is_space3 (c1 c2 c3 : ascii) : bool :=
  let a := nat_of_ascii c1 in
  let b := nat_of_ascii c2 in
  let c := nat_of_ascii c3 in
  (Nat.eqb a 225 && Nat.eqb b 154 && Nat.eqb c 128)
  || (Nat.eqb a 226 && Nat.eqb b 128 &&
      ((Nat.leb 128 c && Nat.leb c 138) || Nat.eqb c 168 || Nat.eqb c 169
       || Nat.eqb c 175))
  || (Nat.eqb a 226 && Nat.eqb b 129 && Nat.eqb c 159)
  || (Nat.eqb a 227 && Nat.eqb b 128 && Nat.eqb c 128)
  || (Nat.eqb a 239 && Nat.eqb b 187 && Nat.eqb c 191).

(** Removing the code points recognised by [ws1], [ws2] and [ws3] from the
    front of a list of bytes. *)
Fixpoint strip (ws1 : ascii -> bool) (ws2 : ascii -> ascii -> bool)
    (ws3 : ascii -> ascii -> ascii -> bool) (l : list ascii) : list ascii :=
  match l with
  | [] => []
  | c1 :: l1 =>
      if ws1 c1 then strip ws1 ws2 ws3 l1
      else match l1 with
           | [] => l
           | c2 :: l2 =>
               if ws2 c1 c2 then strip ws1 ws2 ws3 l2
               else match l2 with
                    | [] => l
                    | c3 :: l3 =>
                        if ws3 c1 c2 c3 then strip ws1 ws2 ws3 l3 else l
                    end
           end
  end.

(** Whether a list of bytes begins with one of the code points. *)
Definition starts_with (ws1 : ascii -> bool) (ws2 : ascii -> ascii -> bool)
    (ws3 : ascii -> ascii -> ascii -> bool) (l : list ascii) : bool :=
  match l with
  | [] => false
  | c1 :: l1 =>
      ws1 c1 ||
      match l1 with
      | [] => false
      | c2 :: l2 =>
          ws2 c1 c2 ||
          match l2 with
          | [] => false
          | c3 :: _ => ws3 c1 c2 c3
          end
      end
  end.

Definition trim_start (l : list ascii) : list ascii :=
  strip is_space is_space2 is_space3 l.

(** From the end: the same on the reversed bytes. *)
Definition trim_end (l : list ascii) : list ascii :=
  rev (strip is_space (fun c2 c1 => is_space2 c1 c2)
             (fun c3 c2 c1 => is_space3 c1 c2 c3) (rev l)).

Definition trim (s : string) : string :=
  string_of_list_ascii (trim_end (trim_start (list_ascii_of_string s))).

(** [s.split(/,/)] *)
Fixpoint split_comma (s : string) : list string :=
  match s with
  | EmptyString => [EmptyString]
  | String c s' =>
      if Ascii.eqb c ","%char then EmptyString :: split_comma s'
      else match split_comma s' with
           | [] => [String c EmptyString]
           | w :: ws => String c w :: ws
           end
  end.

Definition unregistered_msg (key : string) : string :=
  "Detected unregistered dependency `" +:+ key +:+ "`".

Definition circular_msg : string :=
  "Circular dependency detected! Please check the following dependencies to correct the problem".

Definition UnregisteredDependency (key : string) (path : list string) : exn :=
  JsError (buildPathErrorMsg (unregistered_msg key) path).

Definition CircularDependency (path : list string) : exn :=
  JsError (buildPathErrorMsg circular_msg path).

Definition NotAFactory (key : string) : exn :=
  JsError ("Cannot register non-function as factory: " +:+ key).

Definition InvalidOptions : exn :=
  JsError "Registration options must be a plain object".

(** ** Object allocation and calls into user code *)

Definition alloc (emit removeAllListeners : bool) (t : Tree) : Obj * Tree :=
  (mkObj (next_obj t) emit removeAllListeners,
   mkTree (_registry t) (_resolved t) (S (next_obj t)) (history t)).

Definition record (e : event) (t : Tree) : Tree :=
  mkTree (_registry t) (_resolved t) (next_obj t) (history t ++ [e]).

(** [value.apply(context, resolvedDeps)] *)
Definition apply_fn (key : string) (f : JsFunction) (this : Obj) (args : list value)
    (t : Tree) : value * Tree :=
  let t1 := record (EvApply key f this args) t in
  match fn_return f with
  | ReturnsNothing => (VUndefined, t1)
  | ReturnsThis => (VObj this, t1)
  | ReturnsArg i => (nth i args VUndefined, t1)
  | ReturnsFresh => let (o, t2) := alloc false false t1 in (VObj o, t2)
  | ReturnsPrim p => (VPrim p, t1)
  | ReturnsObj o => (VObj o, t1)
  end.

Definition set_resolved (key : string) (r : Resolved) (t : Tree) : Tree :=
  mkTree (_registry t) (<[key := r]> (_resolved t)) (next_obj t) (history t).

Definition delete_resolved (key : string) (t : Tree) : Tree :=
  mkTree (_registry t) (delete key (_resolved t)) (next_obj t)
         (history t ++ [EvDelete key]).

Definition set_registry (key : string) (c : Config) (t : Tree) : Tree :=
  mkTree (reg_set key c (_registry t)) (_resolved t) (next_obj t) (history t).

(** ** Tree._findDependencies *)

Definition _findDependencies (fn : JsFunction) (t : Tree) : result (list string) :=
  match fn_argDecl fn with
  | None => Throw (TypeError "argDecl[1]") t
  | Some argDecl1 =>
      Ok (List.filter (fun d => truthy_key d) (map trim (split_comma argDecl1))) t
  end.

(** ** Tree.isRegistered *)

Definition isRegistered (key : string) (t : Tree) : bool :=
  match reg_lookup key (_registry t) with
  | Some _ => true                   (* a record is an object, hence truthy *)
  | None => prototype_member key     (* an inherited member is truthy too *)
  end.

(** ** Tree._resolve *)

(** The factory branch once the dependencies are resolved:
    [context = Object.create(value.prototype || {})], the call
    [value.apply(context, resolvedDeps)], and the context standing in for an
    undefined result. *)
Definition invoke_factory (key : string) (v : value) (resolvedDeps : list value)
    (t : Tree) : result (Obj * value) :=
  match v with
  | VFun f =>
      let (ctx, t1) := alloc (fn_emit f) (fn_removeAllListeners f) t in
      let (resolvedValue, t2) := apply_fn key f ctx resolvedDeps t1 in
      Ok (ctx, if isUndefined resolvedValue then VObj ctx else resolvedValue) t2
  | VUndefined | VPrim PNull => Throw (TypeError "value.prototype") t
  | _ => Throw (TypeError "value.apply") t
  end.

(** The end of the cache-miss branch: a non-singleton is returned as it is, a
    singleton is stored with its context and read back. *)
Definition cache_result (key : string) (config : Config) (cv : Obj * value)
    (t : Tree) : result value :=
  if negb (isSingleton config) then Ok (snd cv) t
  else Ok (snd cv) (set_resolved key (mkResolved (fst cv) (snd cv)) t).

(** [_resolve] on a key without own record.  [registry[key]] is [undefined]
    unless [key] is a member name of [Object.prototype]; the inherited member
    passes the test for [undefined], has no [isConstant] and no
    [dependencies], so that a cache miss ends in [dependencies.forEach] on
    [undefined].  ([countBy(p)["__proto__"]] is never a number.) *)
Definition resolve_without_record (key : string) (p : list string) (t : Tree)
  : result value :=
  if negb (prototype_member key) then Throw (UnregisteredDependency key p) t
  else if negb (String.eqb key "__proto__") && (1 <? countBy p key)
  then Throw (CircularDependency p) t
  else match _resolved t !! key with
       | Some cached => Ok (r_value cached) t
       | None => Throw (TypeError "dependencies.forEach") t
       end.

Fixpoint _resolve (fuel : nat) (key : string) (path : list string) (t : Tree)
  : result value :=
  match fuel with
  | O => OutOfFuel
  | S fuel' =>
    let p := path ++ [key] in
    match reg_lookup key (_registry t) with
    | None => resolve_without_record key p t
    | Some config =>
      if 1 <? countBy p key then Throw (CircularDependency p) t
      else
        match _resolved t !! key with
        | Some cached => Ok (r_value cached) t
        | None =>
          (if isConstant config then
             (* the plain {} of the declaration is the context *)
             let (ctx, t1) := alloc false false t in
             Ok (ctx, value_of config) t1
           else
             mapM (fun dependency => _resolve fuel' dependency p)
                  (dependencies config) t
             >>= invoke_factory key (value_of config))
          >>= cache_result key config
        end
    end
  end.

(** The recursion of [_resolve] never goes deeper than one frame per
    registered key, plus one for a key that turns out unregistered. *)
Definition resolve_fuel (t : Tree) : nat := S (length (_registry t)).

(** ** Tree.resolve *)

(** [resolve(key)] with a key. *)
Definition resolve (key : string) (t : Tree) : result value :=
  _resolve (resolve_fuel t) key [] t.

(** [resolve()] without a key: the object [o] as its list of properties. *)
Definition resolve_all (t : Tree) : result (list (string * value)) :=
  mapM (fun k t' => _resolve (resolve_fuel t) k [] t' >>= fun v t'' => Ok (k, v) t'')
       (Object_keys (_registry t)) t.

(** ** Tree._destroy *)

(** [Object.keys(registry).map(...).filter(depName => !!depName)]: the map
    leaves [null] for a key that does not depend on [key]; [null] and the empty
    key are both falsy and both dropped by the filter (the empty string stands
    for [null] here). *)
Definition dependsOnKey (key : string) (t : Tree) : list string :=
  List.filter (fun depName => truthy_key depName)
    (map (fun kc : string * Config =>
            if contains (dependencies (snd kc)) key then fst kc else "")
         (_registry t)).

Definition emit_destroy (ctx : Obj) (t : Tree) : result unit :=
  if obj_emit ctx then Ok tt (record (EvEmit ctx) t)
  else Throw (TypeError "context.emit") t.

Definition removeAllListeners_destroy (ctx : Obj) (t : Tree) : result unit :=
  if obj_removeAllListeners ctx then Ok tt (record (EvRemoveAllListeners ctx) t)
  else Throw (TypeError "context.removeAllListeners") t.

Fixpoint _destroy (fuel : nat) (key : string) (t : Tree) : result unit :=
  match fuel with
  | O => OutOfFuel
  | S fuel' =>
    match _resolved t !! key with
    | None =>
        if prototype_member key then
          (* [this._resolved[key]] is an inherited member: truthy, and its
             [context] is undefined *)
          forEach (_destroy fuel') (dependsOnKey key t) t >>= fun _ t1 =>
          Throw (TypeError "context.emit") t1
        else Ok tt t
    | Some resolved =>
        forEach (_destroy fuel') (dependsOnKey key t) t >>= fun _ t1 =>
        emit_destroy (context resolved) t1 >>= fun _ t2 =>
        removeAllListeners_destroy (context resolved) t2 >>= fun _ t3 =>
        Ok tt (delete_resolved key t3)
    end
  end.

(** A terminating cascade visits pairwise distinct cached keys, then at most
    one key that is not cached. *)
Definition destroy_fuel (t : Tree) : nat := 2 + size (_resolved t).

(** ** Tree.destroy

    [None] is a call without key (or with [undefined]). *)
Definition destroy (key : option string) (t : Tree) : result unit :=
  let keys := Object_keys (_registry t) in
  match key with
  | Some k =>
      if truthy_key k then _destroy (destroy_fuel t) k t
      else forEach (_destroy (destroy_fuel t)) keys t
  | None => forEach (_destroy (destroy_fuel t)) keys t
  end.

(** ** Tree.register, for a string key *)

Inductive options :=
| OptsAbsent                  (* undefined, or any falsy argument *)
| OptsNotPlain                (* truthy, class tag other than [object Object] *)
| OptsObject (aggregateOn constant singleton : value).

Definition is_plain_or_absent (o : options) : bool :=
  match o with OptsNotPlain => false | _ => true end.

Definition opt_aggregateOn (o : options) : value :=
  match o with OptsObject a _ _ => a | _ => VUndefined end.
Definition opt_constant (o : options) : value :=
  match o with OptsObject _ c _ => c | _ => VUndefined end.
Definition opt_singleton (o : options) : value :=
  match o with OptsObject _ _ s => s | _ => VUndefined end.

(** [arr.forEach(callbackfn, thisArg)] first checks that [callbackfn] is
    callable and raises a TypeError otherwise, before visiting any element;
    [body] is what a callable callback does on one element. *)
Definition Array_forEach (arr : list value) (callbackfn : value)
    (body : value -> Tree -> result unit) (t : Tree) : result unit :=
  if is_callable callbackfn then forEach body arr t
  else Throw (TypeError "callbackfn is not a function") t.

(** The overwrite path: a key that is registered already has its cached
    resolution destroyed first. *)
Definition overwrite (key : string) (t : Tree) : result unit :=
  if isRegistered key t then destroy (Some key) t else Ok tt t.

(** The dependency list of the new record: a factory must be a function and
    declares its dependencies, a constant has none. *)
Definition declared_dependencies (key : string) (val : value) (constant : bool)
    (t : Tree) : result (list string) :=
  if negb constant then
    match val with
    | VFun f => _findDependencies f t
    | _ => Throw (NotAFactory key) t
    end
  else Ok [] t.

(** The aggregators.  [aggregateOn.forEach(aggregateOn, aggregateKey => {...})]
    passes the array itself as the callback, and as thisArg the arrow function
    that would create and extend the aggregator. *)
Definition aggregate (aggregateOn : value) (t : Tree) : result unit :=
  if truthy aggregateOn then
    let arr := match aggregateOn with VArr l => l | v => [v] end in
    Array_forEach arr (VArr arr) (fun _ t' => Ok tt t') t
  else Ok tt t.

Definition register (key : string) (val : value) (opts : options) (t : Tree)
  : result unit :=
  match opts with
  | OptsNotPlain => Throw InvalidOptions t
  | _ =>
    let aggregateOn := opt_aggregateOn opts in
    let constant := truthy (opt_constant opts) in
    let singleton := truthy (opt_singleton opts) in
    overwrite key t >>= fun _ t1 =>
    declared_dependencies key val constant t1 >>= fun deps t2 =>
    aggregate aggregateOn
      (set_registry key (mkConfig deps constant singleton val) t2)
  end.

(** [clone(opts)] followed by setting one property. *)
Definition constant (key : string) (val : value) (opts : options) (t : Tree)
  : result unit :=
  register key val
    (OptsObject (opt_aggregateOn opts) (VPrim (PBool true)) (opt_singleton opts)) t.

Definition singleton (key : string) (val : value) (opts : options) (t : Tree)
  : result unit :=
  register key val
    (OptsObject (opt_aggregateOn opts) (opt_constant opts) (VPrim (PBool true))) t.

(** The container after an operation, whether it returned or threw. *)
Definition state_after {A : Type} (r : result A) (t0 : Tree) : Tree :=
  match r with
  | Ok _ t => t
  | Throw _ t => t
  | OutOfFuel => t0
  end.

(** The value a resolution hands back for a call of factory [f] on the fresh
    context [this]: the explicit result of the call, or the context when the
    call yields [undefined]. *)
Definition factory_result (f : JsFunction) (this : Obj) (args : list value) : value :=
  match fn_return f with
  | ReturnsNothing => VObj this
  | ReturnsThis => VObj this
  | ReturnsArg i =>
      if isUndefined (nth i args VUndefined) then VObj this
      else nth i args VUndefined
  | ReturnsFresh => VObj (mkObj (S (obj_id this)) false false)
  | ReturnsPrim p => VPrim p
  | ReturnsObj o => VObj o
  end.

(** Factories whose result is an object made by the call itself: the context
    (constructor style, with or without [return this]) or a new object. *)
Definition returns_own_instance (f : JsFunction) : bool :=
  match fn_return f with
  | ReturnsNothing | ReturnsThis | ReturnsFresh => true
  | _ => false
  end.

(** [P] holds of the container an operation leaves behind, whether it
    returned or threw. *)
Definition after {A : Type} (r : result A) (P : Tree -> Prop) : Prop :=
  match r with
  | Ok _ t => P t
  | Throw _ t => P t
  | OutOfFuel => True
  end.

(** ** Relations between container states *)

(** [t'] is [t] after some resolutions: same registry, the cache only gains
    entries, and only for registered singletons; allocation and history only
    grow. *)
Record extends (t t' : Tree) : Prop := mkExtends {
  ext_registry : _registry t' = _registry t;
  ext_resolved : _resolved t ⊆ _resolved t';
  ext_next : next_obj t <= next_obj t';
  ext_history : exists evs, history t' = history t ++ evs;
  ext_new : forall k r, _resolved t' !! k = Some r ->
      _resolved t !! k = Some r \/
      exists cfg, reg_lookup k (_registry t) = Some cfg /\ isSingleton cfg = true
}.

(** [t'] is [t] after some teardown: same registry, the cache only loses
    entries. *)
Record shrinks (t t' : Tree) : Prop := mkShrinks {
  shr_registry : _registry t' = _registry t;
  shr_resolved : _resolved t' ⊆ _resolved t;
  shr_next : next_obj t' = next_obj t
}.

(** [t'] is [t] after some resolutions under the requester chain [path]: the
    history gained no call of a factory registered under a key of [path]. *)
Definition quiet_on (path : list string) (t t' : Tree) : Prop :=
  exists evs, history t' = history t ++ evs /\
    forall k f c a, In (EvApply k f c a) evs -> ~ In k path.

(** Every cached construction context answers [emit] and
    [removeAllListeners]. *)
Definition teardown_ready (t : Tree) : Prop :=
  forall k r, _resolved t !! k = Some r ->
    obj_emit (context r) = true /\ obj_removeAllListeners (context r) = true.

(** No record sits under a member name of [Object.prototype]: [register]
    cannot create one ([reachable_plain_registry]). *)
Definition plain_registry (t : Tree) : Prop :=
  forall k, In k (Object_keys (_registry t)) -> prototype_member k = false.

(** The cached keys carry no cycle of dependents: [rank] strictly decreases
    from a cached key to each of its cached dependents. *)
Definition ranked (rank : string -> nat) (t : Tree) : Prop :=
  forall k d, is_Some (_resolved t !! k) -> In d (dependsOnKey k t) ->
    is_Some (_resolved t !! d) -> rank d < rank k.

(** ** Scenarios

    Containers built with the public operations, starting from a new one. *)

Definition then_ {A : Type} (t : Tree) (op : Tree -> result A) : Tree :=
  state_after (op t) t.

Notation "t |> op" := (then_ t op) (at level 40, left associativity).

Definition no_opts : options := OptsAbsent.

(** The containers a program can build: a new one, and the one any public
    operation leaves behind, whether it returned or threw.  ([constant] and
    [singleton] are [register] with an option set.) *)
Inductive reachable : Tree -> Prop :=
| reach_new : reachable empty_tree
| reach_register t key val opts :
    reachable t -> reachable (t |> register key val opts)
| reach_resolve t key :
    reachable t -> reachable (t |> resolve key)
| reach_resolve_all t :
    reachable t -> reachable (t |> resolve_all)
| reach_destroy t key :
    reachable t -> reachable (t |> destroy key).

(** The data-model invariant of the cache: it only holds entries for keys
    that are registered as singletons. *)
Definition cache_holds_singletons (t : Tree) : Prop :=
  forall k r, _resolved t !! k = Some r ->
    exists config, reg_lookup k (_registry t) = Some config /\
                   isSingleton config = true.

(** The test of the repository: a class with one constructor parameter,
    registered as a factory, and a class without parameters, registered as a
    singleton.  (Whether their instances answer the teardown hook plays no
    part in a resolution.) *)
Definition TestPlugin : JsFunction :=
  mkFn (Some "errorParser") false false ReturnsNothing.
Definition DefaultErrorParser : JsFunction :=
  mkFn (Some "") false false ReturnsNothing.

Definition plugin_tree : Tree :=
  empty_tree |> register "errorPlugin" (VFun TestPlugin) no_opts
             |> singleton "errorParser" (VFun DefaultErrorParser) no_opts.

Definition plugin_tree_once : Tree := plugin_tree |> resolve "errorPlugin".

(** A factory [function (errorParser) { return 42; }]. *)
Definition Answer : JsFunction :=
  mkFn (Some "errorParser") false false (ReturnsPrim (PNum 42)).

Definition answer_tree : Tree :=
  empty_tree |> register "answer" (VFun Answer) no_opts
             |> singleton "errorParser" (VFun DefaultErrorParser) no_opts.

Definition answer_tree_once : Tree := answer_tree |> resolve "answer".

(** Two factories that name each other as parameter. *)
Definition NeedsB : JsFunction := mkFn (Some "B") false false ReturnsNothing.
Definition NeedsA : JsFunction := mkFn (Some "A") false false ReturnsNothing.
Definition NeedsNothing : JsFunction := mkFn (Some "") false false ReturnsNothing.

Definition cycle_tree : Tree :=
  empty_tree |> register "A" (VFun NeedsB) no_opts
             |> register "B" (VFun NeedsA) no_opts.

(** [A] is resolved and cached while [B] has no dependency; [B] is then
    registered again, now depending on [A]. *)
Definition cached_cycle_tree : Tree :=
  empty_tree |> register "B" (VFun NeedsNothing) no_opts
             |> singleton "A" (VFun NeedsB) no_opts
             |> resolve "A"
             |> singleton "B" (VFun NeedsA) no_opts.

(** ... and [B] is resolved in turn, from the cached [A]. *)
Definition cached_cycle_both : Tree := cached_cycle_tree |> resolve "B".

(** Two registrations that aggregate on ["agg"]. *)
Definition aggregate_opts : options :=
  OptsObject (VPrim (PStr "agg")) VUndefined VUndefined.

Definition aggregate_tree_a : Tree :=
  empty_tree |> register "a" (VFun NeedsNothing) aggregate_opts.

Definition aggregate_tree_ab : Tree :=
  aggregate_tree_a |> register "b" (VFun NeedsNothing) aggregate_opts.

(** A singleton [K] and a singleton [D] that depends on it, both resolved;
    plain functions, as in the test of the repository. *)
Definition NeedsK : JsFunction := mkFn (Some "K") false false ReturnsNothing.

Definition dependent_tree : Tree :=
  empty_tree |> singleton "K" (VFun NeedsNothing) no_opts
             |> singleton "D" (VFun NeedsK) no_opts
             |> resolve "D".

(** A constant registered as a singleton, then resolved. *)
Definition constant_singleton_opts : options :=
  OptsObject VUndefined (VPrim (PBool true)) (VPrim (PBool true)).

Definition constant_tree : Tree :=
  empty_tree |> register "c" (VPrim (PNum 1)) constant_singleton_opts
             |> resolve "c".

(** A singleton under the empty key and another singleton, both resolved. *)
Definition empty_key_tree : Tree :=
  empty_tree |> singleton "" (VFun NeedsNothing) no_opts
             |> singleton "other" (VFun NeedsNothing) no_opts
             |> resolve ""
             |> resolve "other".

(** A resolved singleton whose factory has an event-emitter prototype. *)
Definition EmitterService : JsFunction := mkFn (Some "") true true ReturnsNothing.

(** The cascade scenario again, with factories whose prototype is an event
    emitter. *)
Definition EmitterNeedsK : JsFunction := mkFn (Some "K") true true ReturnsNothing.

Definition emitter_dependent_tree : Tree :=
  empty_tree |> singleton "K" (VFun EmitterService) no_opts
             |> singleton "D" (VFun EmitterNeedsK) no_opts
             |> resolve "D".

Definition rank_K_over_D (k : string) : nat := if String.eqb k "K" then 1 else 0.

Definition emitter_tree : Tree :=
  empty_tree |> singleton "service" (VFun EmitterService) no_opts
             |> resolve "service".

(** ** Further parts of Tree.ts *)

(** [register(key, value, opts)] with an object as [key]: its own properties,
    in [for ... in] order, are registered one by one through the string form.
    The second argument is only ever read as the options, when the third is
    [undefined].  ([null] is an object without properties.) *)
Definition object_form_options (val : options) (opts : option options) : options :=
  match opts with
  | None => val       (* isUndefined(opts): opts = value *)
  | Some o => o
  end.

Definition register_object (key : list (string * value)) (val : options)
    (opts : option options) (t : Tree) : result unit :=
  forEach (fun kv => register (fst kv) (snd kv) (object_form_options val opts)) key t.

(** The calls of the factory registered under [key] among some events. *)
Definition is_apply_of (key : string) (e : event) : bool :=
  match e with
  | EvApply k _ _ _ => String.eqb k key
  | _ => false
  end.

Definition applications (key : string) (evs : list event) : nat :=
  length (List.filter (is_apply_of key) evs).

(** Parameter lists as a function prints them: names separated by a comma
    and a space. *)
Fixpoint join_comma (names : list string) : string :=
  match names with
  | [] => ""
  | [n] => n
  | n :: rest => n +:+ ", " +:+ join_comma rest
  end.

Fixpoint has_comma (s : string) : bool :=
  match s with
  | EmptyString => false
  | String c s' => Ascii.eqb c ","%char || has_comma s'
  end.

(** A parameter name: not empty, without comma, without white space at
    either end. *)
Definition is_name (n : string) : bool :=
  negb (String.eqb n "") && negb (has_comma n) && String.eqb (trim n) n.

(** Between [t] and [t'], for the keys registered as singletons: the factory
    is called at most once, not at all when [t] already holds the entry, and a
    call leaves an entry in [t']. *)
Definition once_per_singleton (t t' : Tree) : Prop :=
  exists evs, history t' = history t ++ evs /\
    forall x config,
      reg_lookup x (_registry t) = Some config -> isSingleton config = true ->
      applications x evs <= 1 /\
      (is_Some (_resolved t !! x) -> applications x evs = 0) /\
      (applications x evs = 1 -> is_Some (_resolved t' !! x)).


(** Calls of a factory among the events. *)
Definition is_apply (e : event) : bool :=
  match e with
  | EvApply _ _ _ _ => true
  | _ => false
  end.

(** Between [t] and [t'] only teardown happened: no factory was called, and
    every cache entry that is gone had [emit] and [removeAllListeners] called
    on its context and was deleted. *)
Definition torn_down (t t' : Tree) : Prop :=
  exists evs, history t' = history t ++ evs /\
    List.Forall (fun e => is_apply e = false) evs /\
    forall k r, _resolved t !! k = Some r -> _resolved t' !! k = None ->
      In (EvEmit (context r)) evs /\
      In (EvRemoveAllListeners (context r)) evs /\
      In (EvDelete k) evs.

(** A singleton [K], a non-singleton factory [M] that takes [K], and a
    singleton [E] that takes [M]; all three with an event-emitter prototype;
    [E] resolved. *)
Definition EmitterNeedsM : JsFunction := mkFn (Some "M") true true ReturnsNothing.

Definition through_factory_tree : Tree :=
  empty_tree |> singleton "K" (VFun EmitterService) no_opts
             |> register "M" (VFun EmitterNeedsK) no_opts
             |> singleton "E" (VFun EmitterNeedsM) no_opts
             |> resolve "E".

(** An operation that does not return: it throws, or its recursion never
    ends. *)
Definition fails {A : Type} (r : result A) : Prop :=
  match r with
  | Ok _ _ => False
  | _ => True
  end.

(** [a] is a factory key without cache entry whose first declared dependency
    is [b]. *)
Definition first_dependency (t : Tree) (a b : string) : Prop :=
  exists config,
    reg_lookup a (_registry t) = Some config /\
    isConstant config = false /\
    _resolved t !! a = None /\
    hd_error (dependencies config) = Some b.

(** [a], then the keys [ks], then [z]: each one has the next as its first
    dependency. *)
Fixpoint dependency_chain (t : Tree) (a : string) (ks : list string) (z : string)
  : Prop :=
  match ks with
  | [] => first_dependency t a z
  | b :: ks' => first_dependency t a b /\ dependency_chain t b ks' z
  end.

(** Three factories that name each other in a ring. *)
Definition ring_tree : Tree :=
  empty_tree
    |> register "a" (VFun (mkFn (Some "b, log") false false ReturnsNothing)) no_opts
    |> register "b" (VFun (mkFn (Some "c") false false ReturnsNothing)) no_opts
    |> register "c" (VFun (mkFn (Some "a") false false ReturnsNothing)) no_opts.

(** A singleton [K] and a singleton under the empty key that takes [K], both
    with an event-emitter prototype and both resolved. *)
Definition empty_dependent_tree : Tree :=
  empty_tree |> singleton "K" (VFun EmitterService) no_opts
             |> singleton "" (VFun EmitterNeedsK) no_opts
             |> resolve "".


(** [this._resolve(key, path)] with the recursion budget of [resolve]. *)
Definition resolve_under (path : list string) (key : string) (t : Tree)
  : result value :=
  _resolve (resolve_fuel t) key path t.

(** [reaches x path key chain t t']: the call [_resolve(key, path)] in [t]
    gets to ask for [x] through the requesters [chain], leaving [t'].  Each
    requester is a factory key without cache entry; the dependencies it lists
    before the next key of the chain resolve. *)
Inductive reaches (x : string)
  : list string -> string -> list string -> Tree -> Tree -> Prop :=
| reaches_here path t : reaches x path x [] t t
| reaches_through path key chain t config pre post args t1 d t2 :
    reg_lookup key (_registry t) = Some config ->
    ~ In key path ->
    _resolved t !! key = None ->
    isConstant config = false ->
    dependencies config = pre ++ d :: post ->
    mapM (resolve_under (path ++ [key])) pre t = Ok args t1 ->
    reaches x (path ++ [key]) d chain t1 t2 ->
    reaches x path key (key :: chain) t t2.

(** [A] takes [C] and then [B]; [B] takes [A]. *)
Definition cycle_behind_tree : Tree :=
  empty_tree
    |> register "C" (VFun NeedsNothing) no_opts
    |> register "A" (VFun (mkFn (Some "C, B") false false ReturnsNothing)) no_opts
    |> register "B" (VFun NeedsA) no_opts.

(** [A] takes [X], which is not registered, and then [B]; [B] takes [A]. *)
Definition cycle_behind_unregistered_tree : Tree :=
  empty_tree
    |> register "A" (VFun (mkFn (Some "X, B") false false ReturnsNothing)) no_opts
    |> register "B" (VFun NeedsA) no_opts.


(** [plugin] takes [log] and [parser]; [parser] takes [log] and [missing],
    which is not registered. *)
Definition missing_tree : Tree :=
  empty_tree
    |> singleton "log" (VFun NeedsNothing) no_opts
    |> register "parser" (VFun (mkFn (Some "log, missing") false false ReturnsNothing))
         no_opts
    |> register "plugin" (VFun (mkFn (Some "log, parser") false false ReturnsNothing))
         no_opts.


(** * Properties *)

(** Scenarios are reachable by construction. *)
Ltac reach :=
  repeat first
    [ exact reach_new
    | apply reach_resolve
    | apply reach_destroy
    | apply reach_register
    | apply (reach_register _ _ _ (OptsObject _ _ _)) ].

(** The keys of a scenario are no member names of [Object.prototype]. *)
Ltac plain_keys :=
  let k := fresh "k" in
  let H := fresh "H" in
  intros k H; vm_compute in H;
  repeat (destruct H as [H|H]; [subst k; reflexivity|]);
  destruct H.

(** ** The monad *)

Lemma bind_Ok_inv {A B} (m : result A) (f : A -> Tree -> result B) b t' :
  m >>= f = Ok b t' -> exists a t1, m = Ok a t1 /\ f a t1 = Ok b t'.
Proof. destruct m; simpl; intros H; try discriminate. eauto. Qed.

Lemma mapM_state {A B} (P : Tree -> Tree -> Prop) (f : A -> Tree -> result B) xs :
  (forall t, P t t) ->
  (forall a b c, P a b -> P b c -> P a c) ->
  (forall x t, In x xs -> after (f x t) (P t)) ->
  forall t, after (mapM f xs t) (P t).
Proof.
  intros Hrefl Htrans. induction xs as [|x xs IH]; intros Hf t; simpl.
  - apply Hrefl.
  - pose proof (Hf x t (or_introl eq_refl)) as Hx.
    destruct (f x t) as [y t1|e t1|]; simpl in *; auto.
    assert (IH' := IH (fun x' t' Hin => Hf x' t' (or_intror Hin)) t1).
    destruct (mapM f xs t1) as [ys t2|e t2|]; simpl in *; eauto.
Qed.

Lemma forEach_state {A} (P : Tree -> Tree -> Prop) (f : A -> Tree -> result unit) xs :
  (forall t, P t t) ->
  (forall a b c, P a b -> P b c -> P a c) ->
  (forall x t, In x xs -> after (f x t) (P t)) ->
  forall t, after (forEach f xs t) (P t).
Proof.
  intros Hrefl Htrans. induction xs as [|x xs IH]; intros Hf t; simpl.
  - apply Hrefl.
  - pose proof (Hf x t (or_introl eq_refl)) as Hx.
    destruct (f x t) as [y t1|e t1|]; simpl in *; auto.
    assert (IH' := IH (fun x' t' Hin => Hf x' t' (or_intror Hin)) t1).
    destruct (forEach f xs t1) as [ys t2|e t2|]; simpl in *; eauto.
Qed.

(** ** [extends] *)

Lemma extends_refl t : extends t t.
Proof.
  constructor; auto.
  - exists []. now rewrite app_nil_r.
Qed.

Lemma extends_trans a b c : extends a b -> extends b c -> extends a c.
Proof.
  intros [R1 C1 N1 [e1 H1] W1] [R2 C2 N2 [e2 H2] W2]. constructor.
  - congruence.
  - etransitivity; eauto.
  - lia.
  - exists (e1 ++ e2). rewrite H2, H1. now rewrite <- app_assoc.
  - intros k r Hk. destruct (W2 k r Hk) as [Hb|[cfg [Hc Hs]]].
    + auto.
    + right. exists cfg. split; [congruence|auto].
Qed.

Lemma alloc_extends e r t : extends t (snd (alloc e r t)).
Proof.
  constructor; simpl; auto.
  exists []. now rewrite app_nil_r.
Qed.

Lemma apply_fn_extends key f this args t :
  extends t (snd (apply_fn key f this args t)).
Proof.
  unfold apply_fn.
  destruct (fn_return f); simpl; constructor; simpl; eauto.
Qed.

Lemma invoke_factory_extends key v args t :
  after (invoke_factory key v args t) (extends t).
Proof.
  unfold invoke_factory. destruct v as [|[]| | |]; simpl; try apply extends_refl.
  pose proof (apply_fn_extends key f
      (mkObj (next_obj t) (fn_emit f) (fn_removeAllListeners f)) args
      (snd (alloc (fn_emit f) (fn_removeAllListeners f) t))) as Ha.
  simpl in Ha.
  destruct (apply_fn key f _ args _) as [rv t2]. simpl in *.
  eapply extends_trans; [apply (alloc_extends (fn_emit f) (fn_removeAllListeners f))|].
  exact Ha.
Qed.

Lemma cache_result_extends key config cv t0 t :
  reg_lookup key (_registry t0) = Some config ->
  _resolved t0 !! key = None ->
  extends t0 t ->
  after (cache_result key config cv t) (extends t0).
Proof.
  intros Hreg Hmiss Hext. unfold cache_result.
  destruct (isSingleton config) eqn:Hs; simpl; auto.
  destruct Hext as [R C N [evs H] W]. constructor; simpl; eauto.
  - apply map_subseteq_spec. intros i x Hi.
    destruct (decide (key = i)) as [->|Hne]; [congruence|].
    rewrite lookup_insert_ne by auto.
    eapply lookup_weaken; eauto.
  - intros k r. destruct (decide (key = k)) as [->|Hne].
    + intros _. right. eauto.
    + rewrite lookup_insert_ne by auto. auto.
Qed.

(** A key without own record: the outcome leaves the container as it is. *)
Lemma resolve_without_record_after key p t (P : Tree -> Prop) :
  P t -> after (resolve_without_record key p t) P.
Proof.
  intros H. unfold resolve_without_record.
  destruct (negb (prototype_member key)); [exact H|].
  destruct (negb (String.eqb key "__proto__") && (1 <? countBy p key)); [exact H|].
  destruct (_resolved t !! key); exact H.
Qed.

Lemma resolve_without_record_total key p t :
  resolve_without_record key p t <> OutOfFuel.
Proof.
  unfold resolve_without_record.
  destruct (negb (prototype_member key)); [discriminate|].
  destruct (negb (String.eqb key "__proto__") && (1 <? countBy p key)); [discriminate|].
  destruct (_resolved t !! key); discriminate.
Qed.

Lemma resolve_without_record_state key p t :
  match resolve_without_record key p t with
  | Ok _ t' | Throw _ t' => t' = t
  | OutOfFuel => False
  end.
Proof.
  unfold resolve_without_record.
  destruct (negb (prototype_member key)); [reflexivity|].
  destruct (negb (String.eqb key "__proto__") && (1 <? countBy p key)); [reflexivity|].
  destruct (_resolved t !! key); reflexivity.
Qed.

Lemma _resolve_extends fuel : forall key path t,
  after (_resolve fuel key path t) (extends t).
Proof.
  induction fuel as [|n IH]; intros key path t; simpl.
  - exact I.
  - destruct (reg_lookup key (_registry t)) as [config|] eqn:Hreg;
      [|apply resolve_without_record_after, extends_refl].
    destruct (1 <? countBy (path ++ [key]) key); [apply extends_refl|].
    destruct (_resolved t !! key) as [cached|] eqn:Hc; [apply extends_refl|].
    destruct (isConstant config).
    + simpl. apply cache_result_extends; auto.
      apply (alloc_extends false false).
    + pose proof (mapM_state extends
        (fun dependency => _resolve n dependency (path ++ [key]))
        (dependencies config) extends_refl extends_trans
        (fun x t' _ => IH x (path ++ [key]) t') t) as Hm.
      destruct (mapM _ (dependencies config) t) as [vs t1|e t1|]; simpl in *; auto.
      pose proof (invoke_factory_extends key (value_of config) vs t1) as Hi.
      destruct (invoke_factory key (value_of config) vs t1) as [cv t2|e t2|];
        simpl in *.
      * apply cache_result_extends; auto. eapply extends_trans; eauto.
      * eapply extends_trans; eauto.
      * auto.
Qed.

(** ** Unfolding [_resolve] *)

Lemma countBy_snoc path key : countBy (path ++ [key]) key = S (countBy path key).
Proof.
  unfold countBy. rewrite count_occ_app. simpl.
  destruct (string_dec key key); [lia|congruence].
Qed.

Lemma circular_check path key :
  (1 <? countBy (path ++ [key]) key) = true <-> In key path.
Proof.
  rewrite countBy_snoc. unfold countBy. rewrite Nat.ltb_lt.
  rewrite (count_occ_In string_dec). lia.
Qed.

Lemma circular_check_false path key :
  (1 <? countBy (path ++ [key]) key) = false <-> ~ In key path.
Proof.
  rewrite <- circular_check. destruct (1 <? _); split; intros; congruence.
Qed.

Lemma _resolve_no_record fuel key path t :
  reg_lookup key (_registry t) = None ->
  _resolve (S fuel) key path t = resolve_without_record key (path ++ [key]) t.
Proof. intros H. simpl. now rewrite H. Qed.

Lemma _resolve_unregistered fuel key path t :
  reg_lookup key (_registry t) = None ->
  prototype_member key = false ->
  _resolve (S fuel) key path t = Throw (UnregisteredDependency key (path ++ [key])) t.
Proof.
  intros H Hp. rewrite _resolve_no_record by exact H.
  unfold resolve_without_record. now rewrite Hp.
Qed.

Lemma _resolve_circular fuel key path t config :
  reg_lookup key (_registry t) = Some config ->
  In key path ->
  _resolve (S fuel) key path t = Throw (CircularDependency (path ++ [key])) t.
Proof.
  intros H Hin. simpl. rewrite H.
  apply circular_check in Hin. now rewrite Hin.
Qed.

Lemma _resolve_hit fuel key path t config cached :
  reg_lookup key (_registry t) = Some config ->
  ~ In key path ->
  _resolved t !! key = Some cached ->
  _resolve (S fuel) key path t = Ok (r_value cached) t.
Proof.
  intros H Hin Hc. simpl. rewrite H.
  apply circular_check_false in Hin. now rewrite Hin, Hc.
Qed.

Lemma _resolve_factory fuel key path t config :
  reg_lookup key (_registry t) = Some config ->
  ~ In key path ->
  _resolved t !! key = None ->
  isConstant config = false ->
  _resolve (S fuel) key path t =
    mapM (fun dependency => _resolve fuel dependency (path ++ [key]))
         (dependencies config) t
    >>= invoke_factory key (value_of config)
    >>= cache_result key config.
Proof.
  intros H Hin Hc Hk. simpl. rewrite H.
  apply circular_check_false in Hin. now rewrite Hin, Hc, Hk.
Qed.

Lemma _resolve_constant fuel key path t config :
  reg_lookup key (_registry t) = Some config ->
  ~ In key path ->
  _resolved t !! key = None ->
  isConstant config = true ->
  _resolve (S fuel) key path t =
    cache_result key config
      (mkObj (next_obj t) false false, value_of config)
      (snd (alloc false false t)).
Proof.
  intros H Hin Hc Hk. simpl. rewrite H.
  apply circular_check_false in Hin. now rewrite Hin, Hc, Hk.
Qed.

Lemma reg_lookup_In key r config :
  reg_lookup key r = Some config -> In key (Object_keys r).
Proof.
  induction r as [|[k c] r IH]; simpl; [discriminate|].
  destruct (String.eqb k key) eqn:E.
  - apply String.eqb_eq in E. auto.
  - auto.
Qed.

Lemma registry_two_keys a b r ca cb :
  a <> b -> reg_lookup a r = Some ca -> reg_lookup b r = Some cb ->
  2 <= length r.
Proof.
  intros Hne Ha Hb.
  assert (Hl : length [a; b] <= length (Object_keys r)).
  { apply List.NoDup_incl_length.
    - repeat constructor; simpl; intuition congruence.
    - intros x [<-|[<-|[]]]; eapply reg_lookup_In; eauto. }
  unfold Object_keys in Hl. rewrite length_map in Hl. exact Hl.
Qed.

(** ** The recursion budget of [resolve] is never exhausted *)

Lemma mapM_total {A B} (Q : Tree -> Prop) (f : A -> Tree -> result B) xs :
  (forall x t, Q t -> f x t <> OutOfFuel /\ after (f x t) Q) ->
  forall t, Q t -> mapM f xs t <> OutOfFuel /\ after (mapM f xs t) Q.
Proof.
  intros Hf. induction xs as [|x xs IH]; intros t Ht; simpl.
  - split; [discriminate|auto].
  - destruct (Hf x t Ht) as [Hne Ha].
    destruct (f x t) as [y t1|e t1|]; simpl in *; try congruence.
    + destruct (IH t1 Ha) as [Hne' Ha'].
      destruct (mapM f xs t1) as [ys t2|e t2|]; simpl in *; try congruence.
      * split; [discriminate|auto].
      * split; [discriminate|auto].
    + split; [discriminate|auto].
Qed.

Lemma invoke_factory_total key v args t : invoke_factory key v args t <> OutOfFuel.
Proof.
  unfold invoke_factory. destruct v as [|[]| | |]; try discriminate.
  simpl. destruct (apply_fn _ _ _ _ _). discriminate.
Qed.

Lemma cache_result_total key config cv t : cache_result key config cv t <> OutOfFuel.
Proof. unfold cache_result. destruct (negb _); discriminate. Qed.

Lemma _resolve_total fuel : forall key path t,
  List.NoDup path ->
  incl path (Object_keys (_registry t)) ->
  length (_registry t) < fuel + length path ->
  _resolve fuel key path t <> OutOfFuel.
Proof.
  induction fuel as [|n IH]; intros key path t Hnd Hincl Hlen.
  - exfalso. pose proof (List.NoDup_incl_length Hnd Hincl) as Hl.
    unfold Object_keys in Hl. rewrite length_map in Hl. simpl in Hlen. lia.
  - destruct (reg_lookup key (_registry t)) as [config|] eqn:Hreg.
    2:{ rewrite _resolve_no_record by auto. apply resolve_without_record_total. }
    destruct (in_dec string_dec key path) as [Hin|Hin].
    { erewrite _resolve_circular by eauto. discriminate. }
    destruct (_resolved t !! key) as [cached|] eqn:Hc.
    { erewrite _resolve_hit by eauto. discriminate. }
    destruct (isConstant config) eqn:Hk.
    { erewrite _resolve_constant by eauto. apply cache_result_total. }
    erewrite _resolve_factory by eauto.
    destruct (mapM_total (fun t' => _registry t' = _registry t)
      (fun dependency => _resolve n dependency (path ++ [key]))
      (dependencies config)) with (t := t) as [Hne _]; auto.
    { intros x t' Ht'. split.
      - apply IH.
        + apply List.NoDup_app; repeat split; auto.
          * repeat constructor. simpl. tauto.
          * intros y Hy [<-|[]]. contradiction.
        + rewrite Ht'. intros y Hy. apply in_app_or in Hy.
          destruct Hy as [Hy|[<-|[]]]; auto. eapply reg_lookup_In; eauto.
        + rewrite Ht', length_app. simpl. lia.
      - pose proof (_resolve_extends n x (path ++ [key]) t') as He.
        destruct (_resolve n x (path ++ [key]) t'); simpl in *; auto;
          rewrite (ext_registry _ _ He); auto. }
    destruct (mapM _ (dependencies config) t) as [vs t1|e t1|]; simpl;
      try congruence; try discriminate.
    pose proof (invoke_factory_total key (value_of config) vs t1).
    destruct (invoke_factory key (value_of config) vs t1); simpl;
      try congruence; try discriminate.
    apply cache_result_total.
Qed.

(** [resolve] always returns or throws. *)
Lemma resolve_total key t : resolve key t <> OutOfFuel.
Proof.
  unfold resolve, resolve_fuel. apply _resolve_total.
  - constructor.
  - intros x [].
  - simpl. lia.
Qed.

(** ** Resolution errors *)

(** C5. A key without registration record is not always reported as
    unregistered.  When the key is a member name of [Object.prototype] (and
    has no cache entry) the read [registry[key]] yields the inherited member,
    which passes the test for [undefined]; the resolution then throws a
    TypeError on [dependencies.forEach] where the unregistered-dependency
    error is due: on a new container, [resolve("toString")] does. *)
Theorem C5_inherited_name_not_unregistered :
  reg_lookup "toString" (_registry empty_tree) = None /\
  resolve "toString" empty_tree
    = Throw (TypeError "dependencies.forEach") empty_tree /\
  (forall t key,
     prototype_member key = true ->
     reg_lookup key (_registry t) = None ->
     _resolved t !! key = None ->
     resolve key t = Throw (TypeError "dependencies.forEach") t).
Proof.
  split; [reflexivity|]. split; [reflexivity|].
  intros t key Hp Hreg Hc. unfold resolve, resolve_fuel.
  rewrite _resolve_no_record by exact Hreg.
  unfold resolve_without_record. rewrite Hp, Hc. cbn [negb app].
  unfold countBy. cbn [count_occ]. destruct (string_dec key key); [|congruence].
  cbn [Nat.ltb Nat.leb]. now rewrite andb_false_r.
Qed.

(** ** Singleton caching *)

Lemma isRegistered_record key t config :
  reg_lookup key (_registry t) = Some config -> isRegistered key t = true.
Proof. intros H. unfold isRegistered. now rewrite H. Qed.

Lemma isRegistered_cases key t :
  isRegistered key t = true ->
  (exists config, reg_lookup key (_registry t) = Some config) \/
  (reg_lookup key (_registry t) = None /\ prototype_member key = true).
Proof. unfold isRegistered. destruct (reg_lookup key (_registry t)); eauto. Qed.

(** For a key that is no member name of [Object.prototype], [isRegistered]
    answers whether the registry holds a record. *)
Lemma isRegistered_lookup key t :
  prototype_member key = false ->
  isRegistered key t = true <-> exists config, reg_lookup key (_registry t) = Some config.
Proof.
  intros Hp. unfold isRegistered. destruct (reg_lookup key (_registry t)).
  - split; eauto.
  - rewrite Hp. split; [discriminate|]. intros [c Hc]. discriminate.
Qed.

Lemma resolve_without_record_hit key path t cached :
  prototype_member key = true ->
  ~ In key path ->
  _resolved t !! key = Some cached ->
  resolve_without_record key (path ++ [key]) t = Ok (r_value cached) t.
Proof.
  intros Hp Hin Hc. unfold resolve_without_record. rewrite Hp, Hc. cbn [negb].
  apply circular_check_false in Hin. now rewrite Hin, andb_false_r.
Qed.

Lemma resolve_hit key t cached :
  isRegistered key t = true ->
  _resolved t !! key = Some cached ->
  resolve key t = Ok (r_value cached) t.
Proof.
  intros Hreg Hc. unfold resolve, resolve_fuel.
  apply isRegistered_cases in Hreg as [[config Hreg]|[Hreg Hp]].
  - eapply _resolve_hit; eauto.
  - rewrite _resolve_no_record by exact Hreg.
    apply (resolve_without_record_hit key []); auto.
Qed.

(** A successful resolution of a singleton leaves it in the cache with the
    value it returned. *)
Lemma _resolve_singleton_cached fuel key path t config v t1 :
  reg_lookup key (_registry t) = Some config ->
  isSingleton config = true ->
  _resolve fuel key path t = Ok v t1 ->
  exists r, _resolved t1 !! key = Some r /\ r_value r = v.
Proof.
  intros Hreg Hs Hres. destruct fuel as [|n]; [discriminate|].
  simpl in Hres. rewrite Hreg in Hres.
  destruct (1 <? countBy (path ++ [key]) key); [discriminate|].
  destruct (_resolved t !! key) as [cached|] eqn:Hc.
  - inversion Hres; subst. eauto.
  - apply bind_Ok_inv in Hres as (cv & t' & _ & Hres).
    unfold cache_result in Hres. rewrite Hs in Hres. simpl in Hres.
    inversion Hres; subst. eexists. split.
    + simpl. apply lookup_insert_eq.
    + reflexivity.
Qed.

(** C2. Once the resolution of a singleton key has succeeded, the cache holds
    its value; from then on, in every container in which the key is still
    registered and still holds that cache entry (it was neither destroyed nor
    re-registered), [resolve] returns that very value and leaves the container
    exactly as it was: no factory is invoked, no dependency is resolved.
    Resolutions of other keys, successful or not, keep the entry. *)
Theorem C2_singleton_cached (t : Tree) (key : string) (config : Config)
    (v : value) (t1 : Tree) :
  reg_lookup key (_registry t) = Some config ->
  isSingleton config = true ->
  resolve key t = Ok v t1 ->
  exists r,
    _resolved t1 !! key = Some r /\ r_value r = v /\
    isRegistered key t1 = true /\
    resolve key t1 = Ok v t1 /\
    (forall t2, isRegistered key t2 = true -> _resolved t2 !! key = Some r ->
        resolve key t2 = Ok v t2 /\
        forall other, after (resolve other t2) (fun t3 =>
          isRegistered key t3 = true /\ _resolved t3 !! key = Some r)).
Proof.
  intros Hreg Hs Hres.
  destruct (_resolve_singleton_cached _ _ _ _ _ _ _ Hreg Hs Hres) as (r & Hr & Hv).
  assert (Hreg1 : isRegistered key t1 = true).
  { pose proof (_resolve_extends (resolve_fuel t) key [] t) as He.
    unfold resolve in Hres. rewrite Hres in He. simpl in He.
    eapply isRegistered_record. rewrite (ext_registry _ _ He). eauto. }
  exists r. split; [auto|]. split; [auto|]. split; [auto|]. split.
  - rewrite <- Hv. now apply resolve_hit.
  - intros t2 Hreg2 Hr2. split.
    + rewrite <- Hv. now apply resolve_hit.
    + intros other.
      pose proof (_resolve_extends (resolve_fuel t2) other [] t2) as He.
      unfold resolve.
      destruct (_resolve (resolve_fuel t2) other [] t2); simpl in *; auto;
        (split; [unfold isRegistered in *; now rewrite (ext_registry _ _ He)
                | eapply lookup_weaken; [eassumption | apply (ext_resolved _ _ He)]]).
Qed.

(** ** Fresh instances, shared singletons *)

Lemma invoke_factory_VFun key f args t :
  exists t',
    invoke_factory key (VFun f) args t
    = Ok (mkObj (next_obj t) (fn_emit f) (fn_removeAllListeners f),
          factory_result f (mkObj (next_obj t) (fn_emit f) (fn_removeAllListeners f)) args) t' /\
    _registry t' = _registry t /\
    _resolved t' = _resolved t /\
    history t' = history t ++
      [EvApply key f (mkObj (next_obj t) (fn_emit f) (fn_removeAllListeners f)) args] /\
    next_obj t < next_obj t'.
Proof.
  unfold invoke_factory, apply_fn, factory_result. simpl.
  destruct (fn_return f); simpl; eexists; repeat split; simpl; eauto.
Qed.

Lemma mapM_Ok_inv {A B} (f : A -> Tree -> result B) x xs t ys t' :
  mapM f (x :: xs) t = Ok ys t' ->
  exists y t1 ys', f x t = Ok y t1 /\ mapM f xs t1 = Ok ys' t' /\ ys = y :: ys'.
Proof.
  simpl. intros H. apply bind_Ok_inv in H as (y & t1 & Hy & H).
  apply bind_Ok_inv in H as (ys' & t2 & Hys & H). inversion H; subst. eauto 8.
Qed.

Lemma mapM_resolve_extends n p deps t :
  after (mapM (fun d => _resolve n d p) deps t) (extends t).
Proof.
  apply mapM_state.
  - apply extends_refl.
  - apply extends_trans.
  - intros x t' _. apply _resolve_extends.
Qed.

Lemma mapM_resolve_nth n p : forall deps t args t' i d,
  mapM (fun d => _resolve n d p) deps t = Ok args t' ->
  nth_error deps i = Some d ->
  exists ta tb v,
    nth_error args i = Some v /\ _resolve n d p ta = Ok v tb /\
    extends t ta /\ extends tb t'.
Proof.
  induction deps as [|x deps IH]; intros t args t' i d Hm Hi.
  - destruct i; discriminate.
  - apply mapM_Ok_inv in Hm as (y & t1 & ys & Hy & Hm & ->).
    destruct i as [|i]; simpl in Hi.
    + inversion Hi; subst. exists t, t1, y.
      split; [reflexivity|]. split; [assumption|]. split.
      * apply extends_refl.
      * pose proof (mapM_resolve_extends n p deps t1) as He.
        now rewrite Hm in He.
    + destruct (IH _ _ _ _ _ Hm Hi) as (ta & tb & v & Hv & Hr & Ha & Hb).
      exists ta, tb, v.
      split; [assumption|]. split; [assumption|]. split; [|assumption].
      eapply extends_trans; [|exact Ha].
      pose proof (_resolve_extends n x p t) as He. now rewrite Hy in He.
Qed.

(** A resolution that succeeded succeeds again in any container with the same
    registry whose cache covers the keys cached by the first run. *)
Lemma _resolve_again n : forall key path s v s' u,
  _resolve n key path s = Ok v s' ->
  _registry u = _registry s ->
  (forall k, is_Some (_resolved s' !! k) -> is_Some (_resolved u !! k)) ->
  exists v' u', _resolve n key path u = Ok v' u'.
Proof.
  induction n as [|n IH]; intros key path s v s' u Hres Hreg Hdom; [discriminate|].
  pose proof (_resolve_extends (S n) key path s) as Hext. rewrite Hres in Hext.
  simpl in Hext.
  destruct (reg_lookup key (_registry s)) as [config|] eqn:Hk.
  2:{ rewrite _resolve_no_record in Hres by auto.
      rewrite _resolve_no_record by (rewrite Hreg; auto).
      unfold resolve_without_record in *.
      destruct (negb (prototype_member key)); [discriminate|].
      destruct (negb (String.eqb key "__proto__") && (1 <? countBy (path ++ [key]) key));
        [discriminate|].
      destruct (_resolved s !! key) as [cached|] eqn:Hcs; [|discriminate].
      inversion Hres; subst v s'.
      destruct (Hdom key) as [r Hr]; [eauto|]. rewrite Hr. eauto. }
  destruct (in_dec string_dec key path) as [Hin|Hin].
  { erewrite _resolve_circular in Hres by eauto. discriminate. }
  destruct (_resolved u !! key) as [cached|] eqn:Hcu.
  { erewrite _resolve_hit by (rewrite ?Hreg; eauto). eauto. }
  assert (Hcs' : _resolved s' !! key = None).
  { destruct (_resolved s' !! key) eqn:E; auto.
    destruct (Hdom key) as [x Hx]; [eauto|congruence]. }
  assert (Hcs : _resolved s !! key = None).
  { destruct (_resolved s !! key) eqn:E; auto.
    pose proof (lookup_weaken _ _ _ _ E (ext_resolved _ _ Hext)). congruence. }
  destruct (isConstant config) eqn:Hc.
  { erewrite _resolve_constant by (rewrite ?Hreg; eauto).
    unfold cache_result. destruct (negb _); eauto. }
  erewrite _resolve_factory in Hres by eauto.
  erewrite _resolve_factory by (rewrite ?Hreg; eauto).
  apply bind_Ok_inv in Hres as (cv & s2 & Hres & Hcr).
  apply bind_Ok_inv in Hres as (args & sm & Hm & Hinv).
  assert (Hsm : forall k, is_Some (_resolved sm !! k) -> is_Some (_resolved u !! k)).
  { intros k [x Hx]. apply Hdom.
    pose proof (invoke_factory_extends key (value_of config) args sm) as H1.
    rewrite Hinv in H1. simpl in H1.
    pose proof (lookup_weaken _ _ _ _ Hx (ext_resolved _ _ H1)) as Hx2.
    assert (He2 : extends s2 s').
    { unfold cache_result in Hcr. destruct (negb (isSingleton config));
        inversion Hcr; subst; [apply extends_refl|].
      constructor; simpl; auto.
      - apply map_subseteq_spec. intros j y Hj.
        destruct (decide (key = j)) as [->|Hne].
        + simpl in Hcs'. rewrite lookup_insert_eq in Hcs'. discriminate.
        + now rewrite lookup_insert_ne.
      - exists []. now rewrite app_nil_r.
      - intros j y. simpl in Hcs'. rewrite lookup_insert_eq in Hcs'. discriminate. }
    exists x. eapply lookup_weaken; [exact Hx2|apply (ext_resolved _ _ He2)]. }
  assert (Hgen : forall deps s0 u0 args0 sm0,
    mapM (fun dependency => _resolve n dependency (path ++ [key])) deps s0
      = Ok args0 sm0 ->
    _registry u0 = _registry s0 ->
    (forall k, is_Some (_resolved sm0 !! k) -> is_Some (_resolved u0 !! k)) ->
    exists args' um,
      mapM (fun dependency => _resolve n dependency (path ++ [key])) deps u0
        = Ok args' um).
  { induction deps as [|d deps IHd]; intros s0 u0 args0 sm0 Hm0 Hreg0 Hsm0.
    - simpl. eauto.
    - apply mapM_Ok_inv in Hm0 as (y & s1 & ys & Hy & Hm0 & ->).
      pose proof (mapM_resolve_extends n (path ++ [key]) deps s1) as He1.
      rewrite Hm0 in He1. simpl in He1.
      destruct (IH d (path ++ [key]) s0 y s1 u0 Hy Hreg0) as (y' & u1 & Hy').
      { intros k [x Hx]. apply Hsm0. exists x.
        eapply lookup_weaken; [exact Hx|apply (ext_resolved _ _ He1)]. }
      pose proof (_resolve_extends n d (path ++ [key]) u0) as Heu.
      rewrite Hy' in Heu. simpl in Heu.
      pose proof (_resolve_extends n d (path ++ [key]) s0) as Hes.
      rewrite Hy in Hes. simpl in Hes.
      destruct (IHd s1 u1 ys sm0 Hm0) as (ys' & um & Hys').
      { rewrite (ext_registry _ _ Heu), (ext_registry _ _ Hes). exact Hreg0. }
      { intros k Hk'. destruct (Hsm0 k Hk') as [x Hx]. exists x.
        eapply lookup_weaken; [exact Hx|apply (ext_resolved _ _ Heu)]. }
      simpl. rewrite Hy'. simpl. rewrite Hys'. simpl. eauto. }
  destruct (Hgen _ _ _ _ _ Hm Hreg Hsm) as (args' & um & Hmu).
  rewrite Hmu. simpl.
  destruct (value_of config) as [|[]| | |] eqn:Hval;
    try (simpl in Hinv; discriminate).
  destruct (invoke_factory_VFun key f args' um) as (t' & Hi & _).
  rewrite Hi. simpl. unfold cache_result. destruct (negb _); eauto.
Qed.

(** ** A resolution never calls the factory of one of its requesters *)

Lemma quiet_on_refl path t : quiet_on path t t.
Proof. exists []. split; [now rewrite app_nil_r|]. intros k f c a []. Qed.

Lemma quiet_on_trans path a b c :
  quiet_on path a b -> quiet_on path b c -> quiet_on path a c.
Proof.
  intros (e1 & H1 & Q1) (e2 & H2 & Q2). exists (e1 ++ e2). split.
  - rewrite H2, H1. now rewrite <- app_assoc.
  - intros k f x y Hin. apply in_app_or in Hin as [Hin|Hin]; eauto.
Qed.

Lemma quiet_on_shorter path key t t' :
  quiet_on (path ++ [key]) t t' -> quiet_on path t t'.
Proof.
  intros (evs & H & Q). exists evs. split; [exact H|].
  intros k f c a Hin Hk. apply (Q k f c a Hin). apply in_or_app. auto.
Qed.

Lemma same_history_quiet path t t' : history t' = history t -> quiet_on path t t'.
Proof.
  intros H. exists []. split; [now rewrite app_nil_r|]. intros k f c a [].
Qed.

Lemma cache_result_history key config cv t :
  after (cache_result key config cv t) (fun t' => history t' = history t).
Proof. unfold cache_result. destruct (negb _); reflexivity. Qed.

Lemma invoke_factory_quiet key path v args t :
  ~ In key path ->
  after (invoke_factory key v args t) (quiet_on path t).
Proof.
  intros Hin. destruct v as [|[]| | |]; try apply quiet_on_refl.
  destruct (invoke_factory_VFun key f args t) as (t' & Hi & _ & _ & Hh & _).
  rewrite Hi. simpl. eexists. split; [exact Hh|].
  intros k f' c a [Heq|[]]. inversion Heq; subst. exact Hin.
Qed.

Lemma _resolve_quiet fuel : forall key path t,
  after (_resolve fuel key path t) (quiet_on path t).
Proof.
  induction fuel as [|n IH]; intros key path t; [exact I|].
  destruct (reg_lookup key (_registry t)) as [config|] eqn:Hreg.
  2:{ rewrite _resolve_no_record by auto.
      apply resolve_without_record_after, quiet_on_refl. }
  destruct (in_dec string_dec key path) as [Hin|Hin].
  { erewrite _resolve_circular by eauto. apply quiet_on_refl. }
  destruct (_resolved t !! key) as [cached|] eqn:Hc.
  { erewrite _resolve_hit by eauto. apply quiet_on_refl. }
  destruct (isConstant config) eqn:Hk.
  { erewrite _resolve_constant by eauto.
    pose proof (cache_result_history key config
      (mkObj (next_obj t) false false, value_of config)
      (snd (alloc false false t))) as Hh.
    destruct (cache_result _ _ _ _); simpl in *; auto;
      now apply same_history_quiet. }
  erewrite _resolve_factory by eauto.
  pose proof (mapM_state (quiet_on (path ++ [key]))
    (fun dependency => _resolve n dependency (path ++ [key]))
    (dependencies config) (quiet_on_refl _) (quiet_on_trans _)
    (fun x t' _ => IH x (path ++ [key]) t') t) as Hm.
  destruct (mapM _ (dependencies config) t) as [vs t1|e t1|]; cbn [bind after] in *;
    [|eapply quiet_on_shorter; exact Hm|exact I].
  apply quiet_on_shorter in Hm.
  pose proof (invoke_factory_quiet key path (value_of config) vs t1 Hin) as Hi.
  destruct (invoke_factory key (value_of config) vs t1) as [cv t2|e t2|];
    cbn [bind after] in *; eauto using quiet_on_trans.
  pose proof (cache_result_history key config cv t2) as Hh.
  destruct (cache_result key config cv t2); cbn [after] in *; auto;
    (eapply quiet_on_trans; [exact Hm|]);
    (eapply quiet_on_trans; [exact Hi|]); now apply same_history_quiet.
Qed.

Lemma mapM_resolve_quiet n p deps t :
  after (mapM (fun d => _resolve n d p) deps t) (quiet_on p t).
Proof.
  apply mapM_state.
  - apply quiet_on_refl.
  - apply quiet_on_trans.
  - intros x t' _. apply _resolve_quiet.
Qed.

Lemma _resolve_factory_Ok fuel key path t config f v t1 :
  reg_lookup key (_registry t) = Some config ->
  ~ In key path ->
  _resolved t !! key = None ->
  isConstant config = false ->
  isSingleton config = false ->
  value_of config = VFun f ->
  _resolve fuel key path t = Ok v t1 ->
  exists n args tm,
    fuel = S n /\
    mapM (fun d => _resolve n d (path ++ [key])) (dependencies config) t
      = Ok args tm /\
    v = factory_result f
          (mkObj (next_obj tm) (fn_emit f) (fn_removeAllListeners f)) args /\
    _registry t1 = _registry tm /\
    _resolved t1 = _resolved tm /\
    history t1 = history tm ++
      [EvApply key f (mkObj (next_obj tm) (fn_emit f) (fn_removeAllListeners f)) args] /\
    next_obj tm < next_obj t1.
Proof.
  intros Hreg Hin Hc Hk Hs Hval Hres.
  destruct fuel as [|n]; [discriminate|].
  erewrite _resolve_factory in Hres by eauto.
  apply bind_Ok_inv in Hres as (cv & t2 & Hres & Hcr).
  apply bind_Ok_inv in Hres as (args & tm & Hm & Hinv).
  rewrite Hval in Hinv.
  destruct (invoke_factory_VFun key f args tm) as (t' & Hi & H1 & H2 & H3 & H4).
  rewrite Hi in Hinv. inversion Hinv; subst cv t2.
  unfold cache_result in Hcr. rewrite Hs in Hcr. simpl in Hcr.
  inversion Hcr; subst v t1.
  exists n, args, tm. repeat split; auto.
Qed.

Lemma factory_result_distinct f c1 c2 args1 args2 :
  returns_own_instance f = true ->
  obj_id c1 <> obj_id c2 ->
  factory_result f c1 args1 <> factory_result f c2 args2.
Proof.
  unfold returns_own_instance, factory_result.
  destruct (fn_return f); try discriminate; intros _ Hne Heq;
    inversion Heq; subst; auto.
Qed.

(** C1, amended. Let [A] be a non-singleton factory (hence without cache
    entry) whose [i]-th dependency is the singleton [B], and let a first
    [resolve(A)] succeed.  Then a second [resolve(A)] succeeds too; each call
    invokes [A]'s factory exactly once, as its last step, on a context
    allocated during that call, so the two contexts are distinct; both calls
    pass the same [i]-th argument, the value cached for [B]; and the two
    values returned are distinct whenever the factory returns an object of its
    own making (its context or a new object). *)
Theorem C1_fresh_instances_share_singleton (t : Tree) (A B : string)
    (cfgA cfgB : Config) (fA : JsFunction) (i : nat) (v1 : value) (t1 : Tree) :
  reg_lookup A (_registry t) = Some cfgA ->
  isConstant cfgA = false ->
  isSingleton cfgA = false ->
  value_of cfgA = VFun fA ->
  nth_error (dependencies cfgA) i = Some B ->
  reg_lookup B (_registry t) = Some cfgB ->
  isSingleton cfgB = true ->
  _resolved t !! A = None ->
  resolve A t = Ok v1 t1 ->
  exists v2 t2 c1 c2 args1 args2 evs1 evs2 b,
    resolve A t1 = Ok v2 t2 /\
    history t1 = history t ++ evs1 ++ [EvApply A fA c1 args1] /\
    history t2 = history t1 ++ evs2 ++ [EvApply A fA c2 args2] /\
    (forall f c a, ~ In (EvApply A f c a) (evs1 ++ evs2)) /\
    next_obj t <= obj_id c1 < next_obj t1 /\
    next_obj t1 <= obj_id c2 < next_obj t2 /\
    obj_id c1 <> obj_id c2 /\
    _resolved t1 !! B = Some b /\
    _resolved t2 !! B = Some b /\
    nth_error args1 i = Some (r_value b) /\
    nth_error args2 i = Some (r_value b) /\
    v1 = factory_result fA c1 args1 /\
    v2 = factory_result fA c2 args2 /\
    (returns_own_instance fA = true -> v1 <> v2).
Proof.
  intros HA HkA HsA HvA Hdep HB HsB HcA Hres1.
  assert (HAB : A <> B) by (intros ->; congruence).
  (* the second call succeeds *)
  pose proof (_resolve_extends (resolve_fuel t) A [] t) as Hext1.
  unfold resolve in Hres1. rewrite Hres1 in Hext1. simpl in Hext1.
  assert (Hfuel : resolve_fuel t1 = resolve_fuel t).
  { unfold resolve_fuel. now rewrite (ext_registry _ _ Hext1). }
  destruct (_resolve_again _ _ _ _ _ _ t1 Hres1 (ext_registry _ _ Hext1))
    as (v2 & t2 & Hres2); [auto|].
  (* the first call *)
  destruct (_resolve_factory_Ok _ _ _ _ _ _ _ _ HA (@in_nil _ A) HcA HkA HsA HvA Hres1)
    as (n & args1 & tm1 & Hn & Hm1 & Hv1 & Hr1 & Hc1 & Hh1 & Hn1).
  pose proof (mapM_resolve_extends n ([] ++ [A]) (dependencies cfgA) t) as Hem1.
  rewrite Hm1 in Hem1. simpl in Hem1.
  destruct (mapM_resolve_nth _ _ _ _ _ _ _ _ Hm1 Hdep)
    as (ta & tb & vb & Hvb & Hrb & Hta & Htb).
  destruct (_resolve_singleton_cached n B ([] ++ [A]) ta cfgB vb tb)
    as (b & Hb & Hbv); auto.
  { now rewrite (ext_registry _ _ Hta). }
  assert (Hb1 : _resolved t1 !! B = Some b).
  { rewrite Hc1. eapply lookup_weaken; [exact Hb|apply (ext_resolved _ _ Htb)]. }
  (* the second call *)
  assert (HA1 : reg_lookup A (_registry t1) = Some cfgA)
    by now rewrite (ext_registry _ _ Hext1).
  assert (HcA1 : _resolved t1 !! A = None).
  { destruct (_resolved t1 !! A) as [r|] eqn:E; auto.
    destruct (ext_new _ _ Hext1 A r E) as [H|(cfg & Hcfg & Hs)]; congruence. }
  rewrite <- Hfuel in Hres2.
  destruct (_resolve_factory_Ok _ _ _ _ _ _ _ _ HA1 (@in_nil _ A) HcA1 HkA HsA HvA Hres2)
    as (n' & args2 & tm2 & Hn' & Hm2 & Hv2 & Hr2 & Hc2 & Hh2 & Hn2).
  pose proof (mapM_resolve_extends n' ([] ++ [A]) (dependencies cfgA) t1) as Hem2.
  rewrite Hm2 in Hem2. simpl in Hem2.
  destruct (mapM_resolve_nth _ _ _ _ _ _ _ _ Hm2 Hdep)
    as (ta' & tb' & vb' & Hvb' & Hrb' & Hta' & Htb').
  assert (Hba : _resolved ta' !! B = Some b).
  { eapply lookup_weaken; [exact Hb1|apply (ext_resolved _ _ Hta')]. }
  assert (Hvb'' : vb' = r_value b /\ tb' = ta').
  { destruct n' as [|m]; [discriminate|].
    erewrite _resolve_hit in Hrb'; eauto.
    - inversion Hrb'; auto.
    - rewrite (ext_registry _ _ Hta'), (ext_registry _ _ Hext1). exact HB.
    - simpl. intuition congruence. }
  destruct Hvb'' as [-> ->].
  pose proof (mapM_resolve_quiet n ([] ++ [A]) (dependencies cfgA) t) as Hq1.
  rewrite Hm1 in Hq1. destruct Hq1 as (evs1 & He1 & Hq1).
  pose proof (mapM_resolve_quiet n' ([] ++ [A]) (dependencies cfgA) t1) as Hq2.
  rewrite Hm2 in Hq2. destruct Hq2 as (evs2 & He2 & Hq2).
  pose proof (ext_next _ _ Hem1) as Hx1. pose proof (ext_next _ _ Hem2) as Hx2.
  exists v2, t2,
    (mkObj (next_obj tm1) (fn_emit fA) (fn_removeAllListeners fA)),
    (mkObj (next_obj tm2) (fn_emit fA) (fn_removeAllListeners fA)),
    args1, args2, evs1, evs2, b.
  unfold resolve. cbn [obj_id].
  split; [exact Hres2|].
  split; [rewrite Hh1, He1; now rewrite <- app_assoc|].
  split; [rewrite Hh2, He2; now rewrite <- app_assoc|].
  split.
  { intros f c a Hin. apply in_app_or in Hin as [Hin|Hin];
      [apply (Hq1 _ _ _ _ Hin)|apply (Hq2 _ _ _ _ Hin)]; simpl; auto. }
  split; [lia|]. split; [lia|]. split; [lia|].
  split; [exact Hb1|].
  split; [rewrite Hc2; eapply lookup_weaken; [exact Hba|apply (ext_resolved _ _ Htb')]|].
  split; [now rewrite Hvb, Hbv|].
  split; [exact Hvb'|].
  split; [exact Hv1|]. split; [exact Hv2|].
  intros Hown. rewrite Hv1, Hv2.
  apply factory_result_distinct; auto. simpl. lia.
Qed.

(** ** Teardown keeps the registry *)

Lemma shrinks_refl t : shrinks t t.
Proof. constructor; auto. Qed.

Lemma shrinks_trans a b c : shrinks a b -> shrinks b c -> shrinks a c.
Proof.
  intros [R1 C1 N1] [R2 C2 N2]. constructor; try congruence.
  etransitivity; eauto.
Qed.

Lemma _destroy_shrinks fuel : forall key t, after (_destroy fuel key t) (shrinks t).
Proof.
  induction fuel as [|n IH]; intros key t; simpl; [exact I|].
  pose proof (forEach_state shrinks (_destroy n) (dependsOnKey key t)
    shrinks_refl shrinks_trans (fun x t' _ => IH x t') t) as Hf.
  destruct (_resolved t !! key) as [resolved|].
  2:{ destruct (prototype_member key); [|apply shrinks_refl].
      destruct (forEach (_destroy n) (dependsOnKey key t) t) as [[] t1|e t1|];
        simpl in *; auto. }
  destruct (forEach (_destroy n) (dependsOnKey key t) t) as [[] t1|e t1|];
    simpl in *; auto.
  unfold emit_destroy. destruct (obj_emit (context resolved)); simpl; auto.
  unfold removeAllListeners_destroy.
  destruct (obj_removeAllListeners (context resolved)); simpl.
  - destruct Hf as [R C N]. constructor; simpl; auto.
    etransitivity; [apply delete_subseteq|exact C].
  - destruct Hf as [R C N]. constructor; simpl; auto.
Qed.

Lemma destroy_shrinks key t : after (destroy key t) (shrinks t).
Proof.
  unfold destroy.
  assert (Hall : after (forEach (_destroy (destroy_fuel t))
                          (Object_keys (_registry t)) t) (shrinks t)).
  { apply forEach_state.
    - apply shrinks_refl.
    - apply shrinks_trans.
    - intros x t' _. apply _destroy_shrinks. }
  destruct key as [k|]; auto.
  destruct (truthy_key k); auto. apply _destroy_shrinks.
Qed.

(** [_destroy] on a key without own cache entry: [this._resolved[key]] is
    [undefined], or an inherited member without [context]. *)
Lemma _destroy_absent fuel key t :
  _resolved t !! key = None ->
  _destroy (S fuel) key t =
    if prototype_member key then
      forEach (_destroy fuel) (dependsOnKey key t) t >>= fun _ t1 =>
      Throw (TypeError "context.emit") t1
    else Ok tt t.
Proof. intros H. simpl. now rewrite H. Qed.

(** [_destroy] on a key without cache entry that is no member name of
    [Object.prototype] returns at once. *)
Lemma _destroy_unresolved fuel key t :
  prototype_member key = false ->
  _resolved t !! key = None -> _destroy (S fuel) key t = Ok tt t.
Proof. intros Hp H. rewrite _destroy_absent by exact H. now rewrite Hp. Qed.

(** [_destroy] on a member name of [Object.prototype] without cache entry
    never returns. *)
Lemma _destroy_inherited fuel key t t' :
  prototype_member key = true ->
  _resolved t !! key = None ->
  _destroy fuel key t <> Ok tt t'.
Proof.
  intros Hp H. destruct fuel as [|n]; [discriminate|].
  rewrite _destroy_absent by exact H. rewrite Hp.
  destruct (forEach (_destroy n) (dependsOnKey key t) t); discriminate.
Qed.

(** [destroy(key)] with such a key that is not cached changes nothing. *)
Lemma destroy_unresolved_noop key t :
  key <> "" -> prototype_member key = false ->
  _resolved t !! key = None -> destroy (Some key) t = Ok tt t.
Proof.
  intros Hne Hp Hc. unfold destroy, destroy_fuel.
  assert (Ht : truthy_key key = true).
  { unfold truthy_key. apply negb_true_iff. now apply String.eqb_neq. }
  rewrite Ht. now apply _destroy_unresolved.
Qed.

Lemma _destroy_Ok_gone fuel key t t' :
  _destroy fuel key t = Ok tt t' -> _resolved t' !! key = None.
Proof.
  destruct fuel as [|n]; [discriminate|]. simpl.
  destruct (_resolved t !! key) as [resolved|] eqn:E.
  - intros H. apply bind_Ok_inv in H as ([] & t1 & _ & H).
    apply bind_Ok_inv in H as ([] & t2 & _ & H).
    apply bind_Ok_inv in H as ([] & t3 & _ & H).
    inversion H; subst. simpl. apply lookup_delete_eq.
  - destruct (prototype_member key).
    + intros H. apply bind_Ok_inv in H as ([] & t1 & _ & H). discriminate.
    + intros H. inversion H; subst. exact E.
Qed.

Lemma shrinks_gone t t' key :
  shrinks t t' -> _resolved t !! key = None -> _resolved t' !! key = None.
Proof.
  intros [_ C _] H. destruct (_resolved t' !! key) eqn:E; auto.
  pose proof (lookup_weaken _ _ _ _ E C). congruence.
Qed.

Lemma forEach_destroy_gone fuel keys : forall t t' key,
  In key keys ->
  forEach (_destroy fuel) keys t = Ok tt t' ->
  _resolved t' !! key = None.
Proof.
  induction keys as [|k keys IH]; intros t t' key Hin H; [destruct Hin|].
  simpl in H. apply bind_Ok_inv in H as ([] & t1 & Hk & H).
  destruct (in_dec string_dec key keys) as [Hin'|Hin'].
  - eapply IH; eauto.
  - destruct Hin as [->|Hin]; [|contradiction].
    apply _destroy_Ok_gone in Hk.
    pose proof (forEach_state shrinks (_destroy fuel) keys
      shrinks_refl shrinks_trans (fun x t0 _ => _destroy_shrinks fuel x t0) t1) as Hs.
    rewrite H in Hs. eapply shrinks_gone; eauto.
Qed.

Lemma destroy_Ok_gone key t t' :
  isRegistered key t = true ->
  destroy (Some key) t = Ok tt t' ->
  _resolved t' !! key = None.
Proof.
  intros Hreg. unfold destroy. destruct (truthy_key key) eqn:Hk.
  - apply _destroy_Ok_gone.
  - unfold truthy_key in Hk. apply negb_false_iff, String.eqb_eq in Hk. subst key.
    apply isRegistered_lookup in Hreg as [config Hreg]; [|reflexivity].
    apply forEach_destroy_gone. eapply reg_lookup_In; eauto.
Qed.

(** ** The registry *)

Lemma reg_lookup_app key r r' :
  reg_lookup key (r ++ r') =
    match reg_lookup key r with
    | Some c => Some c
    | None => reg_lookup key r'
    end.
Proof.
  induction r as [|[k c] r IH]; [reflexivity|]. cbn [app reg_lookup].
  destruct (String.eqb k key); auto.
Qed.

Lemma reg_lookup_replace key key' c r :
  reg_lookup key' (reg_replace key c r) =
    if String.eqb key key' then
      match reg_lookup key r with Some _ => Some c | None => None end
    else reg_lookup key' r.
Proof.
  induction r as [|[k c'] r IH]; cbn [reg_replace reg_lookup].
  - destruct (String.eqb key key'); reflexivity.
  - destruct (String.eqb k key) eqn:E; cbn [reg_lookup].
    + apply String.eqb_eq in E. subst k. destruct (String.eqb key key'); reflexivity.
    + rewrite IH. destruct (String.eqb key key') eqn:E'.
      * apply String.eqb_eq in E'. subst key'. now rewrite E.
      * reflexivity.
Qed.

Lemma reg_lookup_insert_index n key key' c r :
  reg_lookup key r = None ->
  reg_lookup key' (reg_insert_index n key c r) =
    if String.eqb key key' then Some c else reg_lookup key' r.
Proof.
  induction r as [|[k c'] r IH]; cbn [reg_insert_index reg_lookup]; intros Hk.
  - destruct (String.eqb key key'); reflexivity.
  - destruct (String.eqb k key) eqn:Ek; [discriminate|]. specialize (IH Hk).
    destruct (String.eqb key key') eqn:E'.
    + apply String.eqb_eq in E'. subst key'.
      destruct (array_index k) as [m|]; [destruct (m <? n)%N|]; cbn [reg_lookup];
        rewrite ?Ek, ?IH, ?String.eqb_refl; reflexivity.
    + destruct (array_index k) as [m|]; [destruct (m <? n)%N|]; cbn [reg_lookup];
        rewrite ?IH, ?E'; reflexivity.
Qed.

Lemma reg_lookup_set_eq key c r : reg_lookup key (reg_set key c r) = Some c.
Proof.
  unfold reg_set. destruct (reg_lookup key r) as [c0|] eqn:E.
  - now rewrite reg_lookup_replace, String.eqb_refl, E.
  - destruct (array_index key) as [n|].
    + now rewrite reg_lookup_insert_index, String.eqb_refl.
    + rewrite reg_lookup_app, E. cbn [reg_lookup]. now rewrite String.eqb_refl.
Qed.

Lemma reg_lookup_set_ne key key' c r :
  key <> key' -> reg_lookup key' (reg_set key c r) = reg_lookup key' r.
Proof.
  intros Hne. apply String.eqb_neq in Hne. unfold reg_set.
  destruct (reg_lookup key r) as [c0|] eqn:E.
  - now rewrite reg_lookup_replace, Hne.
  - destruct (array_index key) as [n|].
    + now rewrite reg_lookup_insert_index, Hne.
    + rewrite reg_lookup_app. cbn [reg_lookup]. rewrite Hne.
      now destruct (reg_lookup key' r).
Qed.

Lemma state_after_registry {A} (r : result A) t :
  after r (fun t' => _registry t' = _registry t) ->
  _registry (state_after r t) = _registry t.
Proof. destruct r; simpl; auto. Qed.

Lemma overwrite_shrinks key t : after (overwrite key t) (shrinks t).
Proof.
  unfold overwrite. destruct (isRegistered key t).
  - apply destroy_shrinks.
  - apply shrinks_refl.
Qed.

Lemma declared_dependencies_state key val constant t :
  after (declared_dependencies key val constant t) (fun t' => t' = t).
Proof.
  unfold declared_dependencies, _findDependencies.
  destruct (negb constant); [|reflexivity].
  destruct val; try reflexivity. destruct (fn_argDecl f); reflexivity.
Qed.

Lemma aggregate_state aggregateOn t :
  after (aggregate aggregateOn t) (fun t' => t' = t).
Proof.
  unfold aggregate, Array_forEach.
  destruct (truthy aggregateOn); reflexivity.
Qed.

(** [register] either leaves the registry as it is or writes the record of
    its own key. *)
Lemma register_registry key val opts t :
  after (register key val opts t) (fun t' =>
    _registry t' = _registry t \/
    exists c, _registry t' = reg_set key c (_registry t)).
Proof.
  assert (Hstages : forall agg c s,
    after (overwrite key t >>= fun _ t1 =>
           declared_dependencies key val c t1 >>= fun deps t2 =>
           aggregate agg (set_registry key (mkConfig deps c s val) t2))
      (fun t' => _registry t' = _registry t \/
                 exists c, _registry t' = reg_set key c (_registry t))).
  { intros agg c s.
    pose proof (overwrite_shrinks key t) as Ho.
    destruct (overwrite key t) as [[] t1|e t1|]; cbn [bind after] in *;
      [|left; apply (shr_registry _ _ Ho)|exact I].
    pose proof (declared_dependencies_state key val c t1) as Hd.
    destruct (declared_dependencies key val c t1) as [deps t2|e t2|];
      cbn [bind after] in *; subst;
      [|left; apply (shr_registry _ _ Ho)|exact I].
    pose proof (aggregate_state agg (set_registry key (mkConfig deps c s val) t1)) as Ha.
    destruct (aggregate agg _) as [[] t3|e t3|]; cbn [after] in *; subst;
      try exact I; right; eexists; simpl; now rewrite (shr_registry _ _ Ho). }
  unfold register. destruct opts; [apply Hstages|left; reflexivity|apply Hstages].
Qed.

(** C9. [isRegistered(key)] does not answer whether the registry holds a
    record for [key].  It reads [registry[key]] through [Object.prototype] and
    so answers [true] for each member name of [Object.prototype], in every
    container, although no record exists: on a new container,
    [isRegistered("constructor")] is [true]. *)
Theorem C9_isRegistered_inherited_name :
  reg_lookup "constructor" (_registry empty_tree) = None /\
  isRegistered "constructor" empty_tree = true /\
  (forall t key, prototype_member key = true -> isRegistered key t = true).
Proof.
  split; [reflexivity|]. split; [reflexivity|].
  intros t key Hp. unfold isRegistered.
  destruct (reg_lookup key (_registry t)); auto.
Qed.

(** ** Aggregation *)

(** No registration with a truthy [aggregateOn] returns: [forEach] is handed
    the array in place of the callback. *)
Lemma register_aggregateOn_never_returns key val agg c s t t' :
  truthy agg = true ->
  register key val (OptsObject agg c s) t <> Ok tt t'.
Proof.
  intros Hagg. unfold register.
  cbn [opt_aggregateOn opt_constant opt_singleton].
  destruct (overwrite key t) as [[] t1|e t1|]; cbn [bind]; try discriminate.
  destruct (declared_dependencies key val (truthy c) t1) as [deps t2|e t2|];
    cbn [bind]; try discriminate.
  unfold aggregate, Array_forEach. rewrite Hagg. discriminate.
Qed.

(** C3, on the code. Registering ["a"] and then ["b"] with
    [aggregateOn: "agg"] in a new container: each call installs the record of
    its own key and then throws a TypeError from [forEach]; no record is
    synthesized for ["agg"], and resolving ["agg"] throws the
    unregistered-dependency error instead of returning a roll-up. *)
Theorem C3_aggregateOn_throws :
  register "a" (VFun NeedsNothing) aggregate_opts empty_tree
    = Throw (TypeError "callbackfn is not a function") aggregate_tree_a /\
  isRegistered "a" aggregate_tree_a = true /\
  isRegistered "agg" aggregate_tree_a = false /\
  register "b" (VFun NeedsNothing) aggregate_opts aggregate_tree_a
    = Throw (TypeError "callbackfn is not a function") aggregate_tree_ab /\
  isRegistered "b" aggregate_tree_ab = true /\
  isRegistered "agg" aggregate_tree_ab = false /\
  resolve "agg" aggregate_tree_ab
    = Throw (UnregisteredDependency "agg" ["agg"]) aggregate_tree_ab.
Proof. repeat split; vm_compute; reflexivity. Qed.

(** ** Teardown of resolved keys *)

(** C7, on the code. A constant registered as a singleton and resolved sits in
    the cache with the plain object of the resolver as context;
    [destroy("c")] then throws a TypeError at [context.emit] and leaves the
    entry in the cache. *)
Theorem C7_destroy_throws_on_resolved_constant :
  reachable constant_tree /\
  resolve "c" (empty_tree |> register "c" (VPrim (PNum 1)) constant_singleton_opts)
    = Ok (VPrim (PNum 1)) constant_tree /\
  _resolved constant_tree !! "c"
    = Some (mkResolved (mkObj 0 false false) (VPrim (PNum 1))) /\
  destroy (Some "c") constant_tree = Throw (TypeError "context.emit") constant_tree.
Proof.
  split; [unfold constant_tree; reach|].
  repeat split; vm_compute; reflexivity.
Qed.

(** C6, on the code. [K] and its dependent [D] are singletons built from plain
    functions and both are resolved; [destroy("K")] reaches [D] first, throws a
    TypeError at the [emit] of [D]'s context, and both cache entries are still
    there afterwards. *)
Theorem C6_cascade_throws_without_emit :
  reachable dependent_tree /\
  (exists config, reg_lookup "D" (_registry dependent_tree) = Some config /\
                  In "K" (dependencies config)) /\
  is_Some (_resolved dependent_tree !! "K") /\
  is_Some (_resolved dependent_tree !! "D") /\
  dependsOnKey "K" dependent_tree = ["D"] /\
  destroy (Some "K") dependent_tree
    = Throw (TypeError "context.emit") dependent_tree.
Proof.
  split; [unfold dependent_tree; reach|].
  split; [|split; [|split; [|split]]].
  - eexists. split; [vm_compute; reflexivity|]. simpl. auto.
  - vm_compute. eauto.
  - vm_compute. eauto.
  - vm_compute. reflexivity.
  - vm_compute. reflexivity.
Qed.

(** The empty key takes the branch of a call without key, in every
    container. *)
Lemma destroy_empty_key_is_destroy_all t : destroy (Some "") t = destroy None t.
Proof. reflexivity. Qed.

(** C10, on the code. With two resolved singletons built from plain functions,
    one of them under the empty key, [destroy("")] takes the destroy-all
    branch, throws a TypeError at the first [emit], and clears no cache entry;
    registering the empty key again fails in the same way and installs
    nothing. *)
Theorem C10_destroy_empty_key_throws :
  reachable empty_key_tree /\
  destroy (Some "") empty_key_tree = destroy None empty_key_tree /\
  destroy (Some "") empty_key_tree
    = Throw (TypeError "context.emit") empty_key_tree /\
  is_Some (_resolved empty_key_tree !! "") /\
  is_Some (_resolved empty_key_tree !! "other") /\
  register "" (VFun NeedsNothing) no_opts empty_key_tree
    = Throw (TypeError "context.emit") empty_key_tree.
Proof.
  split; [unfold empty_key_tree; reach|].
  split; [reflexivity|]. split; [vm_compute; reflexivity|].
  split; [vm_compute; eauto|]. split; [vm_compute; eauto|].
  vm_compute; reflexivity.
Qed.

(** ** Concrete instances *)

Lemma C1_fresh_instances_witness :
  exists v2 t2,
    resolve "errorPlugin" plugin_tree_once = Ok v2 t2 /\
    VObj (mkObj 1 false false) <> v2 /\
    exists b, _resolved plugin_tree_once !! "errorParser" = Some b /\
              _resolved t2 !! "errorParser" = Some b.
Proof.
  destruct (C1_fresh_instances_share_singleton plugin_tree
              "errorPlugin" "errorParser"
              (mkConfig ["errorParser"] false false (VFun TestPlugin))
              (mkConfig [] false true (VFun DefaultErrorParser))
              TestPlugin 0 (VObj (mkObj 1 false false)) plugin_tree_once)
    as (v2 & t2 & c1 & c2 & args1 & args2 & evs1 & evs2 & b & H);
    try (vm_compute; reflexivity).
  destruct H as (H1 & H2 & H3 & H3' & H4 & H5 & H6 & H7 & H8 & H9 & H10 & H11 & H12 & H13).
  exists v2, t2. split; [exact H1|]. split; [apply H13; reflexivity|].
  exists b. split; assumption.
Defined.

(** C1 as stated fails: a non-singleton factory that returns the number 42,
    with a singleton dependency, returns the same value on both
    resolutions. *)
Lemma C1_counterexample :
  reachable answer_tree /\
  reg_lookup "answer" (_registry answer_tree)
    = Some (mkConfig ["errorParser"] false false (VFun Answer)) /\
  reg_lookup "errorParser" (_registry answer_tree)
    = Some (mkConfig [] false true (VFun DefaultErrorParser)) /\
  resolve "answer" answer_tree = Ok (VPrim (PNum 42)) answer_tree_once /\
  resolve "answer" answer_tree_once
    = Ok (VPrim (PNum 42)) (answer_tree_once |> resolve "answer").
Proof.
  split; [unfold answer_tree; reach|].
  repeat split; vm_compute; reflexivity.
Qed.

Lemma C2_singleton_cached_witness :
  exists r,
    _resolved (plugin_tree |> resolve "errorParser") !! "errorParser" = Some r /\
    r_value r = VObj (mkObj 0 false false) /\
    resolve "errorParser" (plugin_tree |> resolve "errorParser")
      = Ok (VObj (mkObj 0 false false)) (plugin_tree |> resolve "errorParser").
Proof.
  destruct (C2_singleton_cached plugin_tree "errorParser"
              (mkConfig [] false true (VFun DefaultErrorParser))
              (VObj (mkObj 0 false false))
              (plugin_tree |> resolve "errorParser"))
    as (r & H1 & H2 & H3 & H4 & H5); try (vm_compute; reflexivity).
  exists r. split; [exact H1|]. split; [exact H2|exact H4].
Defined.

(** ** The cascade when every context answers the teardown hook

    What [_destroy] does in containers where the calls of [emit] and
    [removeAllListeners] succeed and the cached keys have no cycle of
    dependents. *)

Lemma teardown_ready_shrinks t t' : teardown_ready t -> shrinks t t' -> teardown_ready t'.
Proof.
  intros H [_ C _] k r Hk. apply (H k r). eapply lookup_weaken; eauto.
Qed.

Lemma dependsOnKey_registry key t t' :
  _registry t' = _registry t -> dependsOnKey key t' = dependsOnKey key t.
Proof. unfold dependsOnKey. now intros ->. Qed.

Lemma ranked_shrinks rank t t' : ranked rank t -> shrinks t t' -> ranked rank t'.
Proof.
  intros H [R C _] k d [x Hk] Hd [y Hy].
  rewrite (dependsOnKey_registry _ _ _ R) in Hd.
  apply H; auto; eexists; eapply lookup_weaken; eauto.
Qed.

Lemma dependsOnKey_keys key t d :
  In d (dependsOnKey key t) -> In d (Object_keys (_registry t)).
Proof.
  unfold dependsOnKey, Object_keys. intros H. apply filter_In in H as [H Hd].
  apply in_map_iff in H as ([k c] & <- & Hin). cbn [fst snd] in *.
  destruct (contains (dependencies c) key); [|discriminate].
  apply in_map_iff. exists (k, c). auto.
Qed.

Lemma plain_registry_shrinks t t' : plain_registry t -> shrinks t t' -> plain_registry t'.
Proof. intros H [R _ _] k Hk. apply H. now rewrite <- R. Qed.

Lemma plain_registry_dependent key t d :
  plain_registry t -> In d (dependsOnKey key t) -> prototype_member d = false.
Proof. intros H Hd. apply H. eapply dependsOnKey_keys; eauto. Qed.

Lemma _destroy_cascade rank fuel : forall key t,
  plain_registry t ->
  (_resolved t !! key = None -> prototype_member key = false) ->
  teardown_ready t -> ranked rank t ->
  (is_Some (_resolved t !! key) -> rank key + 2 <= fuel) ->
  1 <= fuel ->
  exists t' evs,
    _destroy fuel key t = Ok tt t' /\
    shrinks t t' /\
    history t' = history t ++ evs /\
    _resolved t' !! key = None /\
    (forall x, is_Some (_resolved t !! x) -> _resolved t' !! x = None ->
               In (EvDelete x) evs) /\
    (forall r, _resolved t !! key = Some r ->
       exists evs0,
         evs = evs0 ++ [EvEmit (context r); EvRemoveAllListeners (context r);
                        EvDelete key] /\
         forall d, In d (dependsOnKey key t) ->
           _resolved t' !! d = None /\
           (is_Some (_resolved t !! d) -> In (EvDelete d) evs0)).
Proof.
  induction fuel as [|n IH]; intros key t Hplain Hproto Hready Hrank Hfuel Hpos; [lia|].
  simpl. destruct (_resolved t !! key) as [r|] eqn:Hc.
  2:{ rewrite (Hproto eq_refl).
      exists t, []. split; [reflexivity|]. split; [apply shrinks_refl|].
      split; [now rewrite app_nil_r|]. split; [exact Hc|]. split.
      - intros x [y Hy] Hx. congruence.
      - intros r0 Hr0. discriminate. }
  assert (Hn : rank key + 1 <= n) by (specialize (Hfuel (mk_is_Some _ _ eq_refl)); lia).
  (* the dependents *)
  assert (Hloop : forall ds t0,
    plain_registry t0 ->
    (forall d, In d ds -> prototype_member d = false) ->
    teardown_ready t0 -> ranked rank t0 ->
    (forall d, In d ds -> is_Some (_resolved t0 !! d) -> rank d + 2 <= n) ->
    exists t1 evs1,
      forEach (_destroy n) ds t0 = Ok tt t1 /\
      shrinks t0 t1 /\
      history t1 = history t0 ++ evs1 /\
      (forall d, In d ds -> _resolved t1 !! d = None) /\
      (forall x, is_Some (_resolved t0 !! x) -> _resolved t1 !! x = None ->
                 In (EvDelete x) evs1)).
  { induction ds as [|d ds IHds]; intros t0 Hp0 Hpd Hr0 Hk0 Hb.
    - exists t0, []. split; [reflexivity|]. split; [apply shrinks_refl|].
      split; [now rewrite app_nil_r|]. split; [intros d []|].
      intros x [y Hy] Hx. congruence.
    - destruct (IH d t0 Hp0 (fun _ => Hpd d (or_introl eq_refl)) Hr0 Hk0)
        as (t1 & evs1 & Hd & Hs1 & Hh1 & Hg1 & Hev1 & _).
      { intros Hsome. apply Hb; simpl; auto. }
      { lia. }
      destruct (IHds t1) as (t2 & evs2 & Hf & Hs2 & Hh2 & Hg2 & Hev2).
      { eapply plain_registry_shrinks; eauto. }
      { intros d' Hd'. apply Hpd. now right. }
      { eapply teardown_ready_shrinks; eauto. }
      { eapply ranked_shrinks; eauto. }
      { intros d' Hd' [y Hy]. apply Hb; simpl; auto.
        exists y. eapply lookup_weaken; [exact Hy|apply (shr_resolved _ _ Hs1)]. }
      exists t2, (evs1 ++ evs2). simpl. rewrite Hd. cbn [bind].
      split; [exact Hf|]. split; [eapply shrinks_trans; eauto|].
      split; [rewrite Hh2, Hh1; now rewrite <- app_assoc|]. split.
      + intros d' [<-|Hd']; [eapply shrinks_gone; eauto|auto].
      + intros x Hx Hx2. apply in_or_app.
        destruct (_resolved t1 !! x) as [y|] eqn:E.
        * right. apply Hev2; eauto.
        * left. apply Hev1; auto. }
  destruct (Hloop (dependsOnKey key t) t Hplain
              (fun d Hd => plain_registry_dependent key t d Hplain Hd) Hready Hrank)
    as (t1 & evs1 & Hf & Hs1 & Hh1 & Hg1 & Hev1).
  { intros d Hd Hsome.
    assert (rank d < rank key) by (apply Hrank; eauto). lia. }
  rewrite Hf. cbn [bind].
  destruct (Hready key r Hc) as [He Hr].
  unfold emit_destroy, removeAllListeners_destroy. rewrite He. cbn [bind record].
  rewrite Hr. cbn [bind record].
  eexists. exists (evs1 ++ [EvEmit (context r); EvRemoveAllListeners (context r);
                            EvDelete key]).
  split; [reflexivity|]. destruct Hs1 as [R1 C1 N1].
  split; [constructor; simpl; auto; etransitivity; [apply delete_subseteq|exact C1]|].
  split; [simpl; rewrite Hh1; now rewrite <- !app_assoc|].
  split; [simpl; apply lookup_delete_eq|]. split.
  - intros x Hx Hx'. simpl in Hx'. apply in_or_app.
    destruct (decide (key = x)) as [->|Hne].
    + right. simpl. auto.
    + left. rewrite lookup_delete_ne in Hx' by auto. auto.
  - intros r0 Hr0. inversion Hr0; subst r0. exists evs1. split; [reflexivity|].
    intros d Hd. split.
    + simpl. destruct (decide (key = d)) as [->|Hne];
        [apply lookup_delete_eq|rewrite lookup_delete_ne by auto; auto].
    + intros Hsome. apply Hev1; auto.
Qed.

Lemma dependsOnKey_In key t d config :
  In (d, config) (_registry t) ->
  contains (dependencies config) key = true ->
  d <> "" ->
  In d (dependsOnKey key t).
Proof.
  intros Hin Hc Hne. unfold dependsOnKey. apply filter_In. split.
  - apply in_map_iff. exists (d, config). simpl. now rewrite Hc.
  - unfold truthy_key. apply negb_true_iff. now apply String.eqb_neq.
Qed.

(** With the teardown hooks in place and no cycle among cached dependents,
    [destroy(K)] for a cached key [K] with a cached dependent [D] returns; it
    evicts [D] before it tears down and evicts [K]; both entries are gone and
    the registry is as before. *)
Lemma destroy_cascade_with_hooks rank t K D rK :
  plain_registry t ->
  teardown_ready t -> ranked rank t ->
  (forall k, is_Some (_resolved t !! k) -> rank k < size (_resolved t)) ->
  K <> "" ->
  _resolved t !! K = Some rK ->
  In D (dependsOnKey K t) ->
  is_Some (_resolved t !! D) ->
  exists t' evs0,
    destroy (Some K) t = Ok tt t' /\
    _registry t' = _registry t /\
    _resolved t' !! D = None /\ _resolved t' !! K = None /\
    history t' = history t ++ evs0 ++
      [EvEmit (context rK); EvRemoveAllListeners (context rK); EvDelete K] /\
    In (EvDelete D) evs0.
Proof.
  intros Hplain Hready Hrank Hbound HK Hc HD HcD.
  destruct (_destroy_cascade rank (destroy_fuel t) K t Hplain) as
    (t' & evs & Hd & Hs & Hh & Hg & _ & Hlast); auto.
  { intros E. congruence. }
  { intros Hsome. specialize (Hbound K Hsome). unfold destroy_fuel. lia. }
  { unfold destroy_fuel. lia. }
  destruct (Hlast rK Hc) as (evs0 & -> & Hdeps).
  destruct (Hdeps D HD) as [HgD HevD].
  exists t', evs0. unfold destroy.
  assert (Ht : truthy_key K = true).
  { unfold truthy_key. apply negb_true_iff. now apply String.eqb_neq. }
  rewrite Ht. split; [exact Hd|]. split; [apply (shr_registry _ _ Hs)|].
  split; [exact HgD|]. split; [exact Hg|]. split; [exact Hh|auto].
Qed.

(** Under the same conditions [destroy("")], like [destroy()], returns and
    leaves no cache entry for any registered key. *)
Lemma destroy_all_with_hooks rank t :
  plain_registry t ->
  teardown_ready t -> ranked rank t ->
  (forall k, is_Some (_resolved t !! k) -> rank k < size (_resolved t)) ->
  exists t',
    destroy (Some "") t = Ok tt t' /\
    _registry t' = _registry t /\
    forall k config, reg_lookup k (_registry t) = Some config -> _resolved t' !! k = None.
Proof.
  intros Hplain Hready Hrank Hbound. unfold destroy. cbn [truthy_key String.eqb negb].
  assert (Hloop : forall ks t0,
    (forall k, In k ks -> prototype_member k = false) ->
    shrinks t t0 ->
    exists t1, forEach (_destroy (destroy_fuel t)) ks t0 = Ok tt t1 /\ shrinks t0 t1).
  { induction ks as [|k ks IHks]; intros t0 Hks Hs0.
    - exists t0. split; [reflexivity|apply shrinks_refl].
    - destruct (_destroy_cascade rank (destroy_fuel t) k t0)
        as (t1 & evs & Hd & Hs1 & _).
      { eapply plain_registry_shrinks; eauto. }
      { intros _. apply Hks. now left. }
      { eapply teardown_ready_shrinks; eauto. }
      { eapply ranked_shrinks; eauto. }
      { intros [y Hy]. unfold destroy_fuel.
        assert (rank k < size (_resolved t)); [|lia].
        apply Hbound. exists y.
        eapply lookup_weaken; [exact Hy|apply (shr_resolved _ _ Hs0)]. }
      { unfold destroy_fuel. lia. }
      destruct (IHks t1) as (t2 & Hf & Hs2);
        [intros k' Hk'; apply Hks; now right|eapply shrinks_trans; eauto|].
      exists t2. cbn [forEach]. rewrite Hd. cbn [bind].
      split; [exact Hf|eapply shrinks_trans; eauto]. }
  destruct (Hloop (Object_keys (_registry t)) t Hplain (shrinks_refl t))
    as (t' & Hf & Hs).
  exists t'. split; [exact Hf|]. split; [apply (shr_registry _ _ Hs)|].
  intros k config Hk.
  eapply forEach_destroy_gone; [|exact Hf]. eapply reg_lookup_In; eauto.
Qed.

(** The cascade on a container whose factories have an event-emitter
    prototype. *)
Example destroy_cascade_on_emitters :
  exists t' evs0,
    destroy (Some "K") emitter_dependent_tree = Ok tt t' /\
    _registry t' = _registry emitter_dependent_tree /\
    _resolved t' !! "D" = None /\ _resolved t' !! "K" = None /\
    history t' = history emitter_dependent_tree ++ evs0 ++
      [EvEmit (mkObj 0 true true); EvRemoveAllListeners (mkObj 0 true true);
       EvDelete "K"] /\
    In (EvDelete "D") evs0.
Proof.
  apply (destroy_cascade_with_hooks rank_K_over_D emitter_dependent_tree "K" "D"
           (mkResolved (mkObj 0 true true) (VObj (mkObj 0 true true)))).
  - plain_keys.
  - intros k r Hk.
    destruct (decide (k = "K")) as [->|HK]; [vm_compute in Hk; inversion Hk; auto|].
    destruct (decide (k = "D")) as [->|HD]; [vm_compute in Hk; inversion Hk; auto|].
    exfalso. revert Hk. unfold emitter_dependent_tree.
    change (_resolved _) with
      (<["D" := mkResolved (mkObj 1 true true) (VObj (mkObj 1 true true))]>
         (<["K" := mkResolved (mkObj 0 true true) (VObj (mkObj 0 true true))]>
            (∅ : gmap string Resolved))).
    rewrite !lookup_insert_ne by auto. rewrite lookup_empty. discriminate.
  - intros k d Hk Hd Hcd. unfold rank_K_over_D.
    assert (Hreg : _registry emitter_dependent_tree =
      [("K", mkConfig [] false true (VFun EmitterService));
       ("D", mkConfig ["K"] false true (VFun EmitterNeedsK))])
      by (vm_compute; reflexivity).
    unfold dependsOnKey in Hd. rewrite Hreg in Hd.
    cbn [map snd fst dependencies contains existsb] in Hd.
    rewrite orb_false_r in Hd.
    destruct (String.eqb k "K") eqn:E; cbn in Hd.
    + destruct Hd as [<-|[]]. cbn. apply String.eqb_eq in E. subst k. cbn. lia.
    + destruct Hd.
  - intros k [r Hk].
    assert (Hsz : size (_resolved emitter_dependent_tree) = 2) by (vm_compute; reflexivity).
    rewrite Hsz. unfold rank_K_over_D. destruct (String.eqb k "K"); lia.
  - discriminate.
  - vm_compute. reflexivity.
  - vm_compute. auto.
  - vm_compute. eauto.
Qed.

(** Without the second condition the cascade does not end: when [A] and [B]
    are cached and each is a dependent of the other, [_destroy] exhausts every
    recursion budget. *)
Example destroy_diverges_on_cached_cycle :
  forall fuel,
    _destroy fuel "A" cached_cycle_both = OutOfFuel /\
    _destroy fuel "B" cached_cycle_both = OutOfFuel.
Proof.
  assert (HA : _resolved cached_cycle_both !! "A"
               = Some (mkResolved (mkObj 1 false false) (VObj (mkObj 1 false false))))
    by (vm_compute; reflexivity).
  assert (HB : _resolved cached_cycle_both !! "B"
               = Some (mkResolved (mkObj 2 false false) (VObj (mkObj 2 false false))))
    by (vm_compute; reflexivity).
  assert (HdA : dependsOnKey "A" cached_cycle_both = ["B"]) by (vm_compute; reflexivity).
  assert (HdB : dependsOnKey "B" cached_cycle_both = ["A"]) by (vm_compute; reflexivity).
  induction fuel as [|n [IHA IHB]]; [split; reflexivity|].
  split; cbn [_destroy].
  - rewrite HA, HdA. cbn [forEach]. now rewrite IHB.
  - rewrite HB, HdB. cbn [forEach]. now rewrite IHA.
Qed.

(** ** The cache only holds singletons *)

Lemma extends_cache_holds_singletons t t' :
  cache_holds_singletons t -> extends t t' -> cache_holds_singletons t'.
Proof.
  intros Hinv He k r Hk. rewrite (ext_registry _ _ He).
  destruct (ext_new _ _ He k r Hk) as [Hold|Hnew]; eauto.
Qed.

Lemma shrinks_cache_holds_singletons t t' :
  cache_holds_singletons t -> shrinks t t' -> cache_holds_singletons t'.
Proof.
  intros Hinv [R C _] k r Hk. rewrite R. apply (Hinv k r).
  eapply lookup_weaken; eauto.
Qed.

Lemma resolve_all_extends t : after (resolve_all t) (extends t).
Proof.
  unfold resolve_all. apply mapM_state.
  - apply extends_refl.
  - apply extends_trans.
  - intros k t' _. pose proof (_resolve_extends (resolve_fuel t) k [] t') as H.
    destruct (_resolve (resolve_fuel t) k [] t'); exact H.
Qed.

Lemma register_cache_holds_singletons key val opts t :
  cache_holds_singletons t ->
  after (register key val opts t) cache_holds_singletons.
Proof.
  intros Hinv.
  assert (Hstages : forall agg c s,
    after (overwrite key t >>= fun _ t1 =>
           declared_dependencies key val c t1 >>= fun deps t2 =>
           aggregate agg (set_registry key (mkConfig deps c s val) t2))
      cache_holds_singletons).
  { intros agg c s.
    pose proof (overwrite_shrinks key t) as Ho.
    destruct (overwrite key t) as [[] t1|e t1|] eqn:Eo; cbn [bind after] in *;
      [|eapply shrinks_cache_holds_singletons; eauto|exact I].
    assert (Hinv1 : cache_holds_singletons t1)
      by (eapply shrinks_cache_holds_singletons; eauto).
    assert (Hgone : _resolved t1 !! key = None).
    { unfold overwrite in Eo. destruct (isRegistered key t) eqn:Er.
      - eapply destroy_Ok_gone; eauto.
      - inversion Eo; subst t1.
        destruct (_resolved t !! key) as [r|] eqn:E; auto.
        destruct (Hinv key r E) as (config & Hc & _).
        unfold isRegistered in Er. rewrite Hc in Er. discriminate. }
    pose proof (declared_dependencies_state key val c t1) as Hd.
    destruct (declared_dependencies key val c t1) as [deps t2|e t2|];
      cbn [bind after] in *; subst; auto.
    pose proof (aggregate_state agg (set_registry key (mkConfig deps c s val) t1)) as Ha.
    assert (Hset : cache_holds_singletons
                     (set_registry key (mkConfig deps c s val) t1)).
    { intros k r Hk. simpl in Hk |- *.
      destruct (decide (key = k)) as [->|Hne]; [congruence|].
      rewrite reg_lookup_set_ne by auto. eauto. }
    destruct (aggregate agg _) as [[] t3|e t3|]; cbn [after] in *; subst; auto. }
  unfold register. destruct opts; [apply Hstages|exact Hinv|apply Hstages].
Qed.

(** Every container a program can build satisfies the invariant; in
    particular a key registered as non-singleton never has a cache entry. *)
Lemma reachable_cache_holds_singletons t :
  reachable t -> cache_holds_singletons t.
Proof.
  induction 1 as [|t key val opts _ IH|t key _ IH|t _ IH|t key _ IH]; unfold then_.
  - intros k r Hk. simpl in Hk. rewrite lookup_empty in Hk. discriminate.
  - pose proof (register_cache_holds_singletons key val opts t IH) as H.
    destruct (register key val opts t); auto.
  - pose proof (_resolve_extends (resolve_fuel t) key [] t) as H. unfold resolve.
    destruct (_resolve (resolve_fuel t) key [] t); cbn [state_after after] in *;
      eauto using extends_cache_holds_singletons.
  - pose proof (resolve_all_extends t) as H.
    destruct (resolve_all t); cbn [state_after after] in *;
      eauto using extends_cache_holds_singletons.
  - pose proof (destroy_shrinks key t) as H.
    destruct (destroy key t); cbn [state_after after] in *;
      eauto using shrinks_cache_holds_singletons.
Qed.

Lemma non_singleton_not_cached t key config :
  cache_holds_singletons t ->
  reg_lookup key (_registry t) = Some config ->
  isSingleton config = false ->
  _resolved t !! key = None.
Proof.
  intros Hinv Hreg Hs. destruct (_resolved t !! key) as [r|] eqn:E; auto.
  destruct (Hinv key r E) as (c & Hc & Hsc). congruence.
Qed.

(** ** No record under a member name of [Object.prototype] *)

Lemma Object_keys_lookup k r :
  In k (Object_keys r) <-> exists c, reg_lookup k r = Some c.
Proof.
  unfold Object_keys. induction r as [|[k0 c0] r IH]; cbn [map fst In reg_lookup].
  - split; [intros []|intros [c H]; discriminate].
  - destruct (String.eqb k0 k) eqn:E.
    + apply String.eqb_eq in E. subst. split; eauto.
    + rewrite <- IH. apply String.eqb_neq in E.
      split; [intros [H|H]; [congruence|auto]|auto].
Qed.

(** The overwrite path only returns for a key that is no such name: for a
    member name without record, [isRegistered] answers [true] and [destroy]
    throws. *)
Lemma overwrite_Ok_plain key t t1 :
  cache_holds_singletons t -> plain_registry t ->
  overwrite key t = Ok tt t1 -> prototype_member key = false.
Proof.
  intros Hinv Hplain. unfold overwrite, isRegistered.
  destruct (reg_lookup key (_registry t)) as [c|] eqn:E.
  - intros _. apply Hplain. apply Object_keys_lookup. eauto.
  - destruct (prototype_member key) eqn:Hp; [|reflexivity].
    intros H. exfalso. unfold destroy in H.
    assert (Hk : truthy_key key = true).
    { destruct key; [vm_compute in Hp; discriminate|reflexivity]. }
    rewrite Hk in H. revert H. apply _destroy_inherited; auto.
    destruct (_resolved t !! key) as [r|] eqn:Hr; auto.
    destruct (Hinv key r Hr) as (c & Hc & _). congruence.
Qed.

Lemma set_registry_plain key c t :
  plain_registry t -> prototype_member key = false ->
  plain_registry (set_registry key c t).
Proof.
  intros Hplain Hp k Hk. cbn [set_registry _registry] in Hk.
  apply Object_keys_lookup in Hk as [c' Hk].
  destruct (string_dec key k) as [<-|Hne]; [exact Hp|].
  rewrite reg_lookup_set_ne in Hk by exact Hne.
  apply Hplain. apply Object_keys_lookup. eauto.
Qed.

Lemma register_plain_registry key val opts t :
  cache_holds_singletons t -> plain_registry t ->
  after (register key val opts t) plain_registry.
Proof.
  intros Hinv Hplain.
  assert (Hstages : forall agg c s,
    after (overwrite key t >>= fun _ t1 =>
           declared_dependencies key val c t1 >>= fun deps t2 =>
           aggregate agg (set_registry key (mkConfig deps c s val) t2))
      plain_registry).
  { intros agg c s.
    pose proof (overwrite_shrinks key t) as Ho.
    pose proof (overwrite_Ok_plain key t) as Hk.
    destruct (overwrite key t) as [[] t1|e t1|]; cbn [bind after] in *;
      [|eapply plain_registry_shrinks; eauto|exact I].
    specialize (Hk t1 Hinv Hplain eq_refl).
    assert (Hp1 : plain_registry t1) by (eapply plain_registry_shrinks; eauto).
    pose proof (declared_dependencies_state key val c t1) as Hd.
    destruct (declared_dependencies key val c t1) as [deps t2|e t2|];
      cbn [bind after] in *; subst; [|exact Hp1|exact I].
    pose proof (aggregate_state agg (set_registry key (mkConfig deps c s val) t1)) as Ha.
    destruct (aggregate agg _) as [[] t3|e t3|]; cbn [after] in *; subst;
      try exact I; now apply set_registry_plain. }
  unfold register. destruct opts; [apply Hstages|exact Hplain|apply Hstages].
Qed.

(** Every container built with the public operations is free of such
    records. *)
Lemma reachable_plain_registry t : reachable t -> plain_registry t.
Proof.
  induction 1 as [|t key val opts Hr IH|t key Hr IH|t Hr IH|t key Hr IH].
  - intros k [].
  - pose proof (register_plain_registry key val opts t
                  (reachable_cache_holds_singletons t Hr) IH) as H.
    unfold then_. destruct (register key val opts t); cbn [state_after after] in *; auto.
  - pose proof (_resolve_extends (resolve_fuel t) key [] t) as H.
    unfold then_, resolve.
    destruct (_resolve (resolve_fuel t) key [] t); cbn [state_after after] in *; auto;
      intros k Hk; apply IH; now rewrite <- (ext_registry _ _ H).
  - pose proof (resolve_all_extends t) as H. unfold then_.
    destruct (resolve_all t); cbn [state_after after] in *; auto;
      intros k Hk; apply IH; now rewrite <- (ext_registry _ _ H).
  - pose proof (destroy_shrinks key t) as H. unfold then_.
    destruct (destroy key t); cbn [state_after after] in *;
      eauto using plain_registry_shrinks.
Qed.

(** * Further properties of Tree.ts *)

(** ** The recursion budget of [_resolve] *)

Lemma mapM_ext_ok {A B} (f g : A -> Tree -> result B) xs :
  (forall x t, f x t <> OutOfFuel -> g x t = f x t) ->
  forall t, mapM f xs t <> OutOfFuel -> mapM g xs t = mapM f xs t.
Proof.
  intros Hfg. induction xs as [|x xs IH]; intros t Hne; [reflexivity|].
  cbn [mapM] in *.
  assert (Hx : f x t <> OutOfFuel) by (intros E; rewrite E in Hne; auto).
  rewrite (Hfg x t Hx). destruct (f x t) as [y t1|e t1|]; cbn [bind] in *; auto.
  rewrite IH; auto. intros E. rewrite E in Hne. auto.
Qed.

Lemma _resolve_more_fuel n : forall key path t,
  _resolve n key path t <> OutOfFuel ->
  _resolve (S n) key path t = _resolve n key path t.
Proof.
  induction n as [|n IH]; intros key path t Hne; [now contradiction Hne|].
  destruct (reg_lookup key (_registry t)) as [config|] eqn:Hreg.
  2:{ now rewrite !_resolve_no_record. }
  destruct (in_dec string_dec key path) as [Hin|Hin].
  { now rewrite !(_resolve_circular _ _ _ _ _ Hreg Hin). }
  destruct (_resolved t !! key) as [cached|] eqn:Hc.
  { now rewrite !(_resolve_hit _ _ _ _ _ _ Hreg Hin Hc). }
  destruct (isConstant config) eqn:Hk.
  { now rewrite !(_resolve_constant _ _ _ _ _ Hreg Hin Hc Hk). }
  rewrite (_resolve_factory (S n) _ _ _ _ Hreg Hin Hc Hk).
  rewrite (_resolve_factory n _ _ _ _ Hreg Hin Hc Hk) in Hne |- *.
  rewrite (mapM_ext_ok (fun d => _resolve n d (path ++ [key]))
             (fun d => _resolve (S n) d (path ++ [key]))); auto.
  intros E. rewrite E in Hne. auto.
Qed.

Lemma _resolve_extra_fuel n extra key path t :
  _resolve n key path t <> OutOfFuel ->
  _resolve (n + extra) key path t = _resolve n key path t.
Proof.
  intros Hne. induction extra as [|k IH].
  - now rewrite Nat.add_0_r.
  - rewrite Nat.add_succ_r. rewrite _resolve_more_fuel; rewrite IH; auto.
Qed.

(** X1. [resolve(key)] terminates on every container, whatever the registered
    dependency graph: the path check bounds the depth of [_resolve] by the
    number of registered keys plus one, so the budget [resolve] starts with is
    never exhausted, and no larger budget changes the outcome. *)
Theorem X1_resolve_terminates (t : Tree) (key : string) (extra : nat) :
  resolve key t <> OutOfFuel /\
  _resolve (resolve_fuel t + extra) key [] t = resolve key t.
Proof.
  assert (H : resolve key t <> OutOfFuel).
  { unfold resolve, resolve_fuel. apply _resolve_total.
    - constructor.
    - intros x [].
    - simpl. lia. }
  split; [exact H|]. unfold resolve in *. now apply _resolve_extra_fuel.
Qed.

(** ** A singleton is constructed once *)

Lemma invoke_factory_resolved key v args t :
  after (invoke_factory key v args t) (fun t' => _resolved t' = _resolved t).
Proof.
  destruct v as [|[]| | |]; try reflexivity.
  destruct (invoke_factory_VFun key f args t) as (t' & Hi & _ & Hc & _).
  rewrite Hi. exact Hc.
Qed.

Lemma cache_result_other key config cv t :
  after (cache_result key config cv t)
        (fun t' => forall x, x <> key -> _resolved t' !! x = _resolved t !! x).
Proof.
  unfold cache_result. destruct (negb (isSingleton config)); cbn [after]; auto.
  intros x Hx. simpl. now rewrite lookup_insert_ne.
Qed.

(** Resolving under a requester chain never writes the cache entry of a
    requester. *)
Lemma _resolve_path_untouched n : forall key path t,
  after (_resolve n key path t)
        (fun t' => forall x, In x path -> _resolved t' !! x = _resolved t !! x).
Proof.
  induction n as [|n IH]; intros key path t; [exact I|].
  destruct (reg_lookup key (_registry t)) as [config|] eqn:Hreg.
  2:{ rewrite _resolve_no_record by auto.
      apply (resolve_without_record_after key (path ++ [key]) t
               (fun t' => forall k, In k path -> _resolved t' !! k = _resolved t !! k)).
      auto. }
  destruct (in_dec string_dec key path) as [Hin|Hin].
  { erewrite _resolve_circular by eauto. cbn [after]. auto. }
  destruct (_resolved t !! key) as [cached|] eqn:Hc.
  { erewrite _resolve_hit by eauto. cbn [after]. auto. }
  assert (Hne : forall x, In x path -> x <> key) by (intros x Hx ->; auto).
  destruct (isConstant config) eqn:Hk.
  { erewrite _resolve_constant by eauto.
    pose proof (cache_result_other key config
      (mkObj (next_obj t) false false, value_of config)
      (snd (alloc false false t))) as Ho.
    destruct (cache_result _ _ _ _); cbn [after] in *; auto;
      intros x Hx; rewrite Ho; auto. }
  erewrite _resolve_factory by eauto.
  pose proof (mapM_state
    (fun a b => forall x, In x (path ++ [key]) -> _resolved b !! x = _resolved a !! x)
    (fun dependency => _resolve n dependency (path ++ [key]))
    (dependencies config)) as Hm.
  specialize (Hm (fun a x _ => eq_refl)).
  specialize (Hm (fun a b c Hab Hbc x Hx => eq_trans (Hbc x Hx) (Hab x Hx))).
  specialize (Hm (fun x t' _ => IH x (path ++ [key]) t') t).
  destruct (mapM _ (dependencies config) t) as [vs t1|e t1|]; cbn [bind after] in *;
    [|intros x Hx; apply Hm, in_or_app; auto|exact I].
  pose proof (invoke_factory_resolved key (value_of config) vs t1) as Hi.
  destruct (invoke_factory key (value_of config) vs t1) as [cv t2|e t2|];
    cbn [bind after] in *;
    [|intros x Hx; rewrite Hi; apply Hm, in_or_app; auto|exact I].
  pose proof (cache_result_other key config cv t2) as Ho.
  destruct (cache_result key config cv t2); cbn [after] in *; auto;
    intros x Hx; rewrite Ho, Hi by auto; apply Hm, in_or_app; auto.
Qed.

Lemma applications_app key a b :
  applications key (a ++ b) = applications key a + applications key b.
Proof. unfold applications. now rewrite List.filter_app, length_app. Qed.

Lemma once_per_singleton_refl t : once_per_singleton t t.
Proof.
  exists []. split; [now rewrite app_nil_r|].
  intros x config _ _. cbn. repeat split; auto. discriminate.
Qed.

Lemma once_per_singleton_trans a b c :
  extends a b -> extends b c ->
  once_per_singleton a b -> once_per_singleton b c -> once_per_singleton a c.
Proof.
  intros Eab Ebc (e1 & H1 & Q1) (e2 & H2 & Q2). exists (e1 ++ e2). split.
  - rewrite H2, H1. now rewrite <- app_assoc.
  - intros x config Hreg Hs. rewrite applications_app.
    destruct (Q1 x config Hreg Hs) as (L1 & Z1 & C1).
    destruct (Q2 x config) as (L2 & Z2 & C2); auto.
    { now rewrite (ext_registry _ _ Eab). }
    assert (Hmono : forall m m' : Tree, extends m m' ->
              is_Some (_resolved m !! x) -> is_Some (_resolved m' !! x)).
    { intros m m' E [r Hr]. exists r.
      eapply lookup_weaken; [exact Hr|apply (ext_resolved _ _ E)]. }
    assert (Hcases : applications x e1 = 0 \/
                     (applications x e1 = 1 /\ applications x e2 = 0)).
    { destruct (applications x e1) as [|[|k]] eqn:E1; [auto| |lia].
      right. split; auto. }
    split; [|split].
    + destruct Hcases as [->|[-> ->]]; lia.
    + intros Ha. rewrite (Z1 Ha), (Z2 (Hmono _ _ Eab Ha)). reflexivity.
    + intros Hone. destruct Hcases as [E1|[E1 E2]].
      * apply C2. lia.
      * eapply Hmono; eauto.
Qed.

Lemma _resolve_once n : forall key path t,
  after (_resolve n key path t) (once_per_singleton t).
Proof.
  induction n as [|n IH]; intros key path t; [exact I|].
  destruct (reg_lookup key (_registry t)) as [config|] eqn:Hreg.
  2:{ rewrite _resolve_no_record by auto.
      apply resolve_without_record_after, once_per_singleton_refl. }
  destruct (in_dec string_dec key path) as [Hin|Hin].
  { erewrite _resolve_circular by eauto. apply once_per_singleton_refl. }
  destruct (_resolved t !! key) as [cached|] eqn:Hc.
  { erewrite _resolve_hit by eauto. apply once_per_singleton_refl. }
  destruct (isConstant config) eqn:Hk.
  { erewrite _resolve_constant by eauto.
    pose proof (cache_result_history key config
      (mkObj (next_obj t) false false, value_of config)
      (snd (alloc false false t))) as Hh.
    destruct (cache_result _ _ _ _); cbn [after] in *; auto;
      (exists []; split; [now rewrite app_nil_r|]);
      intros x c _ _; cbn; repeat split; auto; discriminate. }
  pose proof (_resolve_extends (S n) key path t) as Hext.
  erewrite _resolve_factory in Hext |- * by eauto.
  (* the dependencies *)
  assert (Hm : after (mapM (fun d => _resolve n d (path ++ [key]))
                        (dependencies config) t)
                 (fun t1 => extends t t1 /\ once_per_singleton t t1 /\
                            _resolved t1 !! key = None)).
  { pose proof (mapM_state
      (fun a b => extends a b /\ once_per_singleton a b /\
                  forall x, In x (path ++ [key]) ->
                            _resolved b !! x = _resolved a !! x)
      (fun d => _resolve n d (path ++ [key])) (dependencies config)) as Hm.
    assert (Hm' := Hm
      (fun a => conj (extends_refl a)
                  (conj (once_per_singleton_refl a) (fun x _ => eq_refl)))).
    clear Hm.
    assert (Hm := Hm'
      (fun a b c '(conj E1 (conj O1 U1)) '(conj E2 (conj O2 U2)) =>
         conj (extends_trans _ _ _ E1 E2)
           (conj (once_per_singleton_trans _ _ _ E1 E2 O1 O2)
                 (fun x Hx => eq_trans (U2 x Hx) (U1 x Hx))))).
    clear Hm'.
    specialize (Hm (fun x t' _ =>
      ltac:(pose proof (_resolve_extends n x (path ++ [key]) t');
            pose proof (IH x (path ++ [key]) t');
            pose proof (_resolve_path_untouched n x (path ++ [key]) t');
            destruct (_resolve n x (path ++ [key]) t'); cbn [after] in *; auto)) t).
    destruct (mapM _ (dependencies config) t); cbn [after] in *; auto;
      (destruct Hm as (E & O & U); split; [auto|]; split; [auto|];
       rewrite U; [exact Hc|apply in_or_app; simpl; auto]). }
  destruct (mapM _ (dependencies config) t) as [vs t1|e t1|]; cbn [bind after] in *;
    [|tauto|exact I].
  destruct Hm as (E1 & O1 & Hc1).
  (* the call and the store *)
  destruct (value_of config) as [|[]| |f|] eqn:Hval;
    try (cbn [invoke_factory bind after]; exact O1).
  destruct (invoke_factory_VFun key f vs t1) as (t2 & Hi & R2 & C2 & H2 & N2).
  rewrite Hi in Hext |- *. cbn [bind after] in *.
  assert (Hstep : forall t', 
    t' = t2 \/ (isSingleton config = true /\ exists r, t' = set_resolved key r t2) ->
    (isSingleton config = true -> t' <> t2) ->
    extends t t' -> once_per_singleton t t').
  { intros t' Hshape Hstore Et'.
    eapply (once_per_singleton_trans t t1 t'); auto.
    - constructor.
      + rewrite (ext_registry _ _ Et'). symmetry. apply (ext_registry _ _ E1).
      + apply map_subseteq_spec. intros i x Hi'.
        destruct Hshape as [->|(_ & r & ->)]; simpl.
        * now rewrite C2.
        * destruct (decide (key = i)) as [->|Hne]; [congruence|].
          rewrite lookup_insert_ne by auto. now rewrite C2.
      + destruct Hshape as [->|(_ & r & ->)]; simpl; lia.
      + exists [EvApply key f (mkObj (next_obj t1) (fn_emit f)
                                  (fn_removeAllListeners f)) vs].
        destruct Hshape as [->|(_ & r & ->)]; simpl; exact H2.
      + intros k r Hkr.
        destruct Hshape as [->|(Hs & r' & ->)]; simpl in Hkr.
        * left. now rewrite <- C2.
        * destruct (decide (key = k)) as [->|Hne].
          -- right. exists config. split; auto.
             now rewrite (ext_registry _ _ E1).
          -- rewrite lookup_insert_ne in Hkr by auto. left. now rewrite <- C2.
    - exists [EvApply key f (mkObj (next_obj t1) (fn_emit f)
                                (fn_removeAllListeners f)) vs].
      split; [destruct Hshape as [->|(_ & r & ->)]; simpl; exact H2|].
      intros x c Hx Hs. unfold applications. cbn [List.filter is_apply_of].
      destruct (String.eqb key x) eqn:Ex; cbn [length].
      + apply String.eqb_eq in Ex. subst x.
        rewrite (ext_registry _ _ E1), Hreg in Hx. inversion Hx; subst c.
        split; [lia|]. split.
        * intros [r Hr]. congruence.
        * intros _. destruct Hshape as [->|(_ & r & ->)].
          -- exfalso. now apply (Hstore Hs).
          -- simpl. rewrite lookup_insert_eq. eauto.
      + split; [lia|]. split; [reflexivity|discriminate]. }
  unfold cache_result in *. destruct (isSingleton config) eqn:Hs; cbn [negb after] in *.
  - apply Hstep; auto.
    + right. split; eauto.
    + intros _ Heq. apply (f_equal (fun m => _resolved m !! key)) in Heq.
      simpl in Heq. rewrite lookup_insert_eq, C2, Hc1 in Heq. discriminate.
  - apply Hstep; auto.
Qed.

(** X3. During one [resolve(key)], whether it returns or throws, the factory
    of a key [x] registered as a singleton is called at most once, however
    many registrations depend on [x]; it is not called at all when [x] is
    already in the cache; and when it is called, [x] is in the cache
    afterwards. *)
Theorem X3_singleton_constructed_once (t : Tree) (key x : string) (config : Config) :
  reg_lookup x (_registry t) = Some config ->
  isSingleton config = true ->
  after (resolve key t) (fun t' =>
    exists evs, history t' = history t ++ evs /\
      applications x evs <= 1 /\
      (is_Some (_resolved t !! x) -> applications x evs = 0) /\
      (applications x evs = 1 -> is_Some (_resolved t' !! x))).
Proof.
  intros Hreg Hs. unfold resolve.
  pose proof (_resolve_once (resolve_fuel t) key [] t) as H.
  destruct (_resolve (resolve_fuel t) key [] t); cbn [after] in *; auto;
    destruct H as (evs & Hh & Q); exists evs; (split; [exact Hh|]);
    apply (Q x config Hreg Hs).
Qed.

Lemma X3_singleton_constructed_once_witness :
  after (resolve "errorPlugin" plugin_tree) (fun t' =>
    exists evs, history t' = history plugin_tree ++ evs /\
      applications "errorParser" evs <= 1 /\
      (is_Some (_resolved plugin_tree !! "errorParser") ->
       applications "errorParser" evs = 0) /\
      (applications "errorParser" evs = 1 ->
       is_Some (_resolved t' !! "errorParser"))).
Proof.
  apply (X3_singleton_constructed_once plugin_tree "errorPlugin" "errorParser"
           (mkConfig [] false true (VFun DefaultErrorParser)));
    reflexivity.
Defined.

(** ** What a resolution leaves untouched *)

(** X4. [resolve(key)] and [resolve()] never change the registry and never
    remove or replace a cache entry, whether they return or throw: every
    entry present before is present afterwards with the same context and
    value (what was cached before a failure stays cached), and every new
    entry belongs to a key registered as a singleton. *)
Theorem X4_resolve_keeps_cache (t : Tree) (key : string) :
  after (resolve key t) (fun t' =>
    _registry t' = _registry t /\
    (forall k r, _resolved t !! k = Some r -> _resolved t' !! k = Some r) /\
    (forall k r, _resolved t' !! k = Some r ->
       _resolved t !! k = Some r \/
       exists config, reg_lookup k (_registry t) = Some config /\
                      isSingleton config = true)) /\
  after (resolve_all t) (fun t' =>
    _registry t' = _registry t /\
    (forall k r, _resolved t !! k = Some r -> _resolved t' !! k = Some r) /\
    (forall k r, _resolved t' !! k = Some r ->
       _resolved t !! k = Some r \/
       exists config, reg_lookup k (_registry t) = Some config /\
                      isSingleton config = true)).
Proof.
  assert (Hext : forall t', extends t t' ->
    _registry t' = _registry t /\
    (forall k r, _resolved t !! k = Some r -> _resolved t' !! k = Some r) /\
    (forall k r, _resolved t' !! k = Some r ->
       _resolved t !! k = Some r \/
       exists config, reg_lookup k (_registry t) = Some config /\
                      isSingleton config = true)).
  { intros t' [R C _ _ W]. split; [exact R|]. split; [|exact W].
    intros k r Hk. eapply lookup_weaken; eauto. }
  split.
  - unfold resolve. pose proof (_resolve_extends (resolve_fuel t) key [] t) as H.
    destruct (_resolve (resolve_fuel t) key [] t); cbn [after] in *; auto.
  - pose proof (resolve_all_extends t) as H.
    destruct (resolve_all t); cbn [after] in *; auto.
Qed.

(** X2. In every container built with the public operations the resolved
    cache only holds keys that are registered as singletons; a key registered
    as non-singleton never has a cache entry. *)
Theorem X2_cache_only_holds_singletons (t : Tree) :
  reachable t ->
  (forall k r, _resolved t !! k = Some r ->
     exists config, reg_lookup k (_registry t) = Some config /\
                    isSingleton config = true) /\
  (forall k config, reg_lookup k (_registry t) = Some config ->
     isSingleton config = false -> _resolved t !! k = None).
Proof.
  intros Hr. pose proof (reachable_cache_holds_singletons t Hr) as Hinv.
  split; [exact Hinv|]. intros k config. now apply non_singleton_not_cached.
Qed.

Lemma X2_cache_only_holds_singletons_witness :
  _resolved plugin_tree_once !! "errorPlugin" = None.
Proof.
  refine (proj2 (X2_cache_only_holds_singletons plugin_tree_once _) "errorPlugin"
            (mkConfig ["errorParser"] false false (VFun TestPlugin)) eq_refl eq_refl).
  unfold plugin_tree_once, plugin_tree. reach.
Defined.

(** ** What a factory is called with *)

Lemma mapM_length {A B} (f : A -> Tree -> result B) : forall xs t ys t',
  mapM f xs t = Ok ys t' -> length ys = length xs.
Proof.
  induction xs as [|x xs IH]; intros t ys t' H.
  - inversion H. reflexivity.
  - apply mapM_Ok_inv in H as (y & t1 & ys' & _ & Hm & ->).
    cbn [length]. f_equal. eapply IH; eauto.
Qed.

(** A cache miss on a factory key that resolves: the dependencies first, then
    one call on a fresh context, and the entry when the key is a singleton. *)
Lemma _resolve_factory_built fuel key path t config f v t1 :
  reg_lookup key (_registry t) = Some config ->
  ~ In key path ->
  _resolved t !! key = None ->
  isConstant config = false ->
  value_of config = VFun f ->
  _resolve fuel key path t = Ok v t1 ->
  exists n args tm,
    fuel = S n /\
    mapM (fun d => _resolve n d (path ++ [key])) (dependencies config) t
      = Ok args tm /\
    v = factory_result f
          (mkObj (next_obj tm) (fn_emit f) (fn_removeAllListeners f)) args /\
    _registry t1 = _registry tm /\
    _resolved t1 =
      (if isSingleton config
       then <[key := mkResolved
                 (mkObj (next_obj tm) (fn_emit f) (fn_removeAllListeners f)) v]>
              (_resolved tm)
       else _resolved tm) /\
    history t1 = history tm ++
      [EvApply key f (mkObj (next_obj tm) (fn_emit f) (fn_removeAllListeners f)) args] /\
    next_obj tm < next_obj t1.
Proof.
  intros Hreg Hin Hc Hk Hval Hres.
  destruct fuel as [|n]; [discriminate|].
  erewrite _resolve_factory in Hres by eauto.
  apply bind_Ok_inv in Hres as (cv & t2 & Hres & Hcr).
  apply bind_Ok_inv in Hres as (args & tm & Hm & Hinv).
  rewrite Hval in Hinv.
  destruct (invoke_factory_VFun key f args tm) as (t' & Hi & H1 & H2 & H3 & H4).
  rewrite Hi in Hinv. inversion Hinv; subst cv t2.
  exists n, args, tm. unfold cache_result in Hcr.
  destruct (isSingleton config); cbn [negb fst snd] in Hcr;
    inversion Hcr; subst v t1; cbn [_registry _resolved history next_obj set_resolved];
    repeat split; auto; now rewrite H2.
Qed.

(** X5. When [resolve(key)] builds a factory key (no cache entry yet) and
    returns, the factory has been called exactly at the end, on a context
    created during this resolution, with one argument per declared dependency,
    in the order of the declaration: the argument for a singleton dependency
    is the value the cache holds for it afterwards, the argument for a
    non-singleton constant is the registered value itself.  The result is the
    call's result, or the context when the call yields [undefined]. *)
Theorem X5_factory_receives_dependencies (t t1 : Tree) (key : string)
    (config : Config) (f : JsFunction) (v : value) :
  reg_lookup key (_registry t) = Some config ->
  isConstant config = false ->
  value_of config = VFun f ->
  _resolved t !! key = None ->
  resolve key t = Ok v t1 ->
  exists ctx args evs,
    history t1 = history t ++ evs ++ [EvApply key f ctx args] /\
    next_obj t <= obj_id ctx < next_obj t1 /\
    v = factory_result f ctx args /\
    length args = length (dependencies config) /\
    forall i d cfg,
      nth_error (dependencies config) i = Some d ->
      reg_lookup d (_registry t) = Some cfg ->
      (isSingleton cfg = true ->
         exists r, _resolved t1 !! d = Some r /\ nth_error args i = Some (r_value r)) /\
      (isSingleton cfg = false -> isConstant cfg = true ->
         _resolved t !! d = None -> nth_error args i = Some (value_of cfg)).
Proof.
  intros Hreg Hk Hval Hc Hres. unfold resolve in Hres.
  destruct (_resolve_factory_built _ _ [] _ _ _ _ _ Hreg (fun x : In key [] => x) Hc Hk Hval Hres)
    as (n & args & tm & Hfuel & Hm & Hv & Hr1 & Hc1 & Hh1 & Hn1).
  pose proof (mapM_resolve_extends n ([] ++ [key]) (dependencies config) t) as Hext.
  rewrite Hm in Hext. cbn [after] in Hext.
  destruct Hext as [ER EC EN [evs EH] EW].
  exists (mkObj (next_obj tm) (fn_emit f) (fn_removeAllListeners f)), args, evs.
  split; [rewrite Hh1, EH; now rewrite <- app_assoc|].
  split; [cbn [obj_id]; lia|]. split; [exact Hv|].
  split; [eapply mapM_length; eauto|].
  intros i d cfg Hi Hd.
  destruct (mapM_resolve_nth _ _ _ _ _ _ _ _ Hm Hi)
    as (ta & tb & v' & Hv' & Hrd & Hta & Htb).
  destruct n as [|n]; [discriminate|].
  assert (Hdk : d <> key).
  { intros ->. erewrite _resolve_circular in Hrd; [discriminate| |].
    - rewrite (ext_registry _ _ Hta). exact Hreg.
    - cbn [app]. left. reflexivity. }
  split.
  - intros Hs.
    destruct (_resolve_singleton_cached (S n) d ([] ++ [key]) ta cfg v' tb)
      as (r & Hr & Hrv); auto.
    { now rewrite (ext_registry _ _ Hta). }
    exists r. split; [|now rewrite Hrv].
    assert (Hrm : _resolved tm !! d = Some r).
    { eapply lookup_weaken; [exact Hr|apply (ext_resolved _ _ Htb)]. }
    rewrite Hc1. destruct (isSingleton config); [|exact Hrm].
    now rewrite lookup_insert_ne by auto.
  - intros Hs Hcst Hcd.
    assert (Hca : _resolved ta !! d = None).
    { destruct (_resolved ta !! d) as [r|] eqn:E; auto.
      destruct (ext_new _ _ Hta d r E) as [E'|(cfg' & Hl & Hs')]; congruence. }
    erewrite _resolve_constant in Hrd.
    + unfold cache_result in Hrd. rewrite Hs in Hrd. cbn [negb snd] in Hrd.
      inversion Hrd; subst v'. exact Hv'.
    + rewrite (ext_registry _ _ Hta). exact Hd.
    + cbn [app]. intros [E|[]]. congruence.
    + exact Hca.
    + exact Hcst.
Qed.

Lemma X5_factory_receives_dependencies_witness :
  exists ctx args evs,
    history plugin_tree_once
      = history plugin_tree ++ evs ++ [EvApply "errorPlugin" TestPlugin ctx args] /\
    next_obj plugin_tree <= obj_id ctx < next_obj plugin_tree_once /\
    VObj (mkObj 1 false false) = factory_result TestPlugin ctx args /\
    length args = 1.
Proof.
  destruct (X5_factory_receives_dependencies plugin_tree plugin_tree_once "errorPlugin"
              (mkConfig ["errorParser"] false false (VFun TestPlugin)) TestPlugin
              (VObj (mkObj 1 false false)) eq_refl eq_refl eq_refl eq_refl eq_refl)
    as (ctx & args & evs & H1 & H2 & H3 & H4 & _).
  exists ctx, args, evs. auto.
Defined.

(** ** Registration *)

(** The overwrite path leaves the key without cache entry, in a container
    whose cache only holds registered singletons. *)
Lemma overwrite_Ok_gone key t t1 :
  cache_holds_singletons t ->
  overwrite key t = Ok tt t1 ->
  _resolved t1 !! key = None.
Proof.
  intros Hinv. unfold overwrite. destruct (isRegistered key t) eqn:E.
  - now apply destroy_Ok_gone.
  - intros H. inversion H; subst t1.
    destruct (_resolved t !! key) as [r|] eqn:Hr; auto.
    destruct (Hinv key r Hr) as (config & Hl & _).
    unfold isRegistered in E. rewrite Hl in E. discriminate.
Qed.

(** A registration with plain (or no) options and no [aggregateOn] that gets
    past the overwrite path and the factory check installs its record. *)
Lemma register_Ok key val opts t t1 deps :
  is_plain_or_absent opts = true ->
  truthy (opt_aggregateOn opts) = false ->
  overwrite key t = Ok tt t1 ->
  declared_dependencies key val (truthy (opt_constant opts)) t1 = Ok deps t1 ->
  register key val opts t =
    Ok tt (set_registry key
             (mkConfig deps (truthy (opt_constant opts)) (truthy (opt_singleton opts)) val)
             t1).
Proof.
  intros Hp Ha Ho Hd. unfold register.
  destruct opts; [|discriminate|]; rewrite Ho; cbn [bind]; rewrite Hd; cbn [bind];
    unfold aggregate; rewrite Ha; reflexivity.
Qed.

Lemma register_Ok_inv key val opts t t' :
  register key val opts t = Ok tt t' ->
  exists t1 deps,
    overwrite key t = Ok tt t1 /\
    declared_dependencies key val (truthy (opt_constant opts)) t1 = Ok deps t1 /\
    t' = set_registry key
           (mkConfig deps (truthy (opt_constant opts)) (truthy (opt_singleton opts)) val)
           t1.
Proof.
  unfold register. intros H.
  assert (Hgen :
    overwrite key t >>= (fun _ t1 =>
      declared_dependencies key val (truthy (opt_constant opts)) t1 >>= fun deps t2 =>
      aggregate (opt_aggregateOn opts)
        (set_registry key
           (mkConfig deps (truthy (opt_constant opts)) (truthy (opt_singleton opts)) val)
           t2)) = Ok tt t').
  { destruct opts; [exact H|discriminate|exact H]. }
  clear H. apply bind_Ok_inv in Hgen as ([] & t1 & Ho & H).
  apply bind_Ok_inv in H as (deps & t2 & Hd & H).
  pose proof (declared_dependencies_state key val (truthy (opt_constant opts)) t1) as Hs.
  rewrite Hd in Hs. cbn [after] in Hs. subst t2.
  pose proof (aggregate_state (opt_aggregateOn opts)
    (set_registry key
       (mkConfig deps (truthy (opt_constant opts)) (truthy (opt_singleton opts)) val) t1))
    as Hg.
  rewrite H in Hg. cbn [after] in Hg. subst t'.
  exists t1, deps. auto.
Qed.

(** X6. In a container whose cache only holds registered singletons, let the
    options be plain or absent, without [aggregateOn], and let the overwrite
    path return (the key is not registered, or its teardown completes).  Then
    [constant(key, v)] returns and a following [resolve(key)] hands back [v]
    itself, whatever [v] is: nothing is called (a function registered as a
    constant is returned, not invoked) and the registry stays as the
    registration left it; unless the constant is also a singleton the cache
    is not touched either.  (When the teardown of the overwrite path throws,
    [constant] throws with it and the old registration stays.) *)
Theorem X6_constant_resolves_verbatim (t t1 : Tree) (key : string) (v : value)
    (opts : options) :
  cache_holds_singletons t ->
  is_plain_or_absent opts = true ->
  truthy (opt_aggregateOn opts) = false ->
  overwrite key t = Ok tt t1 ->
  exists t' t'',
    constant key v opts t = Ok tt t' /\
    reg_lookup key (_registry t')
      = Some (mkConfig [] true (truthy (opt_singleton opts)) v) /\
    resolve key t' = Ok v t'' /\
    history t'' = history t1 /\
    _registry t'' = _registry t' /\
    (truthy (opt_singleton opts) = false -> _resolved t'' = _resolved t1).
Proof.
  intros Hinv Hp Ha Ho.
  pose proof (overwrite_Ok_gone key t t1 Hinv Ho) as Hgone.
  set (config := mkConfig [] true (truthy (opt_singleton opts)) v).
  exists (set_registry key config t1).
  assert (Hc : constant key v opts t = Ok tt (set_registry key config t1)).
  { unfold constant.
    rewrite (register_Ok key v _ t t1 []); auto. }
  assert (Hl : reg_lookup key (_registry (set_registry key config t1)) = Some config).
  { cbn [set_registry _registry]. apply reg_lookup_set_eq. }
  unfold resolve, resolve_fuel.
  erewrite _resolve_constant; [| exact Hl | intros [] | exact Hgone | reflexivity].
  unfold cache_result. cbn [isSingleton config snd fst alloc].
  destruct (truthy (opt_singleton opts)); cbn [negb]; eexists;
    (split; [exact Hc|]); (split; [exact Hl|]); (split; [reflexivity|]);
    cbn [history _registry _resolved set_resolved set_registry]; auto.
  split; [reflexivity|]. split; [reflexivity|]. discriminate.
Qed.

Lemma X6_constant_resolves_verbatim_witness :
  exists t' t'',
    constant "answer" (VFun Answer) no_opts empty_tree = Ok tt t' /\
    reg_lookup "answer" (_registry t')
      = Some (mkConfig [] true false (VFun Answer)) /\
    resolve "answer" t' = Ok (VFun Answer) t'' /\
    history t'' = [] /\
    _registry t'' = _registry t' /\
    (false = false -> _resolved t'' = ∅).
Proof.
  apply (X6_constant_resolves_verbatim empty_tree empty_tree "answer" (VFun Answer)
           no_opts).
  - intros k r H. cbn in H. rewrite lookup_empty in H. discriminate.
  - reflexivity.
  - reflexivity.
  - reflexivity.
Defined.

(** X7. A factory registration that succeeds (plain or no options, no
    [aggregateOn], [constant] falsy, a function whose parameter list can be
    read) installs exactly one record, under its own key: it carries the
    parsed parameter names as dependencies, the function itself and the
    singleton flag; every other key keeps its record; the cache and the
    history are those the overwrite path left. *)
Theorem X7_register_installs_record (t t1 : Tree) (key : string) (f : JsFunction)
    (text : string) (opts : options) :
  is_plain_or_absent opts = true ->
  truthy (opt_aggregateOn opts) = false ->
  truthy (opt_constant opts) = false ->
  fn_argDecl f = Some text ->
  overwrite key t = Ok tt t1 ->
  exists t' deps,
    register key (VFun f) opts t = Ok tt t' /\
    _findDependencies f t1 = Ok deps t1 /\
    reg_lookup key (_registry t')
      = Some (mkConfig deps false (truthy (opt_singleton opts)) (VFun f)) /\
    (forall k, k <> key -> reg_lookup k (_registry t') = reg_lookup k (_registry t)) /\
    _resolved t' = _resolved t1 /\
    history t' = history t1.
Proof.
  intros Hp Ha Hc Hf Ho.
  pose proof (overwrite_shrinks key t) as Hs. rewrite Ho in Hs. cbn [after] in Hs.
  destruct Hs as [HR _ _].
  assert (Hd : _findDependencies f t1 =
               Ok (List.filter (fun d => truthy_key d) (map trim (split_comma text))) t1).
  { unfold _findDependencies. now rewrite Hf. }
  eexists. eexists. split.
  { apply register_Ok; eauto. rewrite Hc. cbn [declared_dependencies negb]. exact Hd. }
  split; [exact Hd|]. cbn [set_registry _registry _resolved history]. rewrite Hc, HR.
  split; [apply reg_lookup_set_eq|].
  split; [intros k Hk; now apply reg_lookup_set_ne|].
  auto.
Qed.

Lemma X7_register_installs_record_witness :
  exists t' deps,
    register "errorPlugin" (VFun TestPlugin) no_opts empty_tree = Ok tt t' /\
    _findDependencies TestPlugin empty_tree = Ok deps empty_tree /\
    reg_lookup "errorPlugin" (_registry t')
      = Some (mkConfig deps false false (VFun TestPlugin)) /\
    (forall k, k <> "errorPlugin" -> reg_lookup k (_registry t') = None) /\
    _resolved t' = ∅ /\
    history t' = [].
Proof.
  apply (X7_register_installs_record empty_tree empty_tree "errorPlugin" TestPlugin
           "errorParser" no_opts); reflexivity.
Defined.

(** ** Reading the parameter list *)

Lemma split_comma_no_comma s : has_comma s = false -> split_comma s = [s].
Proof.
  induction s as [|c s IH]; [reflexivity|]. cbn [has_comma split_comma].
  intros H. apply orb_false_iff in H as [Hc Hs]. rewrite Hc, (IH Hs). reflexivity.
Qed.

Lemma append_String c a b : String c a +:+ b = String c (a +:+ b).
Proof. reflexivity. Qed.

Lemma split_comma_append a b :
  has_comma a = false ->
  split_comma (a +:+ String ","%char b) = a :: split_comma b.
Proof.
  induction a as [|c a IH]; [reflexivity|].
  rewrite append_String. cbn [has_comma split_comma].
  intros H. apply orb_false_iff in H as [Hc Ha]. rewrite Hc, (IH Ha). reflexivity.
Qed.

Lemma is_name_inv n :
  is_name n = true -> n <> "" /\ has_comma n = false /\ trim n = n.
Proof.
  unfold is_name. intros H.
  apply andb_true_iff in H as [H H3]. apply andb_true_iff in H as [H1 H2].
  apply negb_true_iff in H1, H2. apply String.eqb_neq in H1. apply String.eqb_eq in H3.
  auto.
Qed.

Lemma trim_leading_space s : trim (String " "%char s) = trim s.
Proof. reflexivity. Qed.

Lemma split_join_comma names :
  Forall (fun n => is_name n = true) names ->
  names <> [] ->
  List.filter (fun d => truthy_key d) (map trim (split_comma (join_comma names))) = names /\
  List.filter (fun d => truthy_key d)
    (map trim (split_comma (String " "%char (join_comma names)))) = names.
Proof.
  induction 1 as [|n names Hn Hall IH]; [congruence|]. intros _.
  apply is_name_inv in Hn as (Hne & Hcomma & Htrim).
  assert (Htk : truthy_key n = true).
  { unfold truthy_key. apply negb_true_iff. now apply String.eqb_neq. }
  destruct names as [|m names].
  - cbn [join_comma]. split.
    + rewrite split_comma_no_comma by auto. cbn [map List.filter].
      rewrite Htrim, Htk. reflexivity.
    + rewrite (split_comma_no_comma (String " "%char n)).
      * cbn [map List.filter]. rewrite trim_leading_space, Htrim, Htk. reflexivity.
      * cbn [has_comma]. rewrite Hcomma. reflexivity.
  - destruct IH as [_ IH]; [discriminate|].
    change (join_comma (n :: m :: names))
      with (n +:+ String ","%char (String " "%char (join_comma (m :: names)))).
    split.
    + rewrite split_comma_append by auto. cbn [map List.filter].
      rewrite Htrim, Htk. f_equal. exact IH.
    + rewrite <- append_String.
      rewrite split_comma_append by (cbn [has_comma]; now rewrite Hcomma).
      cbn [map List.filter]. rewrite trim_leading_space, Htrim, Htk. f_equal. exact IH.
Qed.

(** X8. Reading back a printed parameter list: for a function whose
    parameter text is a list of names separated by a comma and a space (each
    name non-empty, without comma, without white space at either end),
    [_findDependencies] returns exactly these names, in their order; the
    empty parameter list gives no dependency. *)
Theorem X8_findDependencies_reads_names (names : list string) (f : JsFunction)
    (t : Tree) :
  Forall (fun n => is_name n = true) names ->
  fn_argDecl f = Some (join_comma names) ->
  _findDependencies f t = Ok names t.
Proof.
  intros Hall Hf. unfold _findDependencies. rewrite Hf. f_equal.
  destruct names as [|n names]; [reflexivity|].
  apply split_join_comma; [exact Hall|discriminate].
Qed.

Lemma X8_findDependencies_reads_names_witness :
  _findDependencies (mkFn (Some "log, errorParser, queue") false false ReturnsNothing)
    empty_tree
  = Ok ["log"; "errorParser"; "queue"] empty_tree.
Proof.
  apply (X8_findDependencies_reads_names ["log"; "errorParser"; "queue"]).
  - repeat constructor.
  - reflexivity.
Defined.

Section Strip.
Variable ws1 : ascii -> bool.
Variable ws2 : ascii -> ascii -> bool.
Variable ws3 : ascii -> ascii -> ascii -> bool.

Lemma strip_cases (l : list ascii) :
  (starts_with ws1 ws2 ws3 l = false /\ strip ws1 ws2 ws3 l = l) \/
  (exists p l', l = p ++ l' /\ p <> [] /\
                strip ws1 ws2 ws3 l = strip ws1 ws2 ws3 l').
Proof.
  destruct l as [|c1 l1]; [left; auto|]. cbn [strip starts_with].
  destruct (ws1 c1) eqn:E1.
  { right. exists [c1], l1. repeat split; auto; discriminate. }
  destruct l1 as [|c2 l2]; [left; auto|].
  destruct (ws2 c1 c2) eqn:E2.
  { right. exists [c1; c2], l2. repeat split; auto; discriminate. }
  destruct l2 as [|c3 l3]; [left; auto|].
  destruct (ws3 c1 c2 c3) eqn:E3.
  { right. exists [c1; c2; c3], l3. repeat split; auto; discriminate. }
  left. auto.
Qed.

Lemma strip_spec : forall n (l : list ascii), length l <= n ->
  (exists p, l = p ++ strip ws1 ws2 ws3 l) /\
  starts_with ws1 ws2 ws3 (strip ws1 ws2 ws3 l) = false.
Proof.
  induction n as [|n IH]; intros l Hlen.
  - destruct l; [|cbn [length] in Hlen; lia]. split; [exists []; reflexivity|reflexivity].
  - destruct (strip_cases l) as [[Hs He]|(p & l' & -> & Hp & He)].
    + rewrite He. split; [exists []; reflexivity|exact Hs].
    + rewrite He. destruct (IH l') as [[q Hq] Hn].
      { rewrite length_app in Hlen. destruct p; [congruence|].
        cbn [length] in Hlen. lia. }
      split; [|exact Hn]. exists (p ++ q). rewrite <- app_assoc. now rewrite <- Hq.
Qed.

Lemma strip_suffix (l : list ascii) : exists p, l = p ++ strip ws1 ws2 ws3 l.
Proof. apply (strip_spec (length l)). lia. Qed.

Lemma strip_clean (l : list ascii) :
  starts_with ws1 ws2 ws3 (strip ws1 ws2 ws3 l) = false.
Proof. apply (strip_spec (length l)). lia. Qed.

Lemma strip_id (l : list ascii) :
  starts_with ws1 ws2 ws3 l = false -> strip ws1 ws2 ws3 l = l.
Proof.
  destruct l as [|c1 [|c2 [|c3 l3]]]; cbn [strip starts_with]; intros H;
    repeat (apply orb_false_iff in H as [? H]);
    repeat match goal with E : _ = false |- _ => rewrite E; clear E end;
    try rewrite H; reflexivity.
Qed.

Lemma strip_idem (l : list ascii) :
  strip ws1 ws2 ws3 (strip ws1 ws2 ws3 l) = strip ws1 ws2 ws3 l.
Proof. apply strip_id, strip_clean. Qed.

Lemma starts_with_app (p q : list ascii) :
  starts_with ws1 ws2 ws3 p = true -> starts_with ws1 ws2 ws3 (p ++ q) = true.
Proof.
  destruct p as [|c1 [|c2 [|c3 p3]]]; cbn [starts_with app]; intros H;
    try discriminate;
    repeat match type of H with
           | (_ || _) = true => apply orb_true_iff in H as [H|H]
           end;
    rewrite ?H, ?orb_true_r; try reflexivity; try discriminate.
Qed.
End Strip.

Lemma trim_end_prefix l : exists q, l = trim_end l ++ q.
Proof.
  unfold trim_end.
  destruct (strip_suffix is_space (fun c2 c1 => is_space2 c1 c2)
              (fun c3 c2 c1 => is_space3 c1 c2 c3) (rev l)) as [p Hp].
  exists (rev p). rewrite <- rev_app_distr, <- Hp. now rewrite rev_involutive.
Qed.

Lemma trim_start_suffix l : exists p, l = p ++ trim_start l.
Proof. apply strip_suffix. Qed.

Lemma trim_list_idem l :
  trim_end (trim_start (trim_end (trim_start l))) = trim_end (trim_start l).
Proof.
  assert (Hs : trim_start (trim_end (trim_start l)) = trim_end (trim_start l)).
  { apply strip_id.
    destruct (starts_with is_space is_space2 is_space3 (trim_end (trim_start l))) eqn:E;
      [|reflexivity].
    destruct (trim_end_prefix (trim_start l)) as [q Hq].
    pose proof (starts_with_app _ _ _ _ q E) as Hc. rewrite <- Hq in Hc.
    unfold trim_start in Hc. now rewrite strip_clean in Hc. }
  rewrite Hs. unfold trim_end. rewrite rev_involutive. now rewrite strip_idem.
Qed.

Lemma trim_idem s : trim (trim s) = trim s.
Proof.
  unfold trim. rewrite list_ascii_of_string_of_list_ascii. now rewrite trim_list_idem.
Qed.

Lemma has_comma_In s :
  has_comma s = false <-> ~ In ","%char (list_ascii_of_string s).
Proof.
  induction s as [|c s IH]; cbn [has_comma list_ascii_of_string In]; [tauto|].
  rewrite orb_false_iff, IH. split.
  - intros [Hc Hs] [E|H]; [|tauto]. subst c. discriminate.
  - intros H. split; [|tauto]. apply Ascii.eqb_neq. intros ->. tauto.
Qed.

Lemma has_comma_trim s : has_comma s = false -> has_comma (trim s) = false.
Proof.
  rewrite !has_comma_In. unfold trim. rewrite list_ascii_of_string_of_list_ascii.
  intros H Hin. apply H.
  destruct (trim_start_suffix (list_ascii_of_string s)) as [p Hp].
  destruct (trim_end_prefix (trim_start (list_ascii_of_string s))) as [q Hq].
  rewrite Hp, Hq. apply in_or_app. right. apply in_or_app. now left.
Qed.

Lemma split_comma_pieces s : Forall (fun w => has_comma w = false) (split_comma s).
Proof.
  induction s as [|c s IH]; [repeat constructor|]. cbn [split_comma].
  destruct (Ascii.eqb c ","%char) eqn:Ec; [constructor; [reflexivity|exact IH]|].
  destruct (split_comma s) as [|w ws]; [repeat constructor; cbn; now rewrite Ec|].
  inversion IH; subst. constructor; [|assumption]. cbn [has_comma]. now rewrite Ec.
Qed.

(** X9. Whatever the parameter text, every dependency [_findDependencies]
    returns is a name: not empty, without comma and without white space at
    either end (so no registration ever depends on the empty key); the
    container is not touched, and the only failure is the TypeError for a
    function text in which no parameter list is found. *)
Theorem X9_findDependencies_yields_names (f : JsFunction) (t : Tree) :
  match _findDependencies f t with
  | Ok deps t' => t' = t /\ Forall (fun d => is_name d = true) deps
  | Throw e t' => t' = t /\ e = TypeError "argDecl[1]" /\ fn_argDecl f = None
  | OutOfFuel => False
  end.
Proof.
  unfold _findDependencies. destruct (fn_argDecl f) as [text|]; [|auto].
  split; [reflexivity|]. apply List.Forall_forall. intros d Hd.
  apply filter_In in Hd as [Hd Hk]. apply in_map_iff in Hd as (w & <- & Hw).
  pose proof (split_comma_pieces text) as Hp.
  rewrite List.Forall_forall in Hp. specialize (Hp w Hw).
  unfold is_name. unfold truthy_key in Hk. rewrite Hk, trim_idem, String.eqb_refl.
  rewrite has_comma_trim by exact Hp. reflexivity.
Qed.

(** The no-break space (U+00A0) and the byte-order mark (U+FEFF) are white
    space to [trim], as are the ASCII ones; a parameter list with a no-break
    space after the comma gives the two names. *)
Example trim_strips_unicode_space :
  trim (String (ascii_of_nat 194) (String (ascii_of_nat 160)
          ("a " +:+ String (ascii_of_nat 239) (String (ascii_of_nat 187)
                      (String (ascii_of_nat 191) ""))))) = "a" /\
  _findDependencies
    (mkFn (Some ("a," +:+ String (ascii_of_nat 194) (String (ascii_of_nat 160) "b")))
          false false ReturnsNothing) empty_tree
    = Ok ["a"; "b"] empty_tree.
Proof. split; vm_compute; reflexivity. Qed.

(** ** Registering the properties of an object *)

(** X10. [register(object, opts)] that returns has registered every own
    property of the object under its name, with the property's value and the
    flags of the one options argument (the third argument, or the second when
    the third is undefined); the records of all other keys are as before. *)
Theorem X10_register_object_registers_each (key : list (string * value))
    (val : options) (opts : option options) (t t' : Tree) :
  List.NoDup (map fst key) ->
  register_object key val opts t = Ok tt t' ->
  (forall k v, In (k, v) key ->
     exists deps,
       reg_lookup k (_registry t')
       = Some (mkConfig deps
                 (truthy (opt_constant (object_form_options val opts)))
                 (truthy (opt_singleton (object_form_options val opts))) v)) /\
  (forall k, ~ In k (map fst key) ->
     reg_lookup k (_registry t') = reg_lookup k (_registry t)).
Proof.
  unfold register_object. set (o := object_form_options val opts).
  revert t. induction key as [|[k0 v0] key IH]; intros t Hnd H.
  - inversion H; subst t'. split; [intros k v []|auto].
  - cbn [map fst] in Hnd. apply NoDup_cons_iff in Hnd as [Hnotin Hnd].
    cbn [forEach fst snd] in H.
    apply bind_Ok_inv in H as ([] & t1 & Hreg & Hrest).
    apply register_Ok_inv in Hreg as (t0 & deps & Ho & Hd & ->).
    pose proof (overwrite_shrinks k0 t) as Hs. rewrite Ho in Hs. cbn [after] in Hs.
    destruct Hs as [HR _ _].
    destruct (IH _ Hnd Hrest) as (IH1 & IH2).
    cbn [set_registry _registry] in IH2. rewrite HR in IH2.
    split.
    + intros k v [E|Hin].
      * inversion E; subst k0 v0. exists deps.
        rewrite IH2 by exact Hnotin. apply reg_lookup_set_eq.
      * apply IH1. exact Hin.
    + intros k Hk. cbn [map fst] in Hk.
      rewrite IH2 by (intros Hin; apply Hk; now right).
      apply reg_lookup_set_ne. intros ->. apply Hk. now left.
Qed.

Lemma X10_register_object_registers_each_witness :
  exists deps,
    reg_lookup "errorParser"
      (_registry
         (empty_tree |> register_object
            [("errorPlugin", VFun TestPlugin); ("errorParser", VFun DefaultErrorParser)]
            no_opts None))
    = Some (mkConfig deps false false (VFun DefaultErrorParser)).
Proof.
  refine (proj1 (X10_register_object_registers_each
              [("errorPlugin", VFun TestPlugin); ("errorParser", VFun DefaultErrorParser)]
              no_opts None empty_tree
              (empty_tree |> register_object
                 [("errorPlugin", VFun TestPlugin); ("errorParser", VFun DefaultErrorParser)]
                 no_opts None) _ eq_refl)
            "errorParser" (VFun DefaultErrorParser) (or_intror (or_introl eq_refl))).
  repeat constructor; cbn; intuition discriminate.
Defined.

(** ** Resolving every key *)





(** ** What a teardown leaves untouched *)

Lemma torn_down_refl t : torn_down t t.
Proof.
  exists []. rewrite app_nil_r. split; [reflexivity|]. split; [constructor|].
  intros k r H1 H2. congruence.
Qed.

Lemma torn_down_trans a b c :
  shrinks a b /\ torn_down a b -> shrinks b c /\ torn_down b c ->
  shrinks a c /\ torn_down a c.
Proof.
  intros [Sab (e1 & H1 & F1 & G1)] [Sbc (e2 & H2 & F2 & G2)].
  split; [eapply shrinks_trans; eauto|].
  exists (e1 ++ e2). split; [rewrite H2, H1; now rewrite app_assoc|].
  split; [apply List.Forall_app; auto|].
  intros k r Ha Hc. destruct (_resolved b !! k) as [r'|] eqn:Hb.
  - assert (r' = r) as ->.
    { pose proof (lookup_weaken _ _ _ _ Hb (shr_resolved _ _ Sab)). congruence. }
    destruct (G2 k r Hb Hc) as (I1 & I2 & I3).
    repeat split; apply in_or_app; now right.
  - destruct (G1 k r Ha Hb) as (I1 & I2 & I3).
    repeat split; apply in_or_app; now left.
Qed.

Lemma torn_down_record t t1 e :
  shrinks t t1 /\ torn_down t t1 -> is_apply e = false ->
  shrinks t (record e t1) /\ torn_down t (record e t1).
Proof.
  intros [[R C N] (evs & H & F & G)] He. split; [constructor; assumption|].
  exists (evs ++ [e]). cbn [record history _resolved].
  split; [rewrite H; now rewrite app_assoc|].
  split; [apply List.Forall_app; split; [exact F|repeat constructor; exact He]|].
  intros k r Hk Hn. destruct (G k r Hk Hn) as (I1 & I2 & I3).
  repeat split; apply in_or_app; now left.
Qed.

Lemma _destroy_torn_down fuel : forall key t,
  after (_destroy fuel key t) (fun t' => shrinks t t' /\ torn_down t t').
Proof.
  induction fuel as [|n IH]; intros key t; [exact I|].
  cbn [_destroy].
  pose proof (forEach_state (fun a b => shrinks a b /\ torn_down a b) (_destroy n)
                (dependsOnKey key t)
                (fun s => conj (shrinks_refl s) (torn_down_refl s))
                torn_down_trans (fun x s _ => IH x s) t) as Hf.
  destruct (_resolved t !! key) as [resolved|] eqn:Hc.
  2:{ destruct (prototype_member key);
        [|cbn [after]; split; [apply shrinks_refl|apply torn_down_refl]].
      destruct (forEach (_destroy n) (dependsOnKey key t) t) as [[] t1|e t1|];
        cbn [bind after] in *; auto. }
  destruct (forEach (_destroy n) (dependsOnKey key t) t) as [[] t1|e t1|];
    cbn [bind after] in *; auto.
  unfold emit_destroy. destruct (obj_emit (context resolved)); cbn [bind after]; auto.
  pose proof (torn_down_record t t1 (EvEmit (context resolved)) Hf eq_refl) as H2.
  unfold removeAllListeners_destroy.
  destruct (obj_removeAllListeners (context resolved)); cbn [bind after]; auto.
  pose proof (torn_down_record t _ (EvRemoveAllListeners (context resolved)) H2 eq_refl)
    as H3.
  clear H2. destruct Hf as [[R C N] (evs & H & F & G)].
  destruct H3 as [_ (evs3 & H3 & F3 & G3)].
  cbn [record history _resolved _registry next_obj] in H3.
  split.
  - constructor; cbn [delete_resolved record _registry _resolved next_obj]; auto.
    etransitivity; [apply delete_subseteq|exact C].
  - exists (evs ++ [EvEmit (context resolved); EvRemoveAllListeners (context resolved);
                    EvDelete key]).
    cbn [delete_resolved record history _resolved].
    split; [rewrite H; now rewrite <- !app_assoc|].
    split; [apply List.Forall_app; split; [exact F|repeat constructor]|].
    intros k r Hk Hn. destruct (decide (k = key)) as [->|Hne].
    + assert (r = resolved) as -> by congruence.
      repeat split; apply in_or_app; right; cbn; auto.
    + rewrite lookup_delete_ne in Hn by auto.
      destruct (G k r Hk Hn) as (I1 & I2 & I3).
      repeat split; apply in_or_app; now left.
Qed.

(** X12. [destroy], with or without a key and whether it returns or throws,
    never changes the registry, never adds or replaces a cache entry, creates
    no object and calls no factory; and no cache entry disappears without its
    teardown: for every entry that is gone, [emit] and [removeAllListeners]
    were called on its context and the entry was deleted. *)
Theorem X12_destroy_only_tears_down (t : Tree) (key : option string) :
  after (destroy key t) (fun t' =>
    _registry t' = _registry t /\
    _resolved t' ⊆ _resolved t /\
    next_obj t' = next_obj t /\
    exists evs, history t' = history t ++ evs /\
      List.Forall (fun e => is_apply e = false) evs /\
      forall k r, _resolved t !! k = Some r -> _resolved t' !! k = None ->
        In (EvEmit (context r)) evs /\
        In (EvRemoveAllListeners (context r)) evs /\
        In (EvDelete k) evs).
Proof.
  assert (Hall : forall keys,
    after (forEach (_destroy (destroy_fuel t)) keys t)
          (fun t' => shrinks t t' /\ torn_down t t')).
  { intros keys.
    apply (forEach_state (fun a b => shrinks a b /\ torn_down a b)).
    - intros s. split; [apply shrinks_refl|apply torn_down_refl].
    - apply torn_down_trans.
    - intros x s _. apply _destroy_torn_down. }
  assert (Hone : forall k,
    after (_destroy (destroy_fuel t) k t) (fun t' => shrinks t t' /\ torn_down t t'))
    by (intros k; apply _destroy_torn_down).
  assert (Hgoal : after (destroy key t) (fun t' => shrinks t t' /\ torn_down t t')).
  { unfold destroy. destruct key as [k|]; [destruct (truthy_key k)|]; auto. }
  destruct (destroy key t); cbn [after] in *; auto;
    destruct Hgoal as [[R C N] T]; auto.
Qed.

(** ** Teardown with the hooks in place *)

Lemma truthy_key_ne k : k <> "" -> truthy_key k = true.
Proof. intros H. unfold truthy_key. apply negb_true_iff. now apply String.eqb_neq. Qed.

Lemma _destroy_cached fuel key t resolved :
  _resolved t !! key = Some resolved ->
  _destroy (S fuel) key t =
    forEach (_destroy fuel) (dependsOnKey key t) t >>= fun _ t1 =>
    emit_destroy (context resolved) t1 >>= fun _ t2 =>
    removeAllListeners_destroy (context resolved) t2 >>= fun _ t3 =>
    Ok tt (delete_resolved key t3).
Proof. intros H. cbn [_destroy]. now rewrite H. Qed.

Lemma reg_lookup_In_pair key r config :
  reg_lookup key r = Some config -> In (key, config) r.
Proof.
  induction r as [|[k c] r IH]; cbn [reg_lookup]; [discriminate|].
  destruct (String.eqb k key) eqn:E.
  - apply String.eqb_eq in E. intros H. inversion H; subst. now left.
  - intros H. right. auto.
Qed.

(** X13. In a container without record under a member name of
    [Object.prototype], with the teardown hooks in place on every cached
    context and no cycle among cached dependents, [destroy(K)] of a cached key
    [K] returns: every registered key other than the empty key that lists [K]
    among its dependencies is without cache entry afterwards, each one that
    had an entry was evicted before [K]'s own teardown, which comes last
    ([emit], [removeAllListeners], delete); the registry is unchanged. *)
Theorem X13_destroy_cascades_to_dependents (rank : string -> nat) (t : Tree)
    (K : string) (rK : Resolved) :
  plain_registry t ->
  teardown_ready t -> ranked rank t ->
  (forall k, is_Some (_resolved t !! k) -> rank k < size (_resolved t)) ->
  K <> "" ->
  _resolved t !! K = Some rK ->
  exists t' evs0,
    destroy (Some K) t = Ok tt t' /\
    _registry t' = _registry t /\
    _resolved t' !! K = None /\
    history t' = history t ++ evs0 ++
      [EvEmit (context rK); EvRemoveAllListeners (context rK); EvDelete K] /\
    forall D config,
      reg_lookup D (_registry t) = Some config ->
      contains (dependencies config) K = true ->
      D <> "" ->
      _resolved t' !! D = None /\
      (is_Some (_resolved t !! D) -> In (EvDelete D) evs0).
Proof.
  intros Hplain Hready Hrank Hbound HK Hc.
  destruct (_destroy_cascade rank (destroy_fuel t) K t Hplain)
    as (t' & evs & Hd & Hs & Hh & Hg & _ & Hlast); auto.
  { intros E. congruence. }
  { intros Hsome. specialize (Hbound K Hsome). unfold destroy_fuel. lia. }
  { unfold destroy_fuel. lia. }
  destruct (Hlast rK Hc) as (evs0 & -> & Hdeps).
  exists t', evs0. unfold destroy. rewrite (truthy_key_ne K HK).
  split; [exact Hd|]. split; [apply (shr_registry _ _ Hs)|].
  split; [exact Hg|]. split; [exact Hh|].
  intros D config HD Hcon HDne. apply Hdeps.
  eapply dependsOnKey_In; eauto using reg_lookup_In_pair.
Qed.

Lemma emitter_dependent_tree_registry :
  _registry emitter_dependent_tree =
    [("K", mkConfig [] false true (VFun EmitterService));
     ("D", mkConfig ["K"] false true (VFun EmitterNeedsK))].
Proof. vm_compute. reflexivity. Qed.

Lemma emitter_dependent_tree_resolved :
  _resolved emitter_dependent_tree =
    <["D" := mkResolved (mkObj 1 true true) (VObj (mkObj 1 true true))]>
      (<["K" := mkResolved (mkObj 0 true true) (VObj (mkObj 0 true true))]>
         (∅ : gmap string Resolved)).
Proof. reflexivity. Qed.

Lemma emitter_dependent_tree_plain : plain_registry emitter_dependent_tree.
Proof. plain_keys. Qed.

Lemma emitter_dependent_tree_ready : teardown_ready emitter_dependent_tree.
Proof.
  intros k r Hk. rewrite emitter_dependent_tree_resolved in Hk.
  destruct (decide (k = "D")) as [->|HD].
  { rewrite lookup_insert_eq in Hk. inversion Hk. auto. }
  rewrite lookup_insert_ne in Hk by auto.
  destruct (decide (k = "K")) as [->|HK].
  { rewrite lookup_insert_eq in Hk. inversion Hk. auto. }
  rewrite lookup_insert_ne in Hk by auto. rewrite lookup_empty in Hk. discriminate.
Qed.

Lemma emitter_dependent_tree_ranked : ranked rank_K_over_D emitter_dependent_tree.
Proof.
  intros k d Hk Hd Hcd. unfold rank_K_over_D.
  unfold dependsOnKey in Hd. rewrite emitter_dependent_tree_registry in Hd.
  cbn [map snd fst dependencies contains existsb] in Hd.
  rewrite orb_false_r in Hd.
  destruct (String.eqb k "K") eqn:E; cbn in Hd.
  - destruct Hd as [<-|[]]. cbn. lia.
  - destruct Hd.
Qed.

Lemma emitter_dependent_tree_bound k :
  is_Some (_resolved emitter_dependent_tree !! k) ->
  rank_K_over_D k < size (_resolved emitter_dependent_tree).
Proof.
  intros _.
  assert (Hsz : size (_resolved emitter_dependent_tree) = 2) by (vm_compute; reflexivity).
  rewrite Hsz. unfold rank_K_over_D. destruct (String.eqb k "K"); lia.
Qed.

Lemma X13_destroy_cascades_to_dependents_witness :
  exists t' evs0,
    destroy (Some "K") emitter_dependent_tree = Ok tt t' /\
    _registry t' = _registry emitter_dependent_tree /\
    _resolved t' !! "K" = None /\
    history t' = history emitter_dependent_tree ++ evs0 ++
      [EvEmit (mkObj 0 true true); EvRemoveAllListeners (mkObj 0 true true);
       EvDelete "K"] /\
    forall D config,
      reg_lookup D (_registry emitter_dependent_tree) = Some config ->
      contains (dependencies config) "K" = true ->
      D <> "" ->
      _resolved t' !! D = None /\
      (is_Some (_resolved emitter_dependent_tree !! D) -> In (EvDelete D) evs0).
Proof.
  apply (X13_destroy_cascades_to_dependents rank_K_over_D emitter_dependent_tree "K"
           (mkResolved (mkObj 0 true true) (VObj (mkObj 0 true true)))).
  - exact emitter_dependent_tree_plain.
  - exact emitter_dependent_tree_ready.
  - exact emitter_dependent_tree_ranked.
  - exact emitter_dependent_tree_bound.
  - discriminate.
  - reflexivity.
Defined.

(** X14. The cascade only passes through cached keys.  In a container
    without record under a member name of [Object.prototype] (which
    [register] cannot create), when none of the keys that list [K] among
    their dependencies has a cache entry (non-singleton factories never have
    one), [destroy(K)] on a cached [K] whose context answers the hooks removes
    the entry of [K] and nothing else: a cached singleton that was built from
    [K] through such a factory keeps its entry. *)
Theorem X14_cascade_stops_at_uncached (t : Tree) (K : string) (rK : Resolved) :
  plain_registry t ->
  K <> "" ->
  _resolved t !! K = Some rK ->
  obj_emit (context rK) = true ->
  obj_removeAllListeners (context rK) = true ->
  (forall D, In D (dependsOnKey K t) -> _resolved t !! D = None) ->
  exists t',
    destroy (Some K) t = Ok tt t' /\
    _registry t' = _registry t /\
    _resolved t' = delete K (_resolved t) /\
    history t' = history t ++
      [EvEmit (context rK); EvRemoveAllListeners (context rK); EvDelete K].
Proof.
  intros Hplain HK Hc He Hr Hdeps.
  assert (Hloop : forall n ds,
            (forall D, In D ds -> prototype_member D = false) ->
            (forall D, In D ds -> _resolved t !! D = None) ->
            forEach (_destroy (S n)) ds t = Ok tt t).
  { intros n. induction ds as [|d ds IH]; intros Hpd Hds; [reflexivity|].
    cbn [forEach].
    rewrite _destroy_unresolved by (first [apply Hpd|apply Hds]; now left).
    cbn [bind]. apply IH; intros D HD; [apply Hpd|apply Hds]; now right. }
  eexists. unfold destroy. rewrite (truthy_key_ne K HK).
  unfold destroy_fuel. change (2 + size (_resolved t)) with (S (S (size (_resolved t)))).
  rewrite (_destroy_cached _ _ _ _ Hc),
    (Hloop _ _ (fun D HD => plain_registry_dependent K t D Hplain HD) Hdeps).
  cbn [bind]. unfold emit_destroy, removeAllListeners_destroy. rewrite He.
  cbn [bind]. rewrite Hr. cbn [bind].
  split; [reflexivity|].
  cbn [delete_resolved record _registry _resolved history].
  split; [reflexivity|]. split; [reflexivity|]. now rewrite <- !app_assoc.
Qed.

Lemma X14_cascade_stops_at_uncached_witness :
  (exists t',
     destroy (Some "K") through_factory_tree = Ok tt t' /\
     _registry t' = _registry through_factory_tree /\
     _resolved t' = delete "K" (_resolved through_factory_tree) /\
     history t' = history through_factory_tree ++
       [EvEmit (mkObj 0 true true); EvRemoveAllListeners (mkObj 0 true true);
        EvDelete "K"]) /\
  In "E" (dependsOnKey "M" through_factory_tree) /\
  In "M" (dependsOnKey "K" through_factory_tree) /\
  is_Some (delete "K" (_resolved through_factory_tree) !! "E").
Proof.
  split; [|split; [|split]].
  - apply (X14_cascade_stops_at_uncached through_factory_tree "K"
             (mkResolved (mkObj 0 true true) (VObj (mkObj 0 true true)))).
    + plain_keys.
    + discriminate.
    + reflexivity.
    + reflexivity.
    + reflexivity.
    + intros D HD.
      assert (Hd : dependsOnKey "K" through_factory_tree = ["M"])
        by (vm_compute; reflexivity).
      rewrite Hd in HD. destruct HD as [<-|[]]. reflexivity.
  - vm_compute. auto.
  - vm_compute. auto.
  - rewrite lookup_delete_ne by discriminate. vm_compute. eauto.
Defined.

(** X15. With the teardown hooks in place on every cached context and no
    cycle among cached dependents, [destroy()] without a key returns and
    leaves the cache of a container empty, with the registry as it was.  (The
    container is one in which the cache only holds registered singletons and
    no record sits under a member name of [Object.prototype], as in every
    container built with the public operations.) *)
Theorem X15_destroy_all_empties_cache (rank : string -> nat) (t : Tree) :
  cache_holds_singletons t ->
  plain_registry t ->
  teardown_ready t -> ranked rank t ->
  (forall k, is_Some (_resolved t !! k) -> rank k < size (_resolved t)) ->
  exists t',
    destroy None t = Ok tt t' /\
    _registry t' = _registry t /\
    _resolved t' = ∅.
Proof.
  intros Hinv Hplain Hready Hrank Hbound.
  destruct (destroy_all_with_hooks rank t Hplain Hready Hrank Hbound)
    as (t' & Hd & HR & Hg).
  rewrite destroy_empty_key_is_destroy_all in Hd.
  exists t'. split; [exact Hd|]. split; [exact HR|].
  apply map_empty. intros k.
  destruct (_resolved t !! k) as [r|] eqn:Hk.
  - destruct (Hinv k r Hk) as (config & Hl & _).
    eapply Hg. eauto.
  - pose proof (destroy_shrinks None t) as Hs. rewrite Hd in Hs. cbn [after] in Hs.
    eapply shrinks_gone; eauto.
Qed.

Lemma X15_destroy_all_empties_cache_witness :
  exists t',
    destroy None emitter_dependent_tree = Ok tt t' /\
    _registry t' = _registry emitter_dependent_tree /\
    _resolved t' = ∅.
Proof.
  apply (X15_destroy_all_empties_cache rank_K_over_D emitter_dependent_tree).
  - apply reachable_cache_holds_singletons. unfold emitter_dependent_tree.
    unfold singleton. reach.
  - exact emitter_dependent_tree_plain.
  - exact emitter_dependent_tree_ready.
  - exact emitter_dependent_tree_ranked.
  - exact emitter_dependent_tree_bound.
Defined.

(** X16. Teardown and resolution compose: after a [destroy(key)] that
    returned, a [resolve(key)] of a factory key that returns has called the
    factory again, as its last step, on a context created after the teardown;
    the value handed back is that call's result (or the new context), and it
    is what the cache holds when the key is a singleton. *)
Theorem X16_destroy_then_resolve_rebuilds (t t' t'' : Tree) (key : string)
    (config : Config) (f : JsFunction) (v : value) :
  reg_lookup key (_registry t) = Some config ->
  isConstant config = false ->
  value_of config = VFun f ->
  destroy (Some key) t = Ok tt t' ->
  resolve key t' = Ok v t'' ->
  exists ctx args evs,
    history t'' = history t' ++ evs ++ [EvApply key f ctx args] /\
    next_obj t <= obj_id ctx /\
    v = factory_result f ctx args /\
    (isSingleton config = true -> _resolved t'' !! key = Some (mkResolved ctx v)).
Proof.
  intros Hreg Hk Hval Hd Hres.
  assert (Hgone : _resolved t' !! key = None).
  { eapply destroy_Ok_gone; [|exact Hd]. eapply isRegistered_record. eauto. }
  pose proof (destroy_shrinks (Some key) t) as Hs. rewrite Hd in Hs. cbn [after] in Hs.
  destruct Hs as [HR _ HN].
  assert (Hreg' : reg_lookup key (_registry t') = Some config) by now rewrite HR.
  unfold resolve in Hres.
  destruct (_resolve_factory_built _ _ [] _ _ _ _ _ Hreg' (fun x : In key [] => x)
              Hgone Hk Hval Hres)
    as (n & args & tm & Hfuel & Hm & Hv & Hr1 & Hc1 & Hh1 & Hn1).
  pose proof (mapM_resolve_extends n ([] ++ [key]) (dependencies config) t') as Hext.
  rewrite Hm in Hext. cbn [after] in Hext.
  destruct Hext as [ER EC EN [evs EH] EW].
  exists (mkObj (next_obj tm) (fn_emit f) (fn_removeAllListeners f)), args, evs.
  split; [rewrite Hh1, EH; now rewrite <- app_assoc|].
  split; [cbn [obj_id]; lia|]. split; [exact Hv|].
  intros Hs. rewrite Hc1, Hs. apply lookup_insert_eq.
Qed.

Lemma X16_destroy_then_resolve_rebuilds_witness :
  exists ctx args evs,
    history (emitter_tree |> destroy (Some "service") |> resolve "service")
      = history (emitter_tree |> destroy (Some "service")) ++ evs ++
        [EvApply "service" EmitterService ctx args] /\
    next_obj emitter_tree <= obj_id ctx /\
    VObj (mkObj 1 true true) = factory_result EmitterService ctx args /\
    (true = true ->
     _resolved (emitter_tree |> destroy (Some "service") |> resolve "service")
       !! "service" = Some (mkResolved ctx (VObj (mkObj 1 true true)))).
Proof.
  apply (X16_destroy_then_resolve_rebuilds emitter_tree
           (emitter_tree |> destroy (Some "service"))
           (emitter_tree |> destroy (Some "service") |> resolve "service")
           "service" (mkConfig [] false true (VFun EmitterService)) EmitterService
           (VObj (mkObj 1 true true)));
    reflexivity.
Defined.

(** ** Teardown over a cycle of cached keys *)

Lemma forEach_Ok_inv {A} (f : A -> Tree -> result unit) x xs t t' :
  forEach f (x :: xs) t = Ok tt t' ->
  exists t1, f x t = Ok tt t1 /\ forEach f xs t1 = Ok tt t'.
Proof.
  cbn [forEach]. intros H. apply bind_Ok_inv in H as ([] & t1 & H1 & H2). eauto.
Qed.

(** While every key of [C] is cached and has a dependent in [C], a teardown
    that returns was not asked for a key of [C] and has evicted none. *)
Lemma _destroy_cycle (C : string -> Prop) (registry : list (string * Config))
    (Hdep : forall t k, _registry t = registry -> C k ->
              exists d, C d /\ In d (dependsOnKey k t)) :
  forall fuel key t t',
    _registry t = registry ->
    (forall k, C k -> is_Some (_resolved t !! k)) ->
    _destroy fuel key t = Ok tt t' ->
    ~ C key /\ forall k, C k -> is_Some (_resolved t' !! k).
Proof.
  induction fuel as [|n IH]; intros key t t' HR Hc H; [discriminate|].
  destruct (_resolved t !! key) as [resolved|] eqn:Hk.
  2:{ rewrite _destroy_absent in H by exact Hk.
      destruct (prototype_member key).
      - apply bind_Ok_inv in H as ([] & t1 & _ & H). discriminate.
      - inversion H; subst t'.
        split; [|exact Hc]. intros HC. destruct (Hc key HC) as [r Hr]. congruence. }
  rewrite (_destroy_cached _ _ _ _ Hk) in H.
  apply bind_Ok_inv in H as ([] & t1 & Hf & H).
  assert (Hloop : forall ds s s',
    _registry s = registry ->
    (forall k, C k -> is_Some (_resolved s !! k)) ->
    forEach (_destroy n) ds s = Ok tt s' ->
    (forall d, In d ds -> ~ C d) /\
    _registry s' = registry /\
    forall k, C k -> is_Some (_resolved s' !! k)).
  { induction ds as [|d ds IHds]; intros s s' HRs Hcs Hfs.
    - inversion Hfs; subst s'. split; [intros d []|]. auto.
    - apply forEach_Ok_inv in Hfs as (s1 & Hd1 & Hrest).
      destruct (IH d s s1 HRs Hcs Hd1) as [HnC Hc1].
      pose proof (_destroy_shrinks n d s) as Hs. rewrite Hd1 in Hs. cbn [after] in Hs.
      assert (HR1 : _registry s1 = registry) by (rewrite (shr_registry _ _ Hs); exact HRs).
      destruct (IHds s1 s' HR1 Hc1 Hrest) as (Hall & HR' & Hc').
      split; [|auto]. intros d' [<-|Hin]; auto. }
  destruct (Hloop _ _ _ HR Hc Hf) as (Hall & HR1 & Hc1).
  assert (HnC : ~ C key).
  { intros HC. destruct (Hdep t key HR HC) as (d & HCd & Hin). exact (Hall d Hin HCd). }
  split; [exact HnC|].
  apply bind_Ok_inv in H as ([] & t2 & He & H).
  apply bind_Ok_inv in H as ([] & t3 & Hr & H).
  inversion H; subst t'. cbn [delete_resolved _resolved].
  unfold emit_destroy in He. destruct (obj_emit (context resolved)); [|discriminate].
  inversion He; subst t2.
  unfold removeAllListeners_destroy in Hr.
  destruct (obj_removeAllListeners (context resolved)); [|discriminate].
  inversion Hr; subst t3. cbn [record _resolved].
  intros k HCk. rewrite lookup_delete_ne by (intros ->; contradiction). auto.
Qed.

Lemma _destroy_never_throws_with_hooks fuel : forall key t,
  plain_registry t ->
  (_resolved t !! key = None -> prototype_member key = false) ->
  teardown_ready t ->
  match _destroy fuel key t with Throw _ _ => False | _ => True end.
Proof.
  induction fuel as [|n IH]; intros key t Hplain Hproto Hready; [exact I|].
  destruct (_resolved t !! key) as [resolved|] eqn:Hk.
  2:{ now rewrite _destroy_unresolved by auto. }
  rewrite (_destroy_cached _ _ _ _ Hk).
  assert (Hloop : forall ds s,
    plain_registry s -> (forall d, In d ds -> prototype_member d = false) ->
    teardown_ready s ->
    match forEach (_destroy n) ds s with Throw _ _ => False | _ => True end).
  { induction ds as [|d ds IHds]; intros s Hp Hpd Hs; [exact I|].
    cbn [forEach].
    pose proof (IH d s Hp (fun _ => Hpd d (or_introl eq_refl)) Hs) as H1.
    pose proof (_destroy_shrinks n d s) as H2.
    destruct (_destroy n d s) as [[] s1|e s1|]; cbn [bind after] in *; auto.
    apply IHds.
    - eapply plain_registry_shrinks; eauto.
    - intros d' Hd'. apply Hpd. now right.
    - eapply teardown_ready_shrinks; eauto. }
  pose proof (Hloop (dependsOnKey key t) t Hplain
                (fun d Hd => plain_registry_dependent key t d Hplain Hd) Hready) as H1.
  destruct (forEach (_destroy n) (dependsOnKey key t) t) as [[] t1|e t1|];
    cbn [bind]; auto.
  destruct (Hready key resolved Hk) as [He Hr].
  unfold emit_destroy, removeAllListeners_destroy. rewrite He. cbn [bind].
  rewrite Hr. cbn [bind]. exact I.
Qed.

(** X17. A cycle of cached dependents is never torn down.  When every key of
    a set is cached and is listed among the dependencies of some key of the
    set (two cached singletons that depend on each other, say), [_destroy] of
    a key of the set does not return, whatever the recursion budget, and
    neither does [destroy(key)]: it throws on a context without hooks or
    recurses without end; with the hooks in place on every cached context
    (and no record under a member name of [Object.prototype], which
    [register] cannot create) it recurses without end. *)
Theorem X17_destroy_never_returns_on_cached_cycle (C : string -> Prop) (t : Tree)
    (key : string) :
  (forall k, C k ->
     is_Some (_resolved t !! k) /\ exists d, C d /\ In d (dependsOnKey k t)) ->
  C key -> key <> "" ->
  fails (destroy (Some key) t) /\
  forall fuel,
    fails (_destroy fuel key t) /\
    (teardown_ready t -> plain_registry t -> _destroy fuel key t = OutOfFuel).
Proof.
  intros HC Hkey Hne.
  assert (Hdep : forall s k, _registry s = _registry t -> C k ->
            exists d, C d /\ In d (dependsOnKey k s)).
  { intros s k HR HCk. destruct (HC k HCk) as [_ (d & HCd & Hin)].
    exists d. split; [exact HCd|].
    unfold dependsOnKey in *. now rewrite HR. }
  assert (Hfails : forall fuel, fails (_destroy fuel key t)).
  { intros fuel. unfold fails.
    destruct (_destroy fuel key t) as [[] t'|e t'|] eqn:E; auto.
    destruct (_destroy_cycle C (_registry t) Hdep fuel key t t' eq_refl
                (fun k Hk => proj1 (HC k Hk)) E) as [HnC _].
    exact (HnC Hkey). }
  split.
  - unfold destroy. rewrite (truthy_key_ne key Hne). apply Hfails.
  - intros fuel. split; [apply Hfails|]. intros Hready Hplain.
    pose proof (Hfails fuel) as H1.
    assert (H2 : match _destroy fuel key t with Throw _ _ => False | _ => True end).
    { apply _destroy_never_throws_with_hooks; auto.
      intros E. destruct (proj1 (HC key Hkey)) as [r Hr]. congruence. }
    destruct (_destroy fuel key t); cbn [fails] in *; tauto.
Qed.

Lemma X17_destroy_never_returns_on_cached_cycle_witness :
  fails (destroy (Some "A") cached_cycle_both) /\
  fails (_destroy 100 "A" cached_cycle_both).
Proof.
  destruct (X17_destroy_never_returns_on_cached_cycle
              (fun k => k = "A" \/ k = "B") cached_cycle_both "A") as [H1 H2].
  - intros k [-> | ->].
    + split; [vm_compute; eauto|]. exists "B". split; [now right|]. vm_compute. auto.
    + split; [vm_compute; eauto|]. exists "A". split; [now left|]. vm_compute. auto.
  - now left.
  - discriminate.
  - split; [exact H1|exact (proj1 (H2 100))].
Defined.

(** ** Cycles of any length *)

Lemma countBy_In path key : In key path -> 1 <= countBy path key.
Proof. unfold countBy. intros H. now apply count_occ_In. Qed.

Lemma mapM_first_throws {A B} (f : A -> Tree -> result B) x xs t e t' :
  f x t = Throw e t' -> mapM f (x :: xs) t = Throw e t'.
Proof. intros H. cbn [mapM]. now rewrite H. Qed.

Lemma _resolve_chain (t : Tree) (z : string) : forall ks a path fuel,
  dependency_chain t a ks z ->
  List.NoDup (path ++ a :: ks) ->
  In z (path ++ [a]) ->
  is_Some (reg_lookup z (_registry t)) ->
  length ks + 2 <= fuel ->
  _resolve fuel a path t = Throw (CircularDependency (path ++ a :: ks ++ [z])) t.
Proof.
  induction ks as [|b ks IH]; intros a path fuel Hch Hnd Hz Hreg Hfuel.
  - destruct Hch as (config & Hl & Hk & Hc & Hd).
    destruct fuel as [|[|n]]; cbn [length] in Hfuel; try lia.
    assert (Hnot : ~ In a path).
    { apply NoDup_remove_2 in Hnd. rewrite app_nil_r in Hnd. exact Hnd. }
    erewrite _resolve_factory by eauto.
    destruct (dependencies config) as [|d ds]; [discriminate|].
    cbn [hd_error] in Hd. inversion Hd; subst d.
    destruct Hreg as [cz Hcz].
    erewrite mapM_first_throws; [reflexivity|].
    erewrite _resolve_circular; eauto.
    now rewrite <- app_assoc.
  - destruct Hch as [(config & Hl & Hk & Hc & Hd) Hch].
    destruct fuel as [|n]; cbn [length] in Hfuel; try lia.
    assert (Hnot : ~ In a path).
    { apply NoDup_remove_2 in Hnd. intros Hin. apply Hnd.
      apply in_or_app. now left. }
    erewrite _resolve_factory by eauto.
    destruct (dependencies config) as [|d ds]; [discriminate|].
    cbn [hd_error] in Hd. inversion Hd; subst d.
    erewrite mapM_first_throws; [reflexivity|].
    rewrite (IH b (path ++ [a]) n Hch).
    + now rewrite <- app_assoc.
    + now rewrite <- app_assoc.
    + apply in_or_app. now left.
    + exact Hreg.
    + lia.
Qed.

(** X18. A cycle of any length is reported with its whole path.  When
    [k0], [k1], ..., [kn] are pairwise distinct factory keys without cache
    entry, each with the next one as its first declared dependency and [kn]
    with [k0] (a key that names itself is the case without [k1..kn]),
    [resolve(k0)] throws the circular-dependency error whose path is
    [k0, k1, ..., kn, k0], and leaves the container as it was. *)
Theorem X18_cycle_of_any_length (t : Tree) (k0 : string) (ks : list string) :
  dependency_chain t k0 ks k0 ->
  List.NoDup (k0 :: ks) ->
  resolve k0 t = Throw (CircularDependency (k0 :: ks ++ [k0])) t.
Proof.
  intros Hch Hnd.
  unfold resolve.
  rewrite <- (_resolve_extra_fuel (resolve_fuel t) (length ks + 2) k0 [] t)
    by apply resolve_total.
  apply (_resolve_chain t k0 ks k0 []); auto.
  - now left.
  - destruct ks; [destruct Hch as (c & H & _)|destruct Hch as [(c & H & _) _]];
      rewrite H; eauto.
  - lia.
Qed.

Lemma X18_cycle_of_any_length_witness :
  resolve "a" ring_tree = Throw (CircularDependency ["a"; "b"; "c"; "a"]) ring_tree.
Proof.
  apply (X18_cycle_of_any_length ring_tree "a" ["b"; "c"]).
  - split; [|split].
    + exists (mkConfig ["b"; "log"] false false
                (VFun (mkFn (Some "b, log") false false ReturnsNothing))).
      repeat split; reflexivity.
    + exists (mkConfig ["c"] false false
                (VFun (mkFn (Some "c") false false ReturnsNothing))).
      repeat split; reflexivity.
    + exists (mkConfig ["a"] false false
                (VFun (mkFn (Some "a") false false ReturnsNothing))).
      repeat split; reflexivity.
  - repeat constructor; cbn; intuition discriminate.
Defined.

(** ** The empty key *)

Lemma dependsOnKey_nonempty key t d : In d (dependsOnKey key t) -> d <> "".
Proof.
  unfold dependsOnKey. intros H. apply filter_In in H as [_ H].
  unfold truthy_key in H. apply negb_true_iff in H. now apply String.eqb_neq.
Qed.

Lemma _destroy_spares_empty_key fuel : forall key t,
  key <> "" ->
  after (_destroy fuel key t) (fun t' => _resolved t' !! "" = _resolved t !! "").
Proof.
  induction fuel as [|n IH]; intros key t Hne; [exact I|].
  assert (Hloop : forall ds s, (forall d, In d ds -> d <> "") ->
    after (forEach (_destroy n) ds s) (fun s' => _resolved s' !! "" = _resolved s !! "")).
  { induction ds as [|d ds IHds]; intros s Hds; [reflexivity|].
    cbn [forEach]. pose proof (IH d s (Hds d (or_introl eq_refl))) as H1.
    destruct (_destroy n d s) as [[] s1|e s1|]; cbn [bind after] in *; auto.
    pose proof (IHds s1 (fun d' Hd' => Hds d' (or_intror Hd'))) as H2.
    destruct (forEach (_destroy n) ds s1); cbn [after] in *; congruence. }
  pose proof (Hloop (dependsOnKey key t) t (dependsOnKey_nonempty key t)) as H1.
  destruct (_resolved t !! key) as [resolved|] eqn:Hk.
  2:{ rewrite _destroy_absent by exact Hk.
      destruct (prototype_member key); [|reflexivity].
      destruct (forEach (_destroy n) (dependsOnKey key t) t) as [[] t1|e t1|];
        cbn [bind after] in *; auto. }
  rewrite (_destroy_cached _ _ _ _ Hk).
  destruct (forEach (_destroy n) (dependsOnKey key t) t) as [[] t1|e t1|];
    cbn [bind after] in *; auto.
  unfold emit_destroy. destruct (obj_emit (context resolved)); cbn [bind after]; auto.
  unfold removeAllListeners_destroy.
  destruct (obj_removeAllListeners (context resolved)); cbn [bind after]; auto.
  cbn [delete_resolved record _resolved]. now rewrite lookup_delete_ne by auto.
Qed.

(** X19. A registration under the empty key is outside every cascade: its
    name is dropped with the [null]s when the dependents of a key are
    collected, so [destroy(K)] for a non-empty [K], whether it returns or
    throws, leaves the cache entry of the empty key exactly as it was, even
    when that registration depends on [K]. *)
Theorem X19_destroy_spares_empty_key (t : Tree) (K : string) :
  K <> "" ->
  after (destroy (Some K) t) (fun t' => _resolved t' !! "" = _resolved t !! "").
Proof.
  intros HK. unfold destroy. rewrite (truthy_key_ne K HK).
  now apply _destroy_spares_empty_key.
Qed.

Lemma X19_destroy_spares_empty_key_witness :
  after (destroy (Some "K") empty_dependent_tree)
    (fun t' => _resolved t' !! "" = _resolved empty_dependent_tree !! "") /\
  reg_lookup "" (_registry empty_dependent_tree)
    = Some (mkConfig ["K"] false true (VFun EmitterNeedsK)) /\
  _resolved (empty_dependent_tree |> destroy (Some "K")) !! "K" = None /\
  is_Some (_resolved (empty_dependent_tree |> destroy (Some "K")) !! "").
Proof.
  split; [|split; [|split]].
  - apply (X19_destroy_spares_empty_key empty_dependent_tree "K"). discriminate.
  - reflexivity.
  - reflexivity.
  - vm_compute. eauto.
Defined.

(** ** Registering over a resolved key *)

(** X20. Registering a new factory over a key other than the empty key that
    is registered and cached invalidates what was built from the old one.  In
    a container without record under a member name of [Object.prototype],
    with the teardown hooks in place on every cached context and no cycle
    among cached dependents, the registration returns; the key and every
    registered key other than the empty key that lists it among its
    dependencies are without cache entry afterwards, the record holds the new
    function, and a following [resolve(key)] that returns has called the new
    function. *)
Theorem X20_overwrite_invalidates (rank : string -> nat) (t : Tree) (K : string)
    (rK : Resolved) (f : JsFunction) (text : string) (opts : options) :
  plain_registry t ->
  teardown_ready t -> ranked rank t ->
  (forall k, is_Some (_resolved t !! k) -> rank k < size (_resolved t)) ->
  K <> "" ->
  isRegistered K t = true ->
  _resolved t !! K = Some rK ->
  is_plain_or_absent opts = true ->
  truthy (opt_aggregateOn opts) = false ->
  truthy (opt_constant opts) = false ->
  fn_argDecl f = Some text ->
  exists t',
    register K (VFun f) opts t = Ok tt t' /\
    _resolved t' !! K = None /\
    (forall D config,
       reg_lookup D (_registry t) = Some config ->
       contains (dependencies config) K = true ->
       D <> "" ->
       _resolved t' !! D = None) /\
    (exists deps, reg_lookup K (_registry t')
       = Some (mkConfig deps false (truthy (opt_singleton opts)) (VFun f))) /\
    forall v t'', resolve K t' = Ok v t'' ->
      exists ctx args evs,
        history t'' = history t' ++ evs ++ [EvApply K f ctx args] /\
        v = factory_result f ctx args.
Proof.
  intros Hplain Hready Hrank Hbound HK HregK Hc Hp Ha Hcst Hf.
  destruct (_destroy_cascade rank (destroy_fuel t) K t Hplain)
    as (t1 & evs & Hd & Hs & Hh & Hg & _ & Hlast); auto.
  { intros E. congruence. }
  { intros Hsome. specialize (Hbound K Hsome). unfold destroy_fuel. lia. }
  { unfold destroy_fuel. lia. }
  destruct (Hlast rK Hc) as (evs0 & -> & Hdeps).
  assert (Ho : overwrite K t = Ok tt t1).
  { unfold overwrite, destroy. now rewrite HregK, (truthy_key_ne K HK). }
  set (deps := List.filter (fun d => truthy_key d) (map trim (split_comma text))).
  set (config := mkConfig deps false (truthy (opt_singleton opts)) (VFun f)).
  assert (Hreg : register K (VFun f) opts t = Ok tt (set_registry K config t1)).
  { unfold config. rewrite <- Hcst. apply register_Ok; auto.
    rewrite Hcst. cbn [declared_dependencies negb]. unfold _findDependencies.
    now rewrite Hf. }
  exists (set_registry K config t1). split; [exact Hreg|].
  cbn [set_registry _resolved _registry history].
  split; [exact Hg|]. split.
  { intros D cfgD HD Hcon HDne. apply Hdeps.
    eapply dependsOnKey_In; eauto using reg_lookup_In_pair. }
  split; [exists deps; apply reg_lookup_set_eq|].
  intros v t'' Hres. unfold resolve in Hres.
  destruct (_resolve_factory_built (resolve_fuel (set_registry K config t1)) K []
              (set_registry K config t1) config f v t'')
    as (n & args & tm & Hfuel & Hm & Hv & Hr1 & Hc1 & Hh1 & Hn1); auto.
  { cbn [set_registry _registry]. apply reg_lookup_set_eq. }
  pose proof (mapM_resolve_extends n ([] ++ [K]) (dependencies config)
                (set_registry K config t1)) as Hext.
  rewrite Hm in Hext. cbn [after] in Hext.
  destruct Hext as [ER EC EN [evs1 EH] EW].
  exists (mkObj (next_obj tm) (fn_emit f) (fn_removeAllListeners f)), args, evs1.
  split; [|exact Hv].
  rewrite Hh1, EH. cbn [set_registry history]. now rewrite <- app_assoc.
Qed.

Lemma X20_overwrite_invalidates_witness :
  exists t',
    register "K" (VFun EmitterService) (OptsObject VUndefined VUndefined (VPrim (PBool true)))
      emitter_dependent_tree = Ok tt t' /\
    _resolved t' !! "K" = None /\
    (forall D config,
       reg_lookup D (_registry emitter_dependent_tree) = Some config ->
       contains (dependencies config) "K" = true ->
       D <> "" ->
       _resolved t' !! D = None) /\
    (exists deps, reg_lookup "K" (_registry t')
       = Some (mkConfig deps false true (VFun EmitterService))) /\
    forall v t'', resolve "K" t' = Ok v t'' ->
      exists ctx args evs,
        history t'' = history t' ++ evs ++ [EvApply "K" EmitterService ctx args] /\
        v = factory_result EmitterService ctx args.
Proof.
  apply (X20_overwrite_invalidates rank_K_over_D emitter_dependent_tree "K"
           (mkResolved (mkObj 0 true true) (VObj (mkObj 0 true true)))
           EmitterService ""
           (OptsObject VUndefined VUndefined (VPrim (PBool true)))).
  - exact emitter_dependent_tree_plain.
  - exact emitter_dependent_tree_ready.
  - exact emitter_dependent_tree_ranked.
  - exact emitter_dependent_tree_bound.
  - discriminate.
  - reflexivity.
  - reflexivity.
  - reflexivity.
  - reflexivity.
  - reflexivity.
  - reflexivity.
Defined.

(** ** A registration that fails *)

Lemma bind_Throw_inv {A B} (m : result A) (f : A -> Tree -> result B) e t' :
  m >>= f = Throw e t' ->
  m = Throw e t' \/ exists a t1, m = Ok a t1 /\ f a t1 = Throw e t'.
Proof.
  destruct m as [a t1|e1 t1|]; cbn [bind]; intros H.
  - right. exists a, t1. auto.
  - left. inversion H. reflexivity.
  - discriminate.
Qed.

Lemma forEach_Throw_inv {A} (f : A -> Tree -> result unit) : forall xs t e t',
  forEach f xs t = Throw e t' -> exists x s, In x xs /\ f x s = Throw e t'.
Proof.
  induction xs as [|x xs IH]; intros t e t' H; [discriminate|].
  cbn [forEach] in H. apply bind_Throw_inv in H as [H|([] & t1 & _ & H)].
  - exists x, t. split; [now left|exact H].
  - destruct (IH _ _ _ H) as (x' & s & Hin & Hx). exists x', s. split; [now right|exact Hx].
Qed.

Lemma _destroy_throws_TypeError fuel : forall key t e t',
  _destroy fuel key t = Throw e t' -> exists what, e = TypeError what.
Proof.
  induction fuel as [|n IH]; intros key t e t' H; [discriminate|].
  destruct (_resolved t !! key) as [resolved|] eqn:Hk.
  2:{ rewrite _destroy_absent in H by exact Hk.
      destruct (prototype_member key); [|discriminate].
      apply bind_Throw_inv in H as [H|([] & t1 & _ & H)].
      - apply forEach_Throw_inv in H as (x & s & _ & H). eapply IH; eauto.
      - inversion H. eauto. }
  rewrite (_destroy_cached _ _ _ _ Hk) in H.
  apply bind_Throw_inv in H as [H|([] & t1 & _ & H)].
  { apply forEach_Throw_inv in H as (x & s & _ & H). eapply IH; eauto. }
  unfold emit_destroy in H. destruct (obj_emit (context resolved)); cbn [bind] in H.
  2:{ inversion H. eauto. }
  unfold removeAllListeners_destroy in H.
  destruct (obj_removeAllListeners (context resolved)); cbn [bind] in H.
  - discriminate.
  - inversion H. eauto.
Qed.

(** X22. A registration that fails installs nothing.  Leaving [aggregateOn]
    aside, whenever [register(key, value, opts)] throws, the registry is as
    it was and the cache has gained nothing; the error is the one for options
    that are not a plain object, the one for a factory that is not a
    function, or a TypeError (from a teardown hook on the overwrite path or
    from a function text without parameter list). *)
Theorem X22_failed_registration_keeps_registry (t t' : Tree) (key : string)
    (val : value) (opts : options) (e : exn) :
  truthy (opt_aggregateOn opts) = false ->
  register key val opts t = Throw e t' ->
  _registry t' = _registry t /\
  _resolved t' ⊆ _resolved t /\
  (e = InvalidOptions \/ e = NotAFactory key \/ exists what, e = TypeError what).
Proof.
  intros Ha H. unfold register in H.
  assert (Hgen : opts = OptsNotPlain /\ e = InvalidOptions /\ t' = t \/
    overwrite key t >>= (fun _ t1 =>
      declared_dependencies key val (truthy (opt_constant opts)) t1 >>= fun deps t2 =>
      aggregate (opt_aggregateOn opts)
        (set_registry key
           (mkConfig deps (truthy (opt_constant opts)) (truthy (opt_singleton opts)) val)
           t2)) = Throw e t').
  { destruct opts; [right; exact H|left; inversion H; auto|right; exact H]. }
  clear H. destruct Hgen as [(_ & -> & ->)|H]; [auto|].
  pose proof (overwrite_shrinks key t) as Hs.
  apply bind_Throw_inv in H as [H|([] & t1 & Ho & H)].
  - rewrite H in Hs. cbn [after] in Hs. destruct Hs as [R C _].
    split; [exact R|]. split; [exact C|]. right. right.
    unfold overwrite in H. destruct (isRegistered key t); [|discriminate].
    unfold destroy in H.
    destruct (truthy_key key).
    + eapply _destroy_throws_TypeError; eauto.
    + apply forEach_Throw_inv in H as (x & s & _ & H).
      eapply _destroy_throws_TypeError; eauto.
  - rewrite Ho in Hs. cbn [after] in Hs. destruct Hs as [R C _].
    apply bind_Throw_inv in H as [H|(deps & t2 & _ & H)].
    + pose proof (declared_dependencies_state key val (truthy (opt_constant opts)) t1)
        as Hd.
      rewrite H in Hd. cbn [after] in Hd. subst t'.
      split; [exact R|]. split; [exact C|].
      unfold declared_dependencies in H.
      destruct (negb (truthy (opt_constant opts))); [|discriminate].
      destruct val as [| | |f|]; try (inversion H; auto; fail).
      unfold _findDependencies in H. destruct (fn_argDecl f); [discriminate|].
      inversion H. eauto.
    + unfold aggregate in H. rewrite Ha in H. discriminate.
Qed.

Lemma X22_failed_registration_keeps_registry_witness :
  _registry empty_tree = _registry empty_tree /\
  _resolved empty_tree ⊆ _resolved empty_tree /\
  (NotAFactory "answer" = InvalidOptions \/
   NotAFactory "answer" = NotAFactory "answer" \/
   exists what, NotAFactory "answer" = TypeError what).
Proof.
  apply (X22_failed_registration_keeps_registry empty_tree empty_tree "answer"
           (VPrim (PNum 42)) no_opts (NotAFactory "answer")); reflexivity.
Defined.

(** ** Teardown of what was never resolved *)

(** X23. [destroy] is safe on what is not resolved.  With a non-empty key
    that is no member name of [Object.prototype] and has no cache entry
    (registered or not) it returns at once; without a key, or with the empty
    key, it returns whenever no registered key has a cache entry or is such a
    member name.  In both cases the container is exactly as before: no hook
    is called and nothing is deleted. *)
Theorem X23_destroy_unresolved_is_noop (t : Tree) (key : option string) :
  match key with
  | Some k =>
      if truthy_key k then prototype_member k = false /\ _resolved t !! k = None
      else plain_registry t /\
           forall x, In x (Object_keys (_registry t)) -> _resolved t !! x = None
  | None => plain_registry t /\
            forall x, In x (Object_keys (_registry t)) -> _resolved t !! x = None
  end ->
  destroy key t = Ok tt t.
Proof.
  assert (Hall : forall n ks,
            (forall x, In x ks -> prototype_member x = false) ->
            (forall x, In x ks -> _resolved t !! x = None) ->
            forEach (_destroy (S n)) ks t = Ok tt t).
  { intros n. induction ks as [|k ks IH]; intros Hpk Hks; [reflexivity|].
    cbn [forEach].
    rewrite _destroy_unresolved by (first [apply Hpk|apply Hks]; now left).
    cbn [bind]. apply IH; intros x Hx; [apply Hpk|apply Hks]; now right. }
  unfold destroy, destroy_fuel.
  change (2 + size (_resolved t)) with (S (S (size (_resolved t)))).
  destruct key as [k|]; [destruct (truthy_key k)|]; intros [H1 H2].
  - now apply _destroy_unresolved.
  - now apply Hall.
  - now apply Hall.
Qed.

Lemma X23_destroy_unresolved_is_noop_witness :
  destroy None plugin_tree = Ok tt plugin_tree /\
  destroy (Some "errorParser") plugin_tree = Ok tt plugin_tree /\
  destroy (Some "never registered") plugin_tree = Ok tt plugin_tree.
Proof.
  split; [|split].
  - apply (X23_destroy_unresolved_is_noop plugin_tree None).
    split; [plain_keys|]. intros x _. reflexivity.
  - reflexivity.
  - reflexivity.
Defined.

(** * Errors of registration and resolution, in general *)

(** ** Registration of a value that is not a factory *)

Lemma _destroy_Ok_dependents fuel key t t' r :
  _resolved t !! key = Some r ->
  _destroy fuel key t = Ok tt t' ->
  forall D, In D (dependsOnKey key t) -> _resolved t' !! D = None.
Proof.
  intros Hc H D HD. destruct fuel as [|n]; [discriminate|].
  rewrite (_destroy_cached _ _ _ _ Hc) in H.
  apply bind_Ok_inv in H as ([] & t1 & Hf & H).
  pose proof (forEach_destroy_gone n _ _ _ D HD Hf) as Hg.
  apply bind_Ok_inv in H as ([] & t2 & He & H).
  apply bind_Ok_inv in H as ([] & t3 & Hr & H). inversion H; subst t'.
  unfold emit_destroy in He. destruct (obj_emit (context r)); [|discriminate].
  inversion He; subst t2.
  unfold removeAllListeners_destroy in Hr.
  destruct (obj_removeAllListeners (context r)); [|discriminate].
  inversion Hr; subst t3. cbn [delete_resolved record _resolved].
  destruct (decide (D = key)) as [->|Hne];
    [apply lookup_delete_eq|rewrite lookup_delete_ne by auto; exact Hg].
Qed.

Lemma destroy_throws_TypeError key t e t' :
  destroy key t = Throw e t' -> exists what, e = TypeError what.
Proof.
  unfold destroy. intros H.
  assert (Hall : forall ks, forEach (_destroy (destroy_fuel t)) ks t = Throw e t' ->
                            exists what, e = TypeError what).
  { intros ks Hf. apply forEach_Throw_inv in Hf as (x & s & _ & Hf).
    eapply _destroy_throws_TypeError; eauto. }
  destruct key as [k|]; [destruct (truthy_key k)|]; eauto.
  eapply _destroy_throws_TypeError; eauto.
Qed.

(** C8, amended. Let the value not be callable and the options be absent or a
    plain object whose [constant] is falsy.  If [isRegistered(key)] answers
    [false], [register] throws the not-a-factory error, whose message ends
    with the key, and leaves the container exactly as it was.  If it answers
    [true], the overwrite path runs [destroy(key)] first.  When that returns,
    [register] throws the same error from the container [destroy] left: the
    registry is unchanged, the cache has gained nothing and has no entry for
    the key any more, and when the key had an entry, none either for any
    registered key other than the empty key that lists the key among its
    dependencies.  When [destroy] throws, [register] throws that TypeError.
    In every case the call installs no record. *)
Theorem C8_not_a_factory (t : Tree) (key : string) (val : value) (opts : options) :
  is_callable val = false ->
  is_plain_or_absent opts = true ->
  truthy (opt_constant opts) = false ->
  NotAFactory key = JsError ("Cannot register non-function as factory: " +:+ key) /\
  (isRegistered key t = false ->
     register key val opts t = Throw (NotAFactory key) t) /\
  (forall t', isRegistered key t = true -> destroy (Some key) t = Ok tt t' ->
     register key val opts t = Throw (NotAFactory key) t' /\
     _registry t' = _registry t /\ _resolved t' ⊆ _resolved t /\
     _resolved t' !! key = None /\
     (is_Some (_resolved t !! key) ->
      forall D config,
        reg_lookup D (_registry t) = Some config ->
        contains (dependencies config) key = true ->
        D <> "" ->
        _resolved t' !! D = None)) /\
  (forall e t', isRegistered key t = true -> destroy (Some key) t = Throw e t' ->
     register key val opts t = Throw e t' /\ exists what, e = TypeError what) /\
  after (register key val opts t) (fun t' => _registry t' = _registry t).
Proof.
  intros Hcall Hopts Hconst.
  assert (Hreg : register key val opts t =
    overwrite key t >>= fun _ t1 => Throw (NotAFactory key) t1).
  { assert (Hdeps : forall t1, declared_dependencies key val false t1
                               = Throw (NotAFactory key) t1).
    { intros t1. unfold declared_dependencies.
      destruct val; simpl in *; try discriminate; reflexivity. }
    unfold register. destruct opts; try discriminate;
      cbn [opt_constant] in Hconst |- *; try rewrite Hconst;
      cbn [truthy]; destruct (overwrite key t) as [[] t1|e t1|];
      cbn [bind]; auto; now rewrite Hdeps. }
  unfold overwrite in Hreg.
  split; [reflexivity|]. split; [|split; [|split]].
  - intros Hno. rewrite Hreg, Hno. reflexivity.
  - intros t' Hyes Hd. rewrite Hreg, Hyes, Hd. cbn [bind].
    pose proof (destroy_shrinks (Some key) t) as Hs. rewrite Hd in Hs.
    cbn [after] in Hs. destruct Hs as [R C N].
    split; [reflexivity|]. split; [exact R|]. split; [exact C|].
    split; [eapply destroy_Ok_gone; eauto|].
    intros [r Hr] D config HD Hcon HDne. unfold destroy in Hd.
    destruct (truthy_key key).
    + eapply _destroy_Ok_dependents; eauto.
      eapply dependsOnKey_In; eauto using reg_lookup_In_pair.
    + eapply forEach_destroy_gone; [|exact Hd]. eapply reg_lookup_In; eauto.
  - intros e t' Hyes Hd. rewrite Hreg, Hyes, Hd. cbn [bind].
    split; [reflexivity|]. eapply destroy_throws_TypeError; eauto.
  - rewrite Hreg. destruct (isRegistered key t); cbn [bind after]; auto.
    pose proof (destroy_shrinks (Some key) t) as Hs.
    destruct (destroy (Some key) t) as [[] t1|e t1|]; cbn [bind after] in *; auto;
      apply (shr_registry _ _ Hs).
Qed.

Lemma C8_not_a_factory_witness :
  register "errorParser" (VPrim (PNum 5)) no_opts empty_tree
    = Throw (NotAFactory "errorParser") empty_tree.
Proof.
  exact (proj1 (proj2 (C8_not_a_factory empty_tree "errorParser"
            (VPrim (PNum 5)) no_opts eq_refl eq_refl eq_refl)) eq_refl).
Defined.

(** C8 as stated fails.  Registering a number under a key that holds a
    resolved singleton throws the not-a-factory error only after the cached
    instance has been torn down and evicted; and registering a number under a
    member name of [Object.prototype], for which [isRegistered] answers
    [true], throws the TypeError of the overwrite path instead. *)
Lemma C8_counterexample :
  reachable emitter_tree /\
  is_callable (VPrim (PNum 5)) = false /\
  _resolved emitter_tree !! "service"
    = Some (mkResolved (mkObj 0 true true) (VObj (mkObj 0 true true))) /\
  register "service" (VPrim (PNum 5)) no_opts emitter_tree
    = Throw (NotAFactory "service")
        (emitter_tree |> register "service" (VPrim (PNum 5)) no_opts) /\
  _resolved (emitter_tree |> register "service" (VPrim (PNum 5)) no_opts)
    !! "service" = None /\
  register "toString" (VPrim (PNum 5)) no_opts empty_tree
    = Throw (TypeError "context.emit") empty_tree.
Proof.
  split; [unfold emitter_tree; reach|].
  repeat split; vm_compute; reflexivity.
Qed.

(** ** A requester whose dependency throws *)

Lemma mapM_app {A B} (f : A -> Tree -> result B) : forall xs ys t,
  mapM f (xs ++ ys) t =
  mapM f xs t >>= fun a t1 => mapM f ys t1 >>= fun b t2 => Ok (a ++ b) t2.
Proof.
  induction xs as [|x xs IH]; intros ys t; cbn [mapM app bind].
  - destruct (mapM f ys t); reflexivity.
  - destruct (f x t) as [y t1|e t1|]; cbn [bind]; auto.
    rewrite IH. destruct (mapM f xs t1) as [a t2|e t2|]; cbn [bind]; auto.
    destruct (mapM f ys t2); reflexivity.
Qed.

Lemma mapM_aborts {A B} (f : A -> Tree -> result B) pre d post t args t1 e t2 :
  mapM f pre t = Ok args t1 ->
  f d t1 = Throw e t2 ->
  mapM f (pre ++ d :: post) t = Throw e t2.
Proof. intros Hp Hd. rewrite mapM_app, Hp. cbn [bind mapM]. now rewrite Hd. Qed.

Lemma NoDup_snoc (path : list string) key :
  List.NoDup path -> ~ In key path -> List.NoDup (path ++ [key]).
Proof.
  intros Hnd Hin. apply List.NoDup_app; repeat split; auto.
  - repeat constructor. simpl. tauto.
  - intros y Hy [<-|[]]. contradiction.
Qed.

Lemma incl_snoc (path keys : list string) key :
  incl path keys -> In key keys -> incl (path ++ [key]) keys.
Proof.
  intros Hincl Hk y Hy. apply in_app_or in Hy.
  destruct Hy as [Hy|[<-|[]]]; auto.
Qed.

(** Below the top frame a call of [_resolve] has the budget of [resolve]
    less the frames above it, and that is enough. *)
Lemma resolve_under_budget p d t :
  List.NoDup p ->
  incl p (Object_keys (_registry t)) ->
  p <> [] ->
  _resolve (length (_registry t)) d p t = resolve_under p d t.
Proof.
  intros Hnd Hincl Hp. unfold resolve_under, resolve_fuel. symmetry.
  apply _resolve_more_fuel. apply _resolve_total; auto.
  destruct p; [congruence|]. simpl. lia.
Qed.

Lemma mapM_resolve_under p t0 :
  List.NoDup p ->
  incl p (Object_keys (_registry t0)) ->
  p <> [] ->
  forall ds t, _registry t = _registry t0 ->
  mapM (fun d => _resolve (length (_registry t0)) d p) ds t
    = mapM (resolve_under p) ds t.
Proof.
  intros Hnd Hincl Hp. induction ds as [|d ds IH]; intros t Ht; [reflexivity|].
  cbn [mapM]. rewrite <- (resolve_under_budget p d t) by (rewrite ?Ht; auto).
  rewrite Ht.
  pose proof (_resolve_extends (length (_registry t0)) d p t) as He.
  destruct (_resolve (length (_registry t0)) d p t) as [y t1|e t1|];
    cbn [bind]; auto.
  rewrite IH; auto. cbn [after] in He. rewrite (ext_registry _ _ He). exact Ht.
Qed.

Lemma mapM_resolve_under_extends p ds t :
  after (mapM (resolve_under p) ds t) (extends t).
Proof.
  apply mapM_state; [apply extends_refl|apply extends_trans|].
  intros x s _. apply _resolve_extends.
Qed.

(** A factory key without cache entry hands on what one of its dependencies
    throws, when the dependencies listed before that one resolve. *)
Lemma requester_aborts path key t config pre d post args t1 e t2 :
  reg_lookup key (_registry t) = Some config ->
  ~ In key path ->
  _resolved t !! key = None ->
  isConstant config = false ->
  dependencies config = pre ++ d :: post ->
  List.NoDup path ->
  incl path (Object_keys (_registry t)) ->
  mapM (resolve_under (path ++ [key])) pre t = Ok args t1 ->
  resolve_under (path ++ [key]) d t1 = Throw e t2 ->
  resolve_under path key t = Throw e t2.
Proof.
  intros Hreg Hin Hc Hk Hd Hnd Hincl Hpre Hthrow.
  unfold resolve_under, resolve_fuel.
  erewrite _resolve_factory by eauto.
  rewrite (mapM_resolve_under (path ++ [key]) t); auto.
  - rewrite Hd, (mapM_aborts _ _ _ _ _ _ _ _ _ Hpre Hthrow). reflexivity.
  - now apply NoDup_snoc.
  - apply incl_snoc; auto. eapply reg_lookup_In; eauto.
  - destruct path; discriminate.
Qed.

(** ** A cycle of two keys *)

Lemma append_nil_r (s : string) : s +:+ "" = s.
Proof.
  induction s as [|c s IH]; [reflexivity|]. rewrite append_String. now f_equal.
Qed.

Lemma mapM_Ok_blocked {A B} (I : Tree -> Prop) (f : A -> Tree -> result B) (b : A) :
  forall xs t ys t',
  (forall x s y s', I s -> f x s = Ok y s' -> I s' /\ x <> b) ->
  I t -> mapM f xs t = Ok ys t' -> I t' /\ ~ In b xs.
Proof.
  induction xs as [|x xs IH]; intros t ys t' Hf Ht H.
  - inversion H; subst. auto.
  - apply mapM_Ok_inv in H as (y & t1 & ys' & Hy & Hm & ->).
    destruct (Hf _ _ _ _ Ht Hy) as [H1 Hx].
    destruct (IH _ _ _ Hf H1 Hm) as [H2 Hn]. split; auto.
    intros [E|E]; auto.
Qed.

(** While [A] is among the requesters, a factory key [B] that lists [A] and
    has no cache entry cannot be resolved, and gets no cache entry. *)
Lemma _resolve_blocked A B cfgA cfgB n : forall key path s v s',
  In A path ->
  isConstant cfgB = false ->
  In A (dependencies cfgB) ->
  reg_lookup A (_registry s) = Some cfgA /\
  reg_lookup B (_registry s) = Some cfgB /\
  _resolved s !! B = None ->
  _resolve n key path s = Ok v s' ->
  (reg_lookup A (_registry s') = Some cfgA /\
   reg_lookup B (_registry s') = Some cfgB /\
   _resolved s' !! B = None) /\
  key <> B.
Proof.
  induction n as [|n IH]; intros key path s v s' HA Hk HAB (RA & RB & CB) H;
    [discriminate|].
  assert (Hreg' : _registry s' = _registry s).
  { pose proof (_resolve_extends (S n) key path s) as He. rewrite H in He.
    apply (ext_registry _ _ He). }
  rewrite Hreg'.
  destruct (reg_lookup key (_registry s)) as [config|] eqn:Hreg.
  2:{ rewrite _resolve_no_record in H by auto.
      unfold resolve_without_record in H.
      destruct (negb (prototype_member key)); [discriminate|].
      destruct (negb (key =? "__proto__")%string && (1 <? countBy (path ++ [key]) key));
        [discriminate|].
      destruct (_resolved s !! key); inversion H; subst.
      repeat split; auto. intros ->. congruence. }
  destruct (in_dec string_dec key path) as [Hin|Hin].
  { erewrite _resolve_circular in H by eauto. discriminate. }
  destruct (_resolved s !! key) as [cached|] eqn:Hc.
  { erewrite _resolve_hit in H by eauto. inversion H; subst.
    repeat split; auto. intros ->. congruence. }
  destruct (isConstant config) eqn:Hkc.
  { assert (Hne : key <> B) by (intros ->; congruence).
    erewrite _resolve_constant in H by eauto.
    pose proof (cache_result_other key config
      (mkObj (next_obj s) false false, value_of config)
      (snd (alloc false false s))) as Ho.
    rewrite H in Ho. cbn [after] in Ho.
    repeat split; auto. rewrite (Ho B) by auto. exact CB. }
  erewrite _resolve_factory in H by eauto.
  apply bind_Ok_inv in H as (cv & s2 & H & Hcache).
  apply bind_Ok_inv in H as (args & s1 & Hm & Hinv).
  destruct (mapM_Ok_blocked
    (fun s => reg_lookup A (_registry s) = Some cfgA /\
              reg_lookup B (_registry s) = Some cfgB /\
              _resolved s !! B = None)
    (fun dependency => _resolve n dependency (path ++ [key])) A
    (dependencies config) s args s1) as [(_ & _ & CB1) HnA]; auto.
  { intros x u y u' Hu Hx.
    destruct (IH x (path ++ [key]) u y u') as [Hu' _]; auto.
    { apply in_or_app. now left. }
    split; [exact Hu'|]. intros ->. destruct n as [|n]; [discriminate|].
    erewrite _resolve_circular in Hx; [discriminate|apply Hu|].
    apply in_or_app. now left. }
  assert (Hne : key <> B).
  { intros ->. rewrite RB in Hreg. inversion Hreg; subst. contradiction. }
  repeat split; auto.
  pose proof (invoke_factory_resolved key (value_of config) args s1) as Hi.
  rewrite Hinv in Hi. cbn [after] in Hi.
  pose proof (cache_result_other key config cv s2) as Ho.
  rewrite Hcache in Ho. cbn [after] in Ho.
  rewrite (Ho B) by auto. rewrite Hi. exact CB1.
Qed.

Lemma cycle_member_throws A B cfgA cfgB t :
  reg_lookup A (_registry t) = Some cfgA ->
  reg_lookup B (_registry t) = Some cfgB ->
  isConstant cfgA = false ->
  isConstant cfgB = false ->
  In B (dependencies cfgA) ->
  In A (dependencies cfgB) ->
  _resolved t !! A = None ->
  _resolved t !! B = None ->
  exists e t', resolve A t = Throw e t'.
Proof.
  intros RA RB KA KB DA DB CA CB.
  destruct (resolve A t) as [v t'|e t'|] eqn:E; eauto.
  2:{ now apply resolve_total in E. }
  exfalso. unfold resolve, resolve_fuel in E.
  erewrite _resolve_factory in E by eauto.
  apply bind_Ok_inv in E as (cv & s2 & E & _).
  apply bind_Ok_inv in E as (args & s1 & Hm & _).
  destruct (mapM_Ok_blocked
    (fun s => reg_lookup A (_registry s) = Some cfgA /\
              reg_lookup B (_registry s) = Some cfgB /\
              _resolved s !! B = None)
    (fun dependency => _resolve (length (_registry t)) dependency ([] ++ [A])) B
    (dependencies cfgA) t args s1) as [_ Hn]; auto.
  intros x u y u' Hu Hx.
  eapply (_resolve_blocked A B cfgA cfgB _ x ([] ++ [A]) u y u'); eauto.
  now left.
Qed.

Lemma cycle_reported A B cfgA cfgB preA postA preB postB t argsA t1 argsB t2 :
  A <> B ->
  reg_lookup A (_registry t) = Some cfgA ->
  reg_lookup B (_registry t) = Some cfgB ->
  isConstant cfgA = false ->
  isConstant cfgB = false ->
  dependencies cfgA = preA ++ B :: postA ->
  dependencies cfgB = preB ++ A :: postB ->
  _resolved t !! A = None ->
  _resolved t !! B = None ->
  mapM (resolve_under [A]) preA t = Ok argsA t1 ->
  mapM (resolve_under [A; B]) preB t1 = Ok argsB t2 ->
  resolve A t = Throw (CircularDependency [A; B; A]) t2.
Proof.
  intros Hne RA RB KA KB DA DB CA CB HpreA HpreB.
  assert (HinA : In A (dependencies cfgB)).
  { rewrite DB. apply in_or_app. right. now left. }
  destruct (mapM_Ok_blocked
    (fun s => reg_lookup A (_registry s) = Some cfgA /\
              reg_lookup B (_registry s) = Some cfgB /\
              _resolved s !! B = None)
    (resolve_under [A]) B preA t argsA t1) as [(RA1 & RB1 & CB1) _]; auto.
  { intros x u y u' Hu Hx. unfold resolve_under in Hx.
    eapply (_resolve_blocked A B cfgA cfgB _ x [A] u y u'); eauto.
    now left. }
  assert (R2 : _registry t2 = _registry t1).
  { pose proof (mapM_resolve_under_extends [A; B] preB t1) as He.
    rewrite HpreB in He. apply (ext_registry _ _ He). }
  change (resolve A t) with (resolve_under [] A t).
  eapply requester_aborts; eauto using List.NoDup_nil, incl_nil_l.
  cbn [app].
  eapply (requester_aborts [A] B); eauto.
  - intros [E|[]]. auto.
  - repeat constructor. intros [].
  - intros y [<-|[]]. eapply reg_lookup_In; eauto.
  - cbn [app]. unfold resolve_under, resolve_fuel.
    erewrite _resolve_circular; [reflexivity|rewrite R2; eauto|now left].
Qed.

(** C4, amended. Let [A] and [B] be two different keys registered as
    factories, [B] among the dependencies of [A] and [A] among those of [B],
    neither with a cache entry.  Then [resolve(A)] and [resolve(B)] always
    throw.  When the dependencies [A] lists before [B] resolve under the
    requester [A], and those [B] lists before [A] resolve under the
    requesters [A], [B], the error of [resolve(A)] is the
    circular-dependency error with the path [A], [B], [A], thrown from the
    container these resolutions leave; and the same for [resolve(B)] with the
    two keys exchanged.  The message is the fixed text, a line break, four
    spaces and the path joined by arrows. *)
Theorem C4_circular_dependency (t : Tree) (A B : string) (cfgA cfgB : Config)
    (preA postA preB postB : list string) :
  A <> B ->
  reg_lookup A (_registry t) = Some cfgA ->
  reg_lookup B (_registry t) = Some cfgB ->
  isConstant cfgA = false ->
  isConstant cfgB = false ->
  dependencies cfgA = preA ++ B :: postA ->
  dependencies cfgB = preB ++ A :: postB ->
  _resolved t !! A = None ->
  _resolved t !! B = None ->
  (exists e t', resolve A t = Throw e t') /\
  (exists e t', resolve B t = Throw e t') /\
  (forall argsA t1 argsB t2,
     mapM (resolve_under [A]) preA t = Ok argsA t1 ->
     mapM (resolve_under [A; B]) preB t1 = Ok argsB t2 ->
     resolve A t = Throw (CircularDependency [A; B; A]) t2) /\
  (forall argsB t1 argsA t2,
     mapM (resolve_under [B]) preB t = Ok argsB t1 ->
     mapM (resolve_under [B; A]) preA t1 = Ok argsA t2 ->
     resolve B t = Throw (CircularDependency [B; A; B]) t2) /\
  CircularDependency [A; B; A] =
    JsError ("Circular dependency detected! Please check the following dependencies to correct the problem"
             +:+ newline +:+ "    " +:+ A +:+ " -> " +:+ B +:+ " -> " +:+ A).
Proof.
  intros Hne RA RB KA KB DA DB CA CB.
  assert (HinB : In B (dependencies cfgA)).
  { rewrite DA. apply in_or_app. right. now left. }
  assert (HinA : In A (dependencies cfgB)).
  { rewrite DB. apply in_or_app. right. now left. }
  split; [eapply cycle_member_throws; eauto|].
  split; [eapply (cycle_member_throws B A); eauto|].
  split; [intros; eapply cycle_reported; eauto|].
  split; [intros; eapply (cycle_reported B A); eauto|].
  unfold CircularDependency, buildPathErrorMsg, circular_msg.
  cbn [join_arrow Nat.eqb]. rewrite append_nil_r. reflexivity.
Qed.

Lemma C4_circular_dependency_witness :
  resolve "A" cycle_behind_tree
    = Throw (JsError ("Circular dependency detected! Please check the following dependencies to correct the problem"
                      +:+ newline +:+ "    A -> B -> A"))
            (cycle_behind_tree |> resolve "A") /\
  resolve "B" cycle_behind_tree
    = Throw (JsError ("Circular dependency detected! Please check the following dependencies to correct the problem"
                      +:+ newline +:+ "    B -> A -> B"))
            (cycle_behind_tree |> resolve "B").
Proof.
  destruct (C4_circular_dependency cycle_behind_tree "A" "B"
              (mkConfig ["C"; "B"] false false
                 (VFun (mkFn (Some "C, B") false false ReturnsNothing)))
              (mkConfig ["A"] false false (VFun NeedsA)) ["C"] [] [] [])
    as (_ & _ & HA & HB & _); try (vm_compute; reflexivity); [discriminate|].
  split.
  - eapply eq_trans; [eapply HA; vm_compute; reflexivity|vm_compute; reflexivity].
  - eapply eq_trans; [eapply HB; vm_compute; reflexivity|vm_compute; reflexivity].
Defined.

(** C4 as stated fails.  [A] depends on [B] and [B] on [A], yet [A] sits in
    the cache from before [B] was registered again, and resolving [A] returns
    the cached instance without any error.  And where [A] lists an
    unregistered key before [B], resolving [A] fails with the
    unregistered-dependency error instead. *)
Lemma C4_counterexample :
  reachable cached_cycle_tree /\
  reg_lookup "A" (_registry cached_cycle_tree)
    = Some (mkConfig ["B"] false true (VFun NeedsB)) /\
  reg_lookup "B" (_registry cached_cycle_tree)
    = Some (mkConfig ["A"] false true (VFun NeedsA)) /\
  resolve "A" cached_cycle_tree
    = Ok (VObj (mkObj 1 false false)) cached_cycle_tree /\
  resolve "B" cached_cycle_tree
    = Ok (VObj (mkObj 2 false false)) (cached_cycle_tree |> resolve "B") /\
  reachable cycle_behind_unregistered_tree /\
  reg_lookup "A" (_registry cycle_behind_unregistered_tree)
    = Some (mkConfig ["X"; "B"] false false
              (VFun (mkFn (Some "X, B") false false ReturnsNothing))) /\
  reg_lookup "B" (_registry cycle_behind_unregistered_tree)
    = Some (mkConfig ["A"] false false (VFun NeedsA)) /\
  resolve "A" cycle_behind_unregistered_tree
    = Throw (UnregisteredDependency "X" ["A"; "X"]) cycle_behind_unregistered_tree.
Proof.
  split; [unfold cached_cycle_tree; reach|].
  do 4 (split; [vm_compute; reflexivity|]).
  split; [unfold cycle_behind_unregistered_tree; reach|].
  repeat split; vm_compute; reflexivity.
Qed.

(** ** An unregistered key, reached at any depth *)

Lemma reaches_registry x path key chain t t2 :
  reaches x path key chain t t2 -> _registry t2 = _registry t.
Proof.
  induction 1 as [|path key chain t config pre post args t1 d t2 _ _ _ _ _ Hpre _ IH];
    [reflexivity|].
  pose proof (mapM_resolve_under_extends (path ++ [key]) pre t) as He.
  rewrite Hpre in He. rewrite IH. apply (ext_registry _ _ He).
Qed.

Lemma mapM_resolve_under_untouched p ds t :
  after (mapM (resolve_under p) ds t)
        (fun t' => forall k, In k p -> _resolved t' !! k = _resolved t !! k).
Proof.
  apply (mapM_state
    (fun t t' => forall k, In k p -> _resolved t' !! k = _resolved t !! k)).
  - reflexivity.
  - intros a b c Hab Hbc k Hk. rewrite Hbc, Hab; auto.
  - intros d s _. apply _resolve_path_untouched.
Qed.

Lemma reaches_untouched x path key chain t t2 :
  reaches x path key chain t t2 ->
  forall k, In k path -> _resolved t2 !! k = _resolved t !! k.
Proof.
  induction 1 as [|path key chain t config pre post args t1 d t2 _ _ _ _ _ Hpre _ IH];
    intros k Hk; [reflexivity|].
  pose proof (mapM_resolve_under_untouched (path ++ [key]) pre t) as Hu.
  rewrite Hpre in Hu. cbn [after] in Hu.
  rewrite IH, Hu; auto; apply in_or_app; now left.
Qed.

Lemma reaches_chain_uncached x path key chain t t2 :
  reaches x path key chain t t2 ->
  forall k, In k chain -> _resolved t2 !! k = None.
Proof.
  induction 1 as [|path key chain t config pre post args t1 d t2 _ _ Hc _ _ Hpre Hr IH];
    intros k Hk; [destruct Hk|].
  destruct Hk as [<-|Hk]; [|auto].
  pose proof (mapM_resolve_under_untouched (path ++ [key]) pre t) as Hu.
  rewrite Hpre in Hu. cbn [after] in Hu.
  rewrite (reaches_untouched _ _ _ _ _ _ Hr), Hu, Hc; auto;
    apply in_or_app; right; now left.
Qed.

Lemma reaches_unregistered x path key chain t t2 :
  reaches x path key chain t t2 ->
  reg_lookup x (_registry t) = None ->
  prototype_member x = false ->
  List.NoDup path ->
  incl path (Object_keys (_registry t)) ->
  resolve_under path key t
    = Throw (UnregisteredDependency x (path ++ chain ++ [x])) t2.
Proof.
  induction 1 as [path t|path key chain t config pre post args t1 d t2
                    Hreg Hin Hc Hk Hd Hpre Hr IH]; intros Hx Hp Hnd Hincl.
  - unfold resolve_under, resolve_fuel. now rewrite _resolve_unregistered.
  - assert (R1 : _registry t1 = _registry t).
    { pose proof (mapM_resolve_under_extends (path ++ [key]) pre t) as He.
      rewrite Hpre in He. apply (ext_registry _ _ He). }
    eapply requester_aborts; eauto.
    rewrite IH.
    + now rewrite <- app_assoc.
    + now rewrite R1.
    + exact Hp.
    + now apply NoDup_snoc.
    + rewrite R1. apply incl_snoc; auto. eapply reg_lookup_In; eauto.
Qed.

(** X25. Let [x] be a key without registration record that is no member name
    of [Object.prototype].  When [resolve(key)] gets to ask for [x] through a
    chain of requesters (each one a factory key without cache entry, the
    dependencies it lists before the next key of the chain resolving), it
    throws the unregistered-dependency error for [x] whose path is the whole
    chain followed by [x]; with an empty chain this is [resolve(x)] itself.
    The message is the fixed text with the key between backquotes, a line
    break, four spaces and the path joined by arrows.  No requester of the
    chain gets a cache entry and the registry is unchanged, while the cache
    keeps what the earlier dependencies added. *)
Theorem X25_unregistered_dependency_reached (t t2 : Tree) (x key : string)
    (chain : list string) :
  prototype_member x = false ->
  reg_lookup x (_registry t) = None ->
  reaches x [] key chain t t2 ->
  resolve key t = Throw (UnregisteredDependency x (chain ++ [x])) t2 /\
  UnregisteredDependency x (chain ++ [x]) =
    JsError (("Detected unregistered dependency `" +:+ x +:+ "`") +:+ newline
             +:+ "    " +:+ join_arrow 0 (chain ++ [x])) /\
  last (chain ++ [x]) = Some x /\
  (forall k, In k chain -> _resolved t2 !! k = None) /\
  _registry t2 = _registry t /\
  _resolved t ⊆ _resolved t2.
Proof.
  intros Hp Hx Hr.
  assert (H : resolve key t = Throw (UnregisteredDependency x (chain ++ [x])) t2).
  { change (resolve key t) with (resolve_under [] key t).
    rewrite (reaches_unregistered _ _ _ _ _ _ Hr Hx Hp);
      [reflexivity|constructor|apply incl_nil_l]. }
  split; [exact H|]. split.
  { reflexivity. }
  split; [apply last_snoc|].
  split; [eapply reaches_chain_uncached; eauto|].
  split; [eapply reaches_registry; eauto|].
  pose proof (_resolve_extends (resolve_fuel t) key [] t) as He.
  unfold resolve in H. rewrite H in He. apply (ext_resolved _ _ He).
Qed.

Lemma X25_unregistered_dependency_reached_witness :
  resolve "plugin" missing_tree
    = Throw (JsError ("Detected unregistered dependency `missing`" +:+ newline
                      +:+ "    plugin -> parser -> missing"))
            (missing_tree |> resolve "plugin") /\
  resolve "missing" missing_tree
    = Throw (JsError ("Detected unregistered dependency `missing`" +:+ newline
                      +:+ "    missing"))
            missing_tree /\
  _resolved (missing_tree |> resolve "plugin") !! "plugin" = None /\
  _resolved (missing_tree |> resolve "plugin") !! "parser" = None /\
  is_Some (_resolved (missing_tree |> resolve "plugin") !! "log").
Proof.
  assert (Hr : reaches "missing" [] "plugin" ["plugin"; "parser"] missing_tree
                 (missing_tree |> resolve "plugin")).
  { eapply (reaches_through "missing" [] "plugin" ["parser"] missing_tree _
              ["log"] [] _ _ "parser"); try (vm_compute; reflexivity).
    - intros [].
    - eapply (reaches_through "missing" ["plugin"] "parser" [] _ _
                ["log"] [] _ _ "missing"); try (vm_compute; reflexivity).
      + intros [E|[]]. discriminate.
      + apply reaches_here. }
  destruct (X25_unregistered_dependency_reached missing_tree _ "missing" "plugin"
              ["plugin"; "parser"] eq_refl eq_refl Hr) as (H1 & _ & _ & H2 & _).
  destruct (X25_unregistered_dependency_reached missing_tree _ "missing" "missing"
              [] eq_refl eq_refl (reaches_here _ _ _)) as (H3 & _).
  split; [rewrite H1; vm_compute; reflexivity|].
  split; [rewrite H3; vm_compute; reflexivity|].
  split; [apply H2; now left|].
  split; [apply H2; right; now left|].
  vm_compute. eauto.
Defined.

(** ** [isRegistered] for an ordinary key *)

(** X24. For a key that is no member name of [Object.prototype],
    [isRegistered(key)] answers whether the key is among
    [Object.keys(registry)].  It is [false] on a new container; neither a
    destroy nor a resolution changes the answer; a registration never turns
    it from [true] to [false], leaves the answer for every key other than its
    own unchanged, and when it returns, the answer for its own key is
    [true]. *)
Theorem X24_isRegistered_ordinary_key (t : Tree) (key : string) :
  prototype_member key = false ->
  (isRegistered key t = true <-> In key (Object_keys (_registry t))) /\
  isRegistered key empty_tree = false /\
  (forall k, isRegistered key (state_after (destroy k t) t) = isRegistered key t) /\
  (forall k, isRegistered key (state_after (resolve k t) t) = isRegistered key t) /\
  (forall k val opts,
     implb (isRegistered key t)
           (isRegistered key (state_after (register k val opts t) t)) = true /\
     (String.eqb k key
      || Bool.eqb (isRegistered key (state_after (register k val opts t) t))
                  (isRegistered key t)) = true) /\
  (forall val opts t',
     register key val opts t = Ok tt t' -> isRegistered key t' = true).
Proof.
  intros Hp.
  split; [rewrite Object_keys_lookup; now apply isRegistered_lookup|].
  split; [unfold isRegistered; cbn; exact Hp|]. split; [|split; [|split]].
  - intros k. unfold isRegistered. rewrite state_after_registry; auto.
    pose proof (destroy_shrinks k t) as H.
    destruct (destroy k t); simpl in *; auto; apply (shr_registry _ _ H).
  - intros k. unfold isRegistered. rewrite state_after_registry; auto.
    pose proof (_resolve_extends (resolve_fuel t) k [] t) as H. unfold resolve.
    destruct (_resolve _ k [] t); simpl in *; auto; apply (ext_registry _ _ H).
  - intros k val opts.
    assert (H : _registry (state_after (register k val opts t) t) = _registry t \/
                exists c, _registry (state_after (register k val opts t) t)
                          = reg_set k c (_registry t)).
    { pose proof (register_registry k val opts t) as H.
      destruct (register k val opts t); cbn [after state_after] in *; auto. }
    unfold isRegistered. rewrite Hp. destruct H as [->|[c ->]].
    + destruct (reg_lookup key (_registry t)); simpl; split; auto;
        apply orb_true_r.
    + destruct (String.eqb k key) eqn:E.
      * apply String.eqb_eq in E. subst k. rewrite reg_lookup_set_eq.
        split; [apply implb_true_iff; auto|reflexivity].
      * apply String.eqb_neq in E. rewrite reg_lookup_set_ne by auto.
        destruct (reg_lookup key (_registry t)); simpl; auto.
  - intros val opts t' H.
    apply register_Ok_inv in H as (t1 & deps & _ & _ & ->).
    eapply isRegistered_record. cbn [set_registry _registry].
    apply reg_lookup_set_eq.
Qed.

Lemma X24_isRegistered_ordinary_key_witness :
  isRegistered "parser" missing_tree = true /\
  isRegistered "missing" missing_tree = false /\
  isRegistered "missing" (missing_tree |> destroy None) = false.
Proof.
  destruct (X24_isRegistered_ordinary_key missing_tree "parser" eq_refl)
    as (Hin & _).
  destruct (X24_isRegistered_ordinary_key missing_tree "missing" eq_refl)
    as (Hout & _ & Hd & _).
  split; [apply Hin; vm_compute; auto|].
  assert (Hno : isRegistered "missing" missing_tree = false).
  { apply Bool.not_true_is_false. intros E. apply Hout in E.
    vm_compute in E. intuition discriminate. }
  split; [exact Hno|]. unfold then_. now rewrite Hd.
Defined.

(** ** No record under a member name of [Object.prototype] *)

Lemma register_inherited_name key val opts t :
  cache_holds_singletons t ->
  plain_registry t ->
  prototype_member key = true ->
  match register key val opts t with
  | Ok _ _ => False
  | Throw e t' =>
      _registry t' = _registry t /\
      (e = InvalidOptions \/ exists what, e = TypeError what)
  | OutOfFuel => True
  end.
Proof.
  intros Hinv Hplain Hp.
  assert (Hstages : forall agg c s,
    match overwrite key t >>= fun _ t1 =>
          declared_dependencies key val c t1 >>= fun deps t2 =>
          aggregate agg (set_registry key (mkConfig deps c s val) t2) with
    | Ok _ _ => False
    | Throw e t' =>
        _registry t' = _registry t /\
        (e = InvalidOptions \/ exists what, e = TypeError what)
    | OutOfFuel => True
    end).
  { intros agg c s.
    pose proof (overwrite_shrinks key t) as Ho.
    pose proof (overwrite_Ok_plain key t) as Hk.
    destruct (overwrite key t) as [[] t1|e t1|] eqn:E; cbn [bind after] in *; auto.
    - specialize (Hk t1 Hinv Hplain eq_refl). congruence.
    - split; [apply (shr_registry _ _ Ho)|]. right.
      unfold overwrite in E. destruct (isRegistered key t); [|discriminate].
      eapply destroy_throws_TypeError; eauto. }
  unfold register. destruct opts; [apply Hstages|auto|apply Hstages].
Qed.

(** X26. In a container built with the public operations the registry holds
    no record under a member name of [Object.prototype], and the cache no
    entry.  [register] with such a name as key never returns: after the
    options check, the overwrite path finds the inherited member, takes it
    for a cache entry and fails at the teardown hook; when it throws, the
    error is the one for the options or a TypeError, and the registry is as
    it was. *)
Theorem X26_no_record_under_inherited_name (t : Tree) (key : string) (val : value)
    (opts : options) :
  reachable t ->
  prototype_member key = true ->
  plain_registry t /\
  reg_lookup key (_registry t) = None /\
  _resolved t !! key = None /\
  match register key val opts t with
  | Ok _ _ => False
  | Throw e t' =>
      _registry t' = _registry t /\
      (e = InvalidOptions \/ exists what, e = TypeError what)
  | OutOfFuel => True
  end.
Proof.
  intros Hr Hp.
  pose proof (reachable_plain_registry t Hr) as Hplain.
  pose proof (reachable_cache_holds_singletons t Hr) as Hinv.
  assert (Hno : reg_lookup key (_registry t) = None).
  { destruct (reg_lookup key (_registry t)) as [c|] eqn:E; [|reflexivity].
    assert (Hin : In key (Object_keys (_registry t)))
      by (apply Object_keys_lookup; eauto).
    apply Hplain in Hin. congruence. }
  split; [exact Hplain|]. split; [exact Hno|]. split.
  - destruct (_resolved t !! key) as [r|] eqn:E; [|reflexivity].
    destruct (Hinv key r E) as (c & Hc & _). congruence.
  - now apply register_inherited_name.
Qed.

Lemma X26_no_record_under_inherited_name_witness :
  register "toString" (VFun NeedsNothing) no_opts missing_tree
    = Throw (TypeError "context.emit") missing_tree /\
  reg_lookup "toString" (_registry missing_tree) = None.
Proof.
  assert (Hr : reachable missing_tree) by (unfold missing_tree; reach).
  destruct (X26_no_record_under_inherited_name missing_tree "toString"
              (VFun NeedsNothing) no_opts Hr eq_refl) as (_ & Hno & _ & _).
  split; [vm_compute; reflexivity|exact Hno].
Defined.
